(** * Validator registry (src/src/operation.js): model and properties

    The registry is a plain object [validator] with three maps,
    [validationStorage], [groupStroage] (the source's spelling) and
    [resultCache]; every exported function of operation.js takes it as
    first argument and mutates it in place.  The embedding threads a
    [store] through a small state/exception/trace monad.

    What is modelled, and how:
    - JavaScript values are the inductive [value]; numbers are the
      integers (as property keys, the safe integers).  Array and object
      literals handed to the registry are carried by value ([VArr],
      [VObj]) and read as they were written;
      objects with an identity, which can be shared and mutated, live in
      the [heap] and are named by [VRef].  The result arrays of
      [validateOne] and the copies made by [getOneResult] are heap objects.
    - The three maps are [gmap]s keyed by property name; they hold the
      own properties, and enumeration order is the map's, not the
      insertion order.  The maps are plain objects, so a read [map[k]]
      also finds the members of Object.prototype ([inherited]).  The two
      reads whose outcome the registry returns to the caller model this:
      the presence test of [register] (an id naming such a member is taken
      for registered) and the cache read of [getOneResult] (the clone of
      such a member is a new empty object).  Elsewhere a name of
      Object.prototype that is not an own property is read as absent, and
      an assignment always makes an own property; the properties of the
      functions concerned say what they say for names that are not members
      of Object.prototype (and ids other than ["__proto__"], which an
      assignment does not set), and carry that as a hypothesis.  A
      registered id never is such a name: [register] refuses them.
    - The field records created by [register] and the listener arrays
      created by [subscribe] and [clearListeners] are objects of the
      registry: they live in their own address spaces [records] and
      [larrays], so that the closure returned by [subscribe], which
      captures one of each, aliases them as in the source.
    - Caller-supplied functions (getters, validation functions, listeners,
      callbacks) are opaque.  A function value [VFun n] is named by its
      identity [n]; its behaviour is the section variable [user], which
      reads the whole store and returns a value and a new heap.  Callables
      thus may observe the registry and may allocate and mutate heap
      objects, but they return normally and do not call back into the
      registry while one of its functions runs.  The closure returned by
      [subscribe] is called by the caller only ([unsubscribe]); it is not
      a [value] that can be passed back in.
    - console.warn and console.info output is kept as events of the trace,
      next to one event per call of a caller-supplied function.
    - The objects that [validate] and [getResults] build are lists of
      properties in the order in which the properties were set. *)

From Stdlib Require Import ZArith.
From stdpp Require Import gmap strings list fin_maps pretty.

Set Warnings "-register-all".

Open Scope string_scope.
Open Scope list_scope.

(** ** Values *)

(** Addresses, and identities of caller-supplied functions. *)
Abbreviation loc := nat.
Abbreviation fn := nat.

Inductive value :=
| VUndefined
| VNull
| VBool (b : bool)
| VNum (n : Z)
| VStr (s : string)
| VFun (f : fn)
| VRef (l : loc)
| VArr (elems : list value)
| VObj (props : list (string * value)).

Inductive hobj :=
| HArr (elems : list value)
| HObj (props : list (string * value)).

(** The object [{name, validationChain, getter}] stored by [register];
    [listeners] is the property added later by [subscribe] ([None] while
    the property is absent), holding the address of a listener array. *)
Record field_record := FieldRecord {
  name : value;
  validationChain : value;
  getter : value;
  listeners : option loc
}.

Record store := Store {
  validationStorage : gmap string loc;
  groupStroage : gmap string (gmap string bool);
  resultCache : gmap string value;
  records : list field_record;
  larrays : list (list value);
  heap : list hobj
}.

(** What the arrow function returned by [subscribe] closes over. *)
Record closure := Closure {
  c_validation : loc;
  c_listeners : loc;
  c_listener : value
}.

Inductive returned :=
| Val (v : value)
| Unsubscribe (c : closure).

(** [InvalidRef] stands for the use of an address that holds nothing: no
    JavaScript program gets there, and no registered id leads there (lemma
    [reachable_well_formed]). *)
Inductive error :=
| TypeError (msg : string)
| InvalidRef.

Inductive res (A : Type) :=
| Ok (a : A)
| Throw (e : error).
Arguments Ok {A} a.
Arguments Throw {A} e.

Inductive warning :=
| NotRegistered (id : string)
| NotInGroup (id group : string)
| HaveRegistered (id : string).

Inductive role := Getter | Check | Listener | Callback.

Inductive event :=
| EvWarn (w : warning)
| EvInfo
| EvCall (r : role) (f : value) (args : list value) (result : value).

(** ** Store updates *)

Definition set_validationStorage (f : gmap string loc → gmap string loc) (s : store) : store :=
  Store (f (validationStorage s)) (groupStroage s) (resultCache s)
        (records s) (larrays s) (heap s).

Definition set_groupStroage
    (f : gmap string (gmap string bool) → gmap string (gmap string bool)) (s : store) : store :=
  Store (validationStorage s) (f (groupStroage s)) (resultCache s)
        (records s) (larrays s) (heap s).

Definition set_resultCache (f : gmap string value → gmap string value) (s : store) : store :=
  Store (validationStorage s) (groupStroage s) (f (resultCache s))
        (records s) (larrays s) (heap s).

Definition set_records (f : list field_record → list field_record) (s : store) : store :=
  Store (validationStorage s) (groupStroage s) (resultCache s)
        (f (records s)) (larrays s) (heap s).

Definition set_larrays (f : list (list value) → list (list value)) (s : store) : store :=
  Store (validationStorage s) (groupStroage s) (resultCache s)
        (records s) (f (larrays s)) (heap s).

Definition set_heap (f : list hobj → list hobj) (s : store) : store :=
  Store (validationStorage s) (groupStroage s) (resultCache s)
        (records s) (larrays s) (f (heap s)).

Definition set_listeners (la : loc) (r : field_record) : field_record :=
  FieldRecord (name r) (validationChain r) (getter r) (Some la).

Definition empty_store (h : list hobj) : store := Store ∅ ∅ ∅ [] [] h.

(** ** lodash predicates and property access *)

Definition isNil (v : value) : bool :=
  match v with VUndefined | VNull => true | _ => false end.

Definition isString (v : value) : bool :=
  match v with VStr _ => true | _ => false end.

Definition isFunction (v : value) : bool :=
  match v with VFun _ => true | _ => false end.

Definition isObject (v : value) : bool :=
  match v with VFun _ | VRef _ | VArr _ | VObj _ => true | _ => false end.

(** The elements of [v] when it is an array. *)
Definition as_array (h : list hobj) (v : value) : option (list value) :=
  match v with
  | VArr xs => Some xs
  | VRef l => match h !! l with Some (HArr xs) => Some xs | _ => None end
  | _ => None
  end.

Definition isArray (h : list hobj) (v : value) : bool :=
  match as_array h v with Some _ => true | None => false end.

Fixpoint assoc_get (k : string) (props : list (string * value)) : value :=
  match props with
  | [] => VUndefined
  | (k', v) :: rest => if String.eqb k k' then v else assoc_get k rest
  end.

Fixpoint assoc_set (k : string) (v : value) (props : list (string * value))
    : list (string * value) :=
  match props with
  | [] => [(k, v)]
  | (k', v') :: rest =>
      if String.eqb k k' then (k, v) :: rest else (k', v') :: assoc_set k v rest
  end.

(** [o.k] for a property the registry destructures out of an argument. *)
Definition get_prop (h : list hobj) (o : value) (k : string) : value :=
  match o with
  | VObj props => assoc_get k props
  | VRef l => match h !! l with Some (HObj props) => assoc_get k props | _ => VUndefined end
  | _ => VUndefined
  end.

(** Strict equality [===], as used by [Array.prototype.indexOf].  Literals
    carried by value have no identity and never compare equal; the
    listener arrays only ever hold function values. *)
Definition strict_equals (a b : value) : bool :=
  match a, b with
  | VUndefined, VUndefined | VNull, VNull => true
  | VBool x, VBool y => Bool.eqb x y
  | VNum x, VNum y => Z.eqb x y
  | VStr x, VStr y => String.eqb x y
  | VFun x, VFun y => Nat.eqb x y
  | VRef x, VRef y => Nat.eqb x y
  | _, _ => false
  end.

Fixpoint indexOf_from (i : Z) (x : value) (xs : list value) : Z :=
  match xs with
  | [] => (-1)%Z
  | y :: rest => if strict_equals y x then i else indexOf_from (i + 1)%Z x rest
  end.

(** [xs.indexOf(x)]: the first index holding [x], or [-1]. *)
Definition indexOf (x : value) (xs : list value) : Z := indexOf_from 0%Z x xs.

(** [xs.splice(start, deleteCount)], the array left behind: a negative
    [start] counts from the end, and both arguments are clamped as in
    ECMA-262 (Array.prototype.splice, steps 4 to 10). *)
Definition splice {A} (start deleteCount : Z) (xs : list A) : list A :=
  let len := Z.of_nat (length xs) in
  let actualStart :=
    if (start <? 0)%Z then Z.max (len + start) 0 else Z.min start len in
  let actualDeleteCount := Z.min (Z.max deleteCount 0) (len - actualStart) in
  take (Z.to_nat actualStart) xs
    ++ drop (Z.to_nat (actualStart + actualDeleteCount)) xs.

(** ** The monad: state, exceptions and a trace of events

    A thrown exception keeps the store reached so far: what was mutated
    before the [throw] stays mutated. *)

Definition M (A : Type) : Type := store → res A * store * list event.

Definition ret {A} (a : A) : M A := λ s, (Ok a, s, []).

Definition bind {A B} (m : M A) (k : A → M B) : M B := λ s,
  match m s with
  | (Ok a, s1, t1) => match k a s1 with (r, s2, t2) => (r, s2, t1 ++ t2) end
  | (Throw e, s1, t1) => (Throw e, s1, t1)
  end.

Definition throw {A} (e : error) : M A := λ s, (Throw e, s, []).
Definition get : M store := λ s, (Ok s, s, []).
Definition modify (f : store → store) : M unit := λ s, (Ok tt, f s, []).
Definition emit (e : event) : M unit := λ s, (Ok tt, s, [e]).

Declare Scope js_scope.
Delimit Scope js_scope with js.
Notation "'let!' x ':=' m 'in' k" := (bind m (λ x, k))
  (at level 10, x name, m at level 100, k at level 200) : js_scope.
Notation "'run!' m 'in' k" := (bind m (λ _, k))
  (at level 10, m at level 100, k at level 200) : js_scope.
Open Scope js_scope.

(** [xs.forEach(body)] and [_.each(xs, body)] for a loop whose body is the
    registry's own code. *)
Fixpoint forEach {A} (xs : list A) (body : A → M unit) : M unit :=
  match xs with
  | [] => ret tt
  | x :: rest => run! body x in forEach rest body
  end.

Definition alloc_heap (o : hobj) : M loc := λ s,
  (Ok (length (heap s)), set_heap (λ h, h ++ [o]) s, []).

Definition alloc_larray (xs : list value) : M loc := λ s,
  (Ok (length (larrays s)), set_larrays (λ a, a ++ [xs]) s, []).

Definition alloc_record (r : field_record) : M loc := λ s,
  (Ok (length (records s)), set_records (λ rs, rs ++ [r]) s, []).

Definition array_length (h : list hobj) (v : value) : nat :=
  match as_array h v with Some xs => length xs | None => 0 end.

(** [v[i]] on an array, [undefined] past its end. *)
Definition elem_at (h : list hobj) (v : value) (i : nat) : value :=
  match as_array h v with Some xs => default VUndefined (xs !! i) | None => VUndefined end.

(** The array a [listeners] property denotes; [const {listeners = []}]
    puts a new empty array in place of an absent property. *)
Definition listener_array (s : store) (la : option loc) : list value :=
  match la with
  | Some l => default [] (larrays s !! l)
  | None => []
  end.

(** Group storage after [group[id] = true] on the group named [element],
    which is created when it is missing. *)
Definition mark_member (id element : string) (gs : gmap string (gmap string bool))
    : gmap string (gmap string bool) :=
  <[element := <[id := true]> (default ∅ (gs !! element))]> gs.

(** The array built from a [Set] keeps one entry per element. *)
Definition set_add (x : string) (xs : list string) : list string :=
  if bool_decide (x ∈ xs) then xs else xs ++ [x].

(** The property names of [Object.prototype] in a standard environment.
    The three maps of the registry and the group maps are plain objects
    ([{}]), so a read [map[k]] of a name [k] that is not an own property
    finds the member of [Object.prototype] when [k] is one of these. *)
Definition object_prototype_names : list string :=
  ["constructor"; "__proto__"; "hasOwnProperty"; "isPrototypeOf";
   "propertyIsEnumerable"; "toLocaleString"; "toString"; "valueOf";
   "__defineGetter__"; "__defineSetter__"; "__lookupGetter__"; "__lookupSetter__"].

Definition inherited (k : string) : bool :=
  bool_decide (k ∈ object_prototype_names).

Section Registry.

(** [user n args s]: the result and the heap left by a call of the
    caller's function [n] on [args] in store [s]. *)
Variable user : fn → list value → store → value * list hobj.

(** The property key an object or a function converts to (its
    [toString()]), and the key of a number that is not a safe integer
    (beyond 2^53 - 1 in absolute value, where the decimal numeral is no
    longer what JavaScript prints); the other primitive values are
    converted by [toPropertyKey]. *)
Variable object_key : store → value → string.

Definition toPropertyKey (s : store) (v : value) : string :=
  match v with
  | VStr k => k
  | VUndefined => "undefined"
  | VNull => "null"
  | VBool true => "true"
  | VBool false => "false"
  | VNum n =>
      if (Z.abs n <=? 9007199254740991)%Z then pretty n else object_key s v
  | _ => object_key s v
  end.

(** [f(...args)] for a caller-supplied [f]; calling anything that is not
    a function is a TypeError. *)
Definition call (r : role) (f : value) (args : list value) : M value := λ s,
  match f with
  | VFun n =>
      match user n args s with
      | (v, h) => (Ok v, set_heap (λ _, h) s, [EvCall r f args v])
      end
  | _ => (Throw (TypeError "is not a function"), s, [])
  end.

(** [if (!_.isNil(callback)) callback();] *)
Definition invoke_callback (callback : value) : M unit :=
  if isNil callback then ret tt else run! call Callback callback [] in ret tt.

Definition getDisplayName (name id : value) : value :=
  if isNil name then id else name.

Definition checkFieldType (field : value) : M unit :=
  if isObject field then ret tt
  else throw (TypeError "field can't be null and must be an object.").

Definition checkId (id : value) : M unit :=
  if isString id then ret tt
  else throw (TypeError "id must not be null and must be a string.").

Definition checkGetter (getter : value) : M unit :=
  if isFunction getter then ret tt
  else throw (TypeError "getter must a function without paramter.").

Definition checkName (name : value) : M unit :=
  if isNil name then ret tt
  else if isString name then ret tt
  else throw (TypeError "name must be a string.").

Definition checkGroups (groups : value) : M unit :=
  if isNil groups then ret tt
  else
    let! s := get in
    match as_array (heap s) groups with
    | None => throw (TypeError "groups must be an array of strings.")
    | Some xs =>
        if forallb isString xs then ret tt
        else throw (TypeError "groups must be an array of strings.")
    end.

Definition checkValidationChain (validationChain : value) : M unit :=
  if isNil validationChain then ret tt
  else
    let! s := get in
    if isArray (heap s) validationChain then ret tt
    else throw (TypeError "validation chain must be array of functions.").

Definition checkCallback (callback : value) : M unit :=
  if isNil callback then ret tt
  else if isFunction callback then ret tt
  else throw (TypeError "callback must be a function.").

Definition checkListener (listener : value) : M unit :=
  if isNil listener then ret tt
  else if isFunction listener then ret tt
  else throw (TypeError "listener must be a function with a parameter.").

(** The ids flagged [true] in one group object, in enumeration order. *)
Definition group_members (group : gmap string bool) : list string :=
  (filter (λ kv : string * bool, kv.2 = true) (map_to_list group)).*1.

(** Callers have run [checkGroups]: [groups] is nil or an array. *)
Definition getIdsFromGroups (s : store) (groups : value) : list string :=
  if isNil groups then (map_to_list (validationStorage s)).*1
  else
    foldl (λ fieldIdSet element,
             let group := default ∅ (groupStroage s !! toPropertyKey s element) in
             foldl (λ acc id, set_add id acc) fieldIdSet (group_members group))
          [] (default [] (as_array (heap s) groups)).

Definition warnWhenNotRegistered (id : string) : M unit :=
  let! s := get in
  match validationStorage s !! id with
  | None => emit (EvWarn (NotRegistered id))
  | Some _ => ret tt
  end.

Definition warnWhenIdNotInGroup (id groupName : string) : M unit :=
  let! s := get in
  match groupStroage s !! groupName with
  | None => emit (EvWarn (NotInGroup id groupName))
  | Some group =>
      match group !! id with
      | Some true => ret tt
      | _ => emit (EvWarn (NotInGroup id groupName))
      end
  end.

(** [validationStorage[id]] is not nil when [id] is registered and also
    when [id] names a member of [Object.prototype]. *)
Definition warnWhenIdHaveRegister (id : string) : M unit :=
  let! s := get in
  match validationStorage s !! id with
  | None => if inherited id then emit (EvWarn (HaveRegistered id)) else ret tt
  | Some _ => emit (EvWarn (HaveRegistered id))
  end.

(** [group = groupStroage[element]; if (!group) { ... = {} }; group[id] = true] *)
Definition join_group (id element : string) : M unit :=
  modify (set_groupStroage (mark_member id element)).

(** ** The exported functions *)

Definition register (field validationChain callback : value) : M value :=
  run! checkFieldType field in
  let! s0 := get in
  let id := get_prop (heap s0) field "id" in
  let getter := get_prop (heap s0) field "getter" in
  let groups := get_prop (heap s0) field "groups" in
  let name := get_prop (heap s0) field "name" in
  run! checkId id in
  run! checkGetter getter in
  run! checkName name in
  run! checkGroups groups in
  run! checkValidationChain validationChain in
  run! checkCallback callback in
  let key := toPropertyKey s0 id in
  run! warnWhenIdHaveRegister key in
  let! s := get in
  match validationStorage s !! key with
  | Some _ => ret VUndefined
  | None =>
      if inherited key then ret VUndefined
      else
        let! lv := alloc_record (FieldRecord name validationChain getter None) in
        run! modify (set_validationStorage <[key := lv]>) in
        run! (if isNil groups then ret tt
              else forEach (default [] (as_array (heap s) groups))
                           (λ element, join_group key (toPropertyKey s element))) in
        run! invoke_callback callback in
        ret (VBool true)
  end.

(** [_.each(validationChain, f => ...)]: lodash takes the length once and
    reads [validationChain[index]] at each round; [n] rounds are left and
    [i] is the index.  The argument [getter()] is evaluated before [f] is
    applied.  The results are pushed on the local array, here [acc]. *)
Fixpoint each_chain (n i : nat) (chain displayName getter : value)
    (acc : list value) : M (list value) :=
  match n with
  | O => ret acc
  | S n' =>
      let! s := get in
      let f := elem_at (heap s) chain i in
      let! v := call Getter getter [] in
      let! result := call Check f [VObj [("name", displayName); ("value", v)]] in
      each_chain n' (S i) chain displayName getter (acc ++ [result])
  end.

(** [_.each(listeners, f => { f(validationResult); })] on the listener
    array at [la]. *)
Fixpoint each_listener (n i : nat) (la : option loc) (validationResult : value) : M unit :=
  match n with
  | O => ret tt
  | S n' =>
      let! s := get in
      let f := default VUndefined (listener_array s la !! i) in
      run! call Listener f [validationResult] in
      each_listener n' (S i) la validationResult
  end.

(** The local array [validationResult] becomes a heap object when it is
    first shared, that is when it is stored in the cache. *)
Definition validateOne (id callback : value) : M value :=
  run! checkId id in
  run! checkCallback callback in
  let! s := get in
  let key := toPropertyKey s id in
  run! warnWhenNotRegistered key in
  match validationStorage s !! key with
  | None => ret VUndefined
  | Some lv =>
      match records s !! lv with
      | None => throw InvalidRef
      | Some validation =>
          let chain := validationChain validation in
          let! results :=
            (if isNil chain then ret []
             else each_chain (array_length (heap s) chain) 0 chain
                             (getDisplayName (name validation) id)
                             (getter validation) []) in
          let! lres := alloc_heap (HArr results) in
          run! modify (set_resultCache <[key := VRef lres]>) in
          let! s1 := get in
          let n := length (listener_array s1 (listeners validation)) in
          run! each_listener n 0 (listeners validation) (VRef lres) in
          run! invoke_callback callback in
          ret (VRef lres)
      end
  end.

(** The object [result] is allocated when it is returned. *)
Definition validate (groups callback : value) : M value :=
  run! checkGroups groups in
  run! checkCallback callback in
  let! s := get in
  let fieldIds := getIdsFromGroups s groups in
  let! result :=
    foldl (λ acc element,
             let! props := acc in
             let! validationResult := validateOne (VStr element) VNull in
             ret (assoc_set element validationResult props))
          (ret []) fieldIds in
  run! invoke_callback callback in
  let! l := alloc_heap (HObj result) in
  ret (VRef l).

Definition subscribe (id listener callback : value) : M returned :=
  run! checkListener listener in
  run! checkCallback callback in
  if isNil listener then ret (Val (VBool true))
  else
    let! s := get in
    let key := toPropertyKey s id in
    run! warnWhenNotRegistered key in
    match validationStorage s !! key with
    | None =>
        throw (TypeError "Cannot destructure property 'listeners' of 'validation' as it is undefined.")
    | Some lv =>
        match records s !! lv with
        | None => throw InvalidRef
        | Some validation =>
            let! la := match listeners validation with
                       | Some la => ret la
                       | None => alloc_larray []
                       end in
            run! modify (set_larrays (alter (λ xs, xs ++ [listener]) la)) in
            run! modify (set_records (alter (set_listeners la) lv)) in
            run! invoke_callback callback in
            ret (Unsubscribe (Closure lv la listener))
        end
    end.

(** Calling the arrow function returned by [subscribe]. *)
Definition unsubscribe (c : closure) : M value :=
  let! s := get in
  match larrays s !! c_listeners c with
  | None => throw InvalidRef
  | Some xs =>
      let index := indexOf (c_listener c) xs in
      run! modify (set_larrays <[c_listeners c := splice index 1 xs]>) in
      run! modify (set_records (alter (set_listeners (c_listeners c)) (c_validation c))) in
      ret (VBool true)
  end.

Definition clearListeners (id callback : value) : M value :=
  run! checkId id in
  run! checkCallback callback in
  let! s := get in
  let key := toPropertyKey s id in
  run! warnWhenNotRegistered key in
  match validationStorage s !! key with
  | None => ret VUndefined
  | Some lv =>
      let! la := alloc_larray [] in
      run! modify (set_records (alter (set_listeners la) lv)) in
      run! invoke_callback callback in
      ret VUndefined
  end.

Definition updateGroups (id groups callback : value) : M value :=
  run! checkGroups groups in
  run! checkCallback callback in
  let! s := get in
  let key := toPropertyKey s id in
  run! warnWhenNotRegistered key in
  run! modify (set_groupStroage (fmap <[key := false]>)) in
  match as_array (heap s) groups with
  | None => throw (TypeError "Cannot read properties of null (reading 'forEach')")
  | Some xs =>
      run! forEach xs (λ element, join_group key (toPropertyKey s element)) in
      run! invoke_callback callback in
      ret (VBool true)
  end.

Definition addGroup (id group callback : value) : M value :=
  run! checkGroups (VArr [group]) in
  run! checkCallback callback in
  let! s := get in
  let key := toPropertyKey s id in
  run! warnWhenNotRegistered key in
  run! join_group key (toPropertyKey s group) in
  run! invoke_callback callback in
  ret (VBool true).

Definition removeGroup (id group callback : value) : M value :=
  run! checkGroups (VArr [group]) in
  run! checkCallback callback in
  let! s := get in
  let key := toPropertyKey s id in
  let groupName := toPropertyKey s group in
  run! warnWhenNotRegistered key in
  match validationStorage s !! key with
  | None => ret VUndefined
  | Some _ =>
      run! warnWhenIdNotInGroup key groupName in
      match groupStroage s !! groupName with
      | None => ret VUndefined
      | Some _ =>
          run! modify (set_groupStroage (alter <[key := false]> groupName)) in
          run! invoke_callback callback in
          ret VUndefined
      end
  end.

Definition deregister (id callback : value) : M value :=
  run! checkId id in
  run! checkCallback callback in
  let! s := get in
  let key := toPropertyKey s id in
  run! warnWhenNotRegistered key in
  match validationStorage s !! key with
  | None => ret VUndefined
  | Some _ =>
      run! modify (set_validationStorage (delete key)) in
      run! modify (set_resultCache <[key := VUndefined]>) in
      run! invoke_callback callback in
      ret VUndefined
  end.

(** [_.clone(v)]: a new array or object with the same elements or
    property values (not copies of them); primitives are returned as they
    are and a function yields [{}]. *)
Definition clone (v : value) : M value :=
  match v with
  | VRef l =>
      let! s := get in
      match heap s !! l with
      | Some o => let! l' := alloc_heap o in ret (VRef l')
      | None => throw InvalidRef
      end
  | VFun _ => let! l' := alloc_heap (HObj []) in ret (VRef l')
  | _ => ret v
  end.

(** [_.clone(resultCache[id])].  Without an own entry the read finds
    [undefined], or, for a name of [Object.prototype], the built-in
    member, of which [_.clone] makes a new empty object. *)
Definition getOneResult (id : value) : M value :=
  run! checkId id in
  let! s := get in
  let key := toPropertyKey s id in
  run! warnWhenNotRegistered key in
  match resultCache s !! key with
  | Some result => clone result
  | None =>
      if inherited key then let! l := alloc_heap (HObj []) in ret (VRef l)
      else ret VUndefined
  end.

Definition getResults (groups : value) : M value :=
  run! checkGroups groups in
  let! s := get in
  let fieldIds := getIdsFromGroups s groups in
  let! result :=
    foldl (λ acc id,
             let! props := acc in
             let! r := getOneResult (VStr id) in
             ret (assoc_set id r props))
          (ret []) fieldIds in
  let! l := alloc_heap (HObj result) in
  ret (VRef l).

Definition clearOneResult (id : value) : M value :=
  run! checkId id in
  let! s := get in
  let key := toPropertyKey s id in
  run! warnWhenNotRegistered key in
  run! modify (set_resultCache <[key := VUndefined]>) in
  ret VUndefined.

Definition clearResults (groups : value) : M value :=
  run! checkGroups groups in
  let! s := get in
  let fieldIds := getIdsFromGroups s groups in
  run! forEach fieldIds (λ id, run! clearOneResult (VStr id) in ret tt) in
  ret VUndefined.

(** [printValidationInfoHelper(validationStorage)], as far as it can
    fail: it reads [validationChain.length] of every registered record,
    where [validationChain] defaults to [[]] for a record without one
    ([undefined]) but not for [null].  The JSON text it returns is not
    modelled. *)
Definition printValidationInfoHelper : M unit :=
  let! s := get in
  forEach (map_to_list (validationStorage s))
          (λ entry,
             match records s !! entry.2 with
             | None => throw InvalidRef
             | Some value =>
                 match validationChain value with
                 | VNull =>
                     throw (TypeError "Cannot read properties of null (reading 'length')")
                 | _ => ret tt
                 end
             end).

(** One console.info line; its text (a JSON summary of the storage) is
    not modelled. *)
Definition printInfo : M value :=
  run! emit EvInfo in ret VUndefined.

(** The text is built before the line is printed: where
    [printValidationInfoHelper] throws, nothing is printed. *)
Definition printValidationInfo : M value :=
  run! printValidationInfoHelper in printInfo.

Definition printGroupInfo : M value := printInfo.

Definition printAllInfo : M value :=
  run! printValidationInfoHelper in printInfo.

(** [groupToPrint], the object that [printGroupInfoHelper] turns into
    JSON: for each group the ids [_.filter(_.keys(idMap), id => idMap[id])]. *)
Definition printGroupInfoHelper (s : store) : list (string * list string) :=
  (λ entry, (entry.1, group_members entry.2)) <$> map_to_list (groupStroage s).

(** ** Sequences of calls

    One step of a caller: a call of an exported function, a call of a
    closure that an earlier [subscribe] returned, or code of the caller's
    own that changes heap objects. *)

Inductive op :=
| Register (field validationChain callback : value)
| Validate (groups callback : value)
| ValidateOne (id callback : value)
| Subscribe (id listener callback : value)
| CallUnsubscribe (c : closure)
| ClearListeners (id callback : value)
| UpdateGroups (id groups callback : value)
| AddGroup (id group callback : value)
| RemoveGroup (id group callback : value)
| Deregister (id callback : value)
| GetOneResult (id : value)
| GetResults (groups : value)
| ClearOneResult (id : value)
| ClearResults (groups : value)
| PrintValidationInfo
| PrintGroupInfo
| PrintAllInfo
| CallerCode (f : list hobj → list hobj).

Definition as_val (m : M value) : M returned :=
  let! v := m in ret (Val v).

Definition exec (o : op) : M returned :=
  match o with
  | Register field validationChain callback => as_val (register field validationChain callback)
  | Validate groups callback => as_val (validate groups callback)
  | ValidateOne id callback => as_val (validateOne id callback)
  | Subscribe id listener callback => subscribe id listener callback
  | CallUnsubscribe c => as_val (unsubscribe c)
  | ClearListeners id callback => as_val (clearListeners id callback)
  | UpdateGroups id groups callback => as_val (updateGroups id groups callback)
  | AddGroup id group callback => as_val (addGroup id group callback)
  | RemoveGroup id group callback => as_val (removeGroup id group callback)
  | Deregister id callback => as_val (deregister id callback)
  | GetOneResult id => as_val (getOneResult id)
  | GetResults groups => as_val (getResults groups)
  | ClearOneResult id => as_val (clearOneResult id)
  | ClearResults groups => as_val (clearResults groups)
  | PrintValidationInfo => as_val printValidationInfo
  | PrintGroupInfo => as_val printGroupInfo
  | PrintAllInfo => as_val printAllInfo
  | CallerCode f => run! modify (set_heap f) in ret (Val VUndefined)
  end.

(** The closure a step hands to the caller, if any. *)
Definition new_closures (r : res returned) : list closure :=
  match r with
  | Ok (Unsubscribe c) => [c]
  | _ => []
  end.

(** A caller can only call the closures it was given. *)
Definition issued (cs : list closure) (o : op) : Prop :=
  match o with
  | CallUnsubscribe c => c ∈ cs
  | _ => True
  end.

(** The stores reachable from an empty registry by steps that [allowed]
    admits, with the closures handed out on the way. *)
Inductive reachable_by (allowed : store → op → Prop) : store → list closure → Prop :=
| reachable_init h : reachable_by allowed (empty_store h) []
| reachable_step s cs o r s' t :
    reachable_by allowed s cs →
    allowed s o →
    issued cs o →
    exec o s = (r, s', t) →
    reachable_by allowed s' (new_closures r ++ cs).

Definition reachable : store → list closure → Prop :=
  reachable_by (λ _ _, True).

End Registry.

(** ** Vocabulary of the properties *)

(** The trace of the chain loop: for each validation function one call of
    the getter, returning the sample [v], then the call of the function on
    [{name, value: v}], returning [r]. *)
Fixpoint chain_events (getter displayName : value) (fs samples results : list value)
    : list event :=
  match fs, samples, results with
  | f :: fs', v :: samples', r :: results' =>
      EvCall Getter getter [] v
        :: EvCall Check f [VObj [("name", displayName); ("value", v)]] r
        :: chain_events getter displayName fs' samples' results'
  | _, _, _ => []
  end.

(** The trace of the listener loop: each listener applied to [arg]. *)
Fixpoint listener_events (ls : list value) (arg : value) (rets : list value) : list event :=
  match ls, rets with
  | l :: ls', r :: rets' => EvCall Listener l [arg] r :: listener_events ls' arg rets'
  | _, _ => []
  end.

Definition is_call (r : role) (e : event) : bool :=
  match e, r with
  | EvCall Getter _ _ _, Getter
  | EvCall Check _ _ _, Check
  | EvCall Listener _ _ _, Listener
  | EvCall Callback _ _ _, Callback => true
  | _, _ => false
  end.

(** How many calls in role [r] a trace holds. *)
Definition count_calls (r : role) (t : list event) : nat :=
  length (filter (λ e, is_call r e = true) t).

(** The listeners notified in a trace, each with the arguments it got. *)
Fixpoint listener_calls (t : list event) : list (value * list value) :=
  match t with
  | [] => []
  | EvCall Listener f args _ :: t' => (f, args) :: listener_calls t'
  | _ :: t' => listener_calls t'
  end.

(** The listener sequence of the field registered under [id]. *)
Definition field_listeners (s : store) (id : string) : option (list value) :=
  match validationStorage s !! id with
  | None => None
  | Some lv =>
      match records s !! lv with
      | None => None
      | Some r => Some (listener_array s (listeners r))
      end
  end.

Definition cached (s : store) (id : string) : value :=
  default VUndefined (resultCache s !! id).

Definition callback_ok (callback : value) : bool :=
  isNil callback || isFunction callback.

Definition groups_ok (h : list hobj) (groups : value) : bool :=
  isNil groups ||
  match as_array h groups with
  | Some xs => forallb isString xs
  | None => false
  end.

(** The argument shapes [register] accepts (section 4.1 of the spec). *)
Definition register_args_ok (h : list hobj) (field validationChain callback : value) : bool :=
  isObject field
  && isString (get_prop h field "id")
  && isFunction (get_prop h field "getter")
  && (isNil (get_prop h field "name") || isString (get_prop h field "name"))
  && groups_ok h (get_prop h field "groups")
  && (isNil validationChain || isArray h validationChain)
  && callback_ok callback.

(** A chain that [validateOne] can run to its end: absent, or an array
    literal of functions. *)
Definition chain_callable (chain : value) : bool :=
  match chain with
  | VUndefined | VNull => true
  | VArr fs => forallb isFunction fs
  | _ => false
  end.

(** The functions of such a chain, in order. *)
Definition chain_functions (chain : value) : list value :=
  match chain with
  | VArr fs => fs
  | _ => []
  end.



(** Group membership implies registration (data model, second invariant). *)
Definition members_registered (s : store) : Prop :=
  ∀ g m id, groupStroage s !! g = Some m → m !! id = Some true →
            is_Some (validationStorage s !! id).

(** [members_registered], and [key] is registered. *)
Definition registered_too (key : string) (s : store) : Prop :=
  members_registered s ∧ is_Some (validationStorage s !! key).

(** Steps that keep [members_registered]: a field is deregistered only
    when no group holds it, and [addGroup] and [updateGroups] are applied
    to registered ids. *)
Definition keeps_membership (object_key : store → value → string) (s : store) (o : op) : Prop :=
  match o with
  | Deregister id _ =>
      ∀ g m, groupStroage s !! g = Some m → m !! toPropertyKey object_key s id ≠ Some true
  | AddGroup id _ _ | UpdateGroups id _ _ =>
      is_Some (validationStorage s !! toPropertyKey object_key s id)
  | _ => True
  end.

(** [hoare P m Q]: from a store satisfying [P], the run of [m] ends,
    normally or by an exception, in a store satisfying [Q]. *)
Definition hoare {A} (P : store → Prop) (m : M A) (Q : store → Prop) : Prop :=
  ∀ s r s' t, P s → m s = (r, s', t) → Q s'.

(** A property of the store that only reads Field Storage and Group
    Storage. *)
Definition membership_only (I : store → Prop) : Prop :=
  ∀ s s', validationStorage s' = validationStorage s →
          groupStroage s' = groupStroage s → I s → I s'.

(** A property of the store that only reads Field Storage, the field
    records and the listener arrays. *)
Definition structure_only (I : store → Prop) : Prop :=
  ∀ s s', validationStorage s' = validationStorage s →
          records s' = records s → larrays s' = larrays s → I s → I s'.

(** Every registered id has its record, every record has a function as
    getter, and the listener arrays hold functions only. *)
Definition well_formed (s : store) : Prop :=
  (∀ id lv, validationStorage s !! id = Some lv → is_Some (records s !! lv))
  ∧ (∀ lv r, records s !! lv = Some r → isFunction (getter r) = true)
  ∧ (∀ la xs, larrays s !! la = Some xs → forallb isFunction xs = true).

(** The chain of every record can be run to its end. *)
Definition chains_callable (s : store) : Prop :=
  ∀ lv r, records s !! lv = Some r → chain_callable (validationChain r) = true.

(** [s'] has the registrations, groups, records and listener arrays of [s]. *)
Definition same_structure (s s' : store) : Prop :=
  validationStorage s' = validationStorage s
  ∧ groupStroage s' = groupStroage s
  ∧ records s' = records s
  ∧ larrays s' = larrays s.

(** [s'] has the registrations, result cache and records of [s] and no
    listener array of [s] is changed. *)
Definition same_fields (s s' : store) : Prop :=
  validationStorage s' = validationStorage s
  ∧ resultCache s' = resultCache s
  ∧ records s' = records s
  ∧ larrays s' = larrays s.

(** [id] is flagged [true] in the map of group [g]. *)
Definition flagged (s : store) (g id : string) : Prop :=
  ∃ m, groupStroage s !! g = Some m ∧ m !! id = Some true.

(** The flag of [id] in the map of group [g], if there is one. *)
Definition flag_of (s : store) (g id : string) : option bool :=
  match groupStroage s !! g with
  | Some m => m !! id
  | None => None
  end.

(** The listener array a record names is there. *)
Definition listeners_valid (s : store) (r : field_record) : Prop :=
  match listeners r with
  | Some la => is_Some (larrays s !! la)
  | None => True
  end.

(** Every reference in the result cache points into the heap. *)
Definition cache_in_heap (s : store) : Prop :=
  ∀ id l, resultCache s !! id = Some (VRef l) → is_Some (heap s !! l).

(** [v] is what [_.clone] makes of [c] when the heap [h] grows into [h']:
    for a reference a reference to an object that is new in [h'] and
    holds what [c] points to in [h], for a function a new empty object,
    and [c] itself otherwise. *)
Definition cloned (h h' : list hobj) (c v : value) : Prop :=
  match c with
  | VRef lc =>
      ∃ l' o, v = VRef l' ∧ (length h ≤ l')%nat ∧ h !! lc = Some o ∧ h' !! l' = Some o
  | VFun _ => ∃ l', v = VRef l' ∧ (length h ≤ l')%nat ∧ h' !! l' = Some (HObj [])
  | _ => v = c
  end.

(** No registered id names a member of [Object.prototype]. *)
Definition registered_ordinary (s : store) : Prop :=
  ∀ id lv, validationStorage s !! id = Some lv → inherited id = false.

(** [v] is what [_.clone(resultCache[id])] returns when the heap of [s]
    grows into [h']: the clone of the entry of [id]; without an entry
    [undefined], or, for a name of [Object.prototype], a new empty object
    (the clone of the built-in member that the read finds). *)
Definition cloned_entry (s : store) (h' : list hobj) (id : string) (v : value) : Prop :=
  match resultCache s !! id with
  | Some c => cloned (heap s) h' c v
  | None =>
      if inherited id
      then ∃ l', v = VRef l' ∧ (length (heap s) ≤ l')%nat ∧ h' !! l' = Some (HObj [])
      else v = VUndefined
  end.

(** [m] refuses its arguments in [s]: it throws a TypeError, having
    changed nothing and printed nothing. *)
Definition refuses {A} (m : M A) (s : store) : Prop :=
  ∃ msg, m s = (Throw (TypeError msg), s, []).

(** ** A concrete caller, for the worked scenarios *)

(** Function 0 is the getter [() => 17], function 1 the check
    [v => v.value >= 18], function 3 a check that returns a new object
    [{valid: false}]; every other function returns [undefined]. *)
Definition demo_user (n : fn) (args : list value) (s : store) : value * list hobj :=
  match n with
  | 0 => (VNum 17, heap s)
  | 1 =>
      match args with
      | [a] =>
          match get_prop (heap s) a "value" with
          | VNum x => (VBool (18 <=? x)%Z, heap s)
          | _ => (VBool false, heap s)
          end
      | _ => (VBool false, heap s)
      end
  | 3 => (VRef (length (heap s)), heap s ++ [HObj [("valid", VBool false)]])
  | _ => (VUndefined, heap s)
  end.

Definition demo_key (s : store) (v : value) : string := "[object Object]".

Definition age_field : value :=
  VObj [("id", VStr "age"); ("getter", VFun 0); ("groups", VArr [VStr "adult-checks"])].

(** The store and the result of a run. *)
Definition store_of {A} (x : res A * store * list event) : store := x.1.2.
Definition result_of {A} (x : res A * store * list event) : res A := x.1.1.
Definition trace_of {A} (x : res A * store * list event) : list event := x.2.

(** After [register(age_field, [v => v.value >= 18])]. *)
Definition demo_registered : store :=
  store_of (register demo_user demo_key age_field (VArr [VFun 1]) VUndefined (empty_store [])).

(** After [register({id: "score", getter}, [() => ({valid: false})])] and
    [validateOne("score")]. *)
Definition demo_validated : store :=
  store_of (validateOne demo_user demo_key (VStr "score") VUndefined
    (store_of (register demo_user demo_key
                 (VObj [("id", VStr "score"); ("getter", VFun 0)])
                 (VArr [VFun 3]) VUndefined (empty_store [])))).

(** Two listeners on "age": function 2, then function 4. *)
Definition demo_two_listeners : store :=
  store_of (subscribe demo_user demo_key (VStr "age") (VFun 4) VUndefined
    (store_of (subscribe demo_user demo_key (VStr "age") (VFun 2) VUndefined
       demo_registered))).

(** Function 2 subscribed twice to "age". *)
Definition demo_subscribed_twice : store :=
  store_of (subscribe demo_user demo_key (VStr "age") (VFun 2) VUndefined
    (store_of (subscribe demo_user demo_key (VStr "age") (VFun 2) VUndefined
       demo_registered))).

(** The closure that [subscribe("age", function 2)] returned. *)
Definition demo_closure : closure := Closure 0 0 (VFun 2).

(** [demo_two_listeners] after that closure was called once. *)
Definition demo_unsubscribed : store :=
  store_of (unsubscribe demo_closure demo_two_listeners).

(** The record of "age" once it has a listener array. *)
Definition age_record : field_record :=
  FieldRecord VUndefined (VArr [VFun 1]) (VFun 0) (Some 0).

(** After [register(age_field, ...)] and [deregister("age")]. *)
Definition demo_deregistered : store :=
  store_of (deregister demo_user demo_key (VStr "age") VUndefined demo_registered).

(** [demo_two_listeners] after [deregister("age")] and a second
    [register(age_field, ...)]: the new record is record 1. *)
Definition demo_reregistered : store :=
  store_of (register demo_user demo_key age_field (VArr [VFun 1]) VUndefined
    (store_of (deregister demo_user demo_key (VStr "age") VUndefined demo_two_listeners))).

(** "age" registered with a chain that holds a string after its function. *)
Definition demo_bad_chain : store :=
  store_of (register demo_user demo_key age_field (VArr [VFun 1; VStr "required"])
              VUndefined (empty_store [])).

(** "age" registered without a chain. *)
Definition demo_no_chain : store :=
  store_of (register demo_user demo_key age_field VUndefined VUndefined (empty_store [])).

(** "age" registered with [null] as chain. *)
Definition demo_null_chain : store :=
  store_of (register demo_user demo_key age_field VNull VUndefined (empty_store [])).

(** The field "age" with the display name "Age". *)
Definition named_field : value :=
  VObj [("id", VStr "age"); ("name", VStr "Age"); ("getter", VFun 0)].

(** After [register(named_field, [v => v.value >= 18])]. *)
Definition demo_named : store :=
  store_of (register demo_user demo_key named_field (VArr [VFun 1]) VUndefined
              (empty_store [])).


(** * Properties *)

Section Properties.

Variable user : fn → list value → store → value * list hobj.
Variable object_key : store → value → string.

(** ** Arrays: indexOf and splice *)

Lemma strict_equals_eq a b : strict_equals a b = true → a = b.
Proof.
  destruct a, b; simpl; try discriminate; try reflexivity.
  - intros H. apply Bool.eqb_prop in H. by subst.
  - intros H. apply Z.eqb_eq in H. by subst.
  - intros H. apply String.eqb_eq in H. by subst.
  - intros H. apply Nat.eqb_eq in H. by subst.
  - intros H. apply Nat.eqb_eq in H. by subst.
Qed.

Lemma indexOf_from_absent i x xs :
  Forall (λ y, strict_equals y x = false) xs → indexOf_from i x xs = (-1)%Z.
Proof.
  intros H. revert i. induction H as [|y ys Hy _ IH]; intros i; simpl; [done|].
  rewrite Hy. apply IH.
Qed.

Lemma indexOf_absent x xs : x ∉ xs → indexOf x xs = (-1)%Z.
Proof.
  intros Hx. apply indexOf_from_absent, Forall_forall. intros y Hy.
  destruct (strict_equals y x) eqn:E; [|done].
  apply strict_equals_eq in E. by subst.
Qed.

(** A found index splits the array around the first occurrence. *)
Lemma indexOf_from_found i x xs :
  (0 ≤ i)%Z → (0 ≤ indexOf_from i x xs)%Z →
  ∃ pre y post,
    xs = pre ++ y :: post ∧ strict_equals y x = true ∧
    Forall (λ z, strict_equals z x = false) pre ∧
    indexOf_from i x xs = (i + Z.of_nat (length pre))%Z.
Proof.
  revert i. induction xs as [|y ys IH]; intros i Hi; simpl; [lia|].
  destruct (strict_equals y x) eqn:E.
  - intros _. exists [], y, ys. simpl. repeat split; [done|constructor|lia].
  - intros H.
    destruct (IH (i + 1)%Z) as (pre & z & post & -> & Hz & Hpre & Hidx); [lia|done|].
    exists (y :: pre), z, post. simpl. repeat split; [done|by constructor|lia].
Qed.

Lemma splice_one_at {A} (pre : list A) y post :
  splice (Z.of_nat (length pre)) 1 (pre ++ y :: post) = pre ++ post.
Proof.
  unfold splice. rewrite length_app. simpl length.
  destruct (Z.ltb_spec (Z.of_nat (length pre)) 0); [lia|].
  match goal with
  | |- take ?a _ ++ drop ?b _ = _ =>
      replace a with (length pre) by lia; replace b with (length pre + 1) by lia
  end.
  rewrite take_app_length. f_equal.
  rewrite drop_app_add. reflexivity.
Qed.

Lemma splice_minus_one {A} (xs : list A) :
  xs ≠ [] → splice (-1) 1 xs = removelast xs.
Proof.
  intros Hxs. destruct (exists_last Hxs) as (ys & y & ->).
  rewrite removelast_last. unfold splice. rewrite length_app. simpl length.
  change (-1 <? 0)%Z with true. cbv iota.
  match goal with
  | |- take ?a _ ++ drop ?b _ = _ =>
      replace a with (length ys) by lia; replace b with (length ys + 1) by lia
  end.
  rewrite take_app_length.
  rewrite drop_app_add. simpl. by rewrite app_nil_r.
Qed.

(** ** Group resolution *)

Lemma elem_of_set_add x y xs : x ∈ set_add y xs ↔ x ∈ xs ∨ x = y.
Proof.
  unfold set_add. case_bool_decide as Hy.
  - split; [by left|]. intros [?| ->]; done.
  - rewrite elem_of_app, list_elem_of_singleton. done.
Qed.

Lemma NoDup_set_add y xs : NoDup xs → NoDup (set_add y xs).
Proof.
  intros H. unfold set_add. case_bool_decide as Hy; [done|].
  apply NoDup_app. split; [done|]. split; [|apply NoDup_singleton].
  intros x Hx ->%list_elem_of_singleton. done.
Qed.

Lemma elem_of_foldl_set_add x ys acc :
  x ∈ foldl (λ acc id, set_add id acc) acc ys ↔ x ∈ acc ∨ x ∈ ys.
Proof.
  revert acc. induction ys as [|y ys IH]; intros acc; simpl.
  - split; [by left|]. intros [?|H]; [done|]. by apply elem_of_nil in H.
  - rewrite IH, elem_of_set_add, elem_of_cons. tauto.
Qed.

Lemma NoDup_foldl_set_add ys acc :
  NoDup acc → NoDup (foldl (λ acc id, set_add id acc) acc ys).
Proof.
  revert acc. induction ys as [|y ys IH]; intros acc H; simpl; [done|].
  by apply IH, NoDup_set_add.
Qed.

Lemma elem_of_group_members (m : gmap string bool) id :
  id ∈ group_members m ↔ m !! id = Some true.
Proof.
  unfold group_members. rewrite list_elem_of_fmap. split.
  - intros ([k b] & -> & H). apply list_elem_of_filter in H as [Hb H].
    simpl in *. subst b. by apply elem_of_map_to_list in H.
  - intros H. exists (id, true). split; [done|].
    apply list_elem_of_filter. split; [done|]. by apply elem_of_map_to_list.
Qed.

Lemma elem_of_resolve_groups s id (elements : list value) acc :
  id ∈ foldl (λ fieldIdSet element,
               let group := default ∅ (groupStroage s !! toPropertyKey object_key s element) in
               foldl (λ acc id, set_add id acc) fieldIdSet (group_members group))
             acc elements
  ↔ id ∈ acc ∨
    ∃ element m, element ∈ elements ∧
      groupStroage s !! toPropertyKey object_key s element = Some m ∧ m !! id = Some true.
Proof.
  revert acc. induction elements as [|e es IH]; intros acc; simpl.
  - split; [by left|]. intros [?|(e & m & He & _)]; [done|]. by apply elem_of_nil in He.
  - rewrite IH, elem_of_foldl_set_add, elem_of_group_members. split.
    + intros [[?|Hm]|(e' & m & He' & Hg & Hm)].
      * by left.
      * right. destruct (groupStroage s !! toPropertyKey object_key s e) as [m|] eqn:Hg.
        -- exists e, m. split; [apply elem_of_cons; by left|done].
        -- simpl in Hm. by rewrite lookup_empty in Hm.
      * right. exists e', m. split; [apply elem_of_cons; by right|done].
    + intros [?|(e' & m & He' & Hg & Hm)]; [by left; left|].
      apply elem_of_cons in He' as [->|He'].
      * left. right. by rewrite Hg.
      * right. by exists e', m.
Qed.

Lemma NoDup_resolve_groups s (elements : list value) acc :
  NoDup acc →
  NoDup (foldl (λ fieldIdSet element,
                  let group := default ∅ (groupStroage s !! toPropertyKey object_key s element) in
                  foldl (λ acc id, set_add id acc) fieldIdSet (group_members group))
               acc elements).
Proof.
  revert acc. induction elements as [|e es IH]; intros acc H; simpl; [done|].
  by apply IH, NoDup_foldl_set_add.
Qed.

(** C3. Group resolution.  With [groups] absent ([undefined] or [null])
    the resolved ids are exactly the ids in Field Storage; with an array
    of group names they are exactly the ids flagged [true] in the map of
    one of the named groups, so that a name without a group in Group
    Storage contributes nothing.  Either way the result lists no id twice,
    and [getIdsFromGroups] is a total function: it raises no error. *)
Theorem getIdsFromGroups_resolves (s : store) (names : list string) (id : string) :
  (id ∈ getIdsFromGroups object_key s VUndefined ↔ is_Some (validationStorage s !! id))
  ∧ (id ∈ getIdsFromGroups object_key s VNull ↔ is_Some (validationStorage s !! id))
  ∧ (id ∈ getIdsFromGroups object_key s (VArr (VStr <$> names)) ↔
       ∃ g m, g ∈ names ∧ groupStroage s !! g = Some m ∧ m !! id = Some true)
  ∧ NoDup (getIdsFromGroups object_key s VUndefined)
  ∧ NoDup (getIdsFromGroups object_key s VNull)
  ∧ NoDup (getIdsFromGroups object_key s (VArr (VStr <$> names))).
Proof.
  assert (Hkeys : id ∈ (map_to_list (validationStorage s)).*1
                  ↔ is_Some (validationStorage s !! id)).
  { rewrite list_elem_of_fmap. split.
    - intros ([k l] & -> & H). apply elem_of_map_to_list in H. by exists l.
    - intros [l Hl]. exists (id, l). split; [done|]. by apply elem_of_map_to_list. }
  unfold getIdsFromGroups. simpl.
  repeat split; try apply Hkeys; try apply NoDup_fst_map_to_list.
  - intros H. apply elem_of_resolve_groups in H as [H|(e & m & He & Hg & Hm)].
    + by apply elem_of_nil in H.
    + apply list_elem_of_fmap in He as (g & -> & Hg'). by exists g, m.
  - intros (g & m & Hg' & Hg & Hm). apply elem_of_resolve_groups. right.
    exists (VStr g), m. split; [by apply list_elem_of_fmap_2|done].
  - apply NoDup_resolve_groups. constructor.
Qed.

(** ** Running the monad *)

Lemma bind_ok {A B} (m : M A) (k : A → M B) s a s1 t1 r s2 t2 :
  m s = (Ok a, s1, t1) → k a s1 = (r, s2, t2) → bind m k s = (r, s2, t1 ++ t2).
Proof. intros Hm Hk. unfold bind. by rewrite Hm, Hk. Qed.

Lemma run_cast {A} (x : res A * store * list event) r s t t' :
  x = (r, s, t') → t' = t → x = (r, s, t).
Proof. by intros -> ->. Qed.

Lemma warnWhenNotRegistered_known s id lv :
  validationStorage s !! id = Some lv → warnWhenNotRegistered id s = (Ok tt, s, []).
Proof. intros H. unfold warnWhenNotRegistered, bind, get. simpl. by rewrite H. Qed.

Lemma warnWhenNotRegistered_unknown s id :
  validationStorage s !! id = None →
  warnWhenNotRegistered id s = (Ok tt, s, [EvWarn (NotRegistered id)]).
Proof. intros H. unfold warnWhenNotRegistered, bind, get. simpl. by rewrite H. Qed.

Lemma set_heap_same s : set_heap (λ _, heap s) s = s.
Proof. by destruct s. Qed.

Lemma call_fun r n args s :
  call user r (VFun n) args s =
    (Ok (user n args s).1, set_heap (λ _, (user n args s).2) s,
     [EvCall r (VFun n) args (user n args s).1]).
Proof. unfold call. by destruct (user n args s). Qed.

Lemma isFunction_fun v : isFunction v = true → ∃ n, v = VFun n.
Proof. destruct v; try discriminate. eauto. Qed.

(** A callback that passes [checkCallback] runs to its end, changes the
    heap only and leaves at most one event, its own call. *)
Lemma invoke_callback_run callback s :
  callback_ok callback = true →
  ∃ h t, invoke_callback user callback s = (Ok tt, set_heap (λ _, h) s, t)
         ∧ count_calls Getter t = 0 ∧ count_calls Check t = 0
         ∧ listener_calls t = [].
Proof.
  unfold callback_ok, invoke_callback. intros H.
  destruct (isNil callback) eqn:Hnil.
  - exists (heap s), []. by rewrite set_heap_same.
  - simpl in H. apply isFunction_fun in H as [n ->].
    unfold bind. rewrite call_fun. simpl.
    eexists _, _. split; [reflexivity|]. done.
Qed.

Lemma each_chain_run fs displayName g :
  forallb isFunction fs = true →
  ∀ n i acc s, i + n = length fs →
    ∃ samples results h,
      length samples = n ∧ length results = n ∧
      each_chain user n i (VArr fs) displayName (VFun g) acc s =
        (Ok (acc ++ results), set_heap (λ _, h) s,
         chain_events (VFun g) displayName (drop i fs) samples results).
Proof.
  intros Hfs. induction n as [|n IH]; intros i acc s Hlen.
  - exists [], [], (heap s). rewrite app_nil_r, set_heap_same. simpl.
    by destruct (drop i fs).
  - destruct (lookup_lt_is_Some_2 fs i) as [f Hf]; [lia|].
    assert (Hfun : isFunction f = true).
    { rewrite forallb_forall in Hfs. apply Hfs, list_elem_of_In.
      by eapply list_elem_of_lookup_2. }
    apply isFunction_fun in Hfun as [k ->].
    rewrite (drop_S _ _ _ Hf).
    simpl. unfold bind at 1. simpl. unfold elem_at. simpl. rewrite Hf. simpl.
    unfold bind at 1. rewrite call_fun.
    set (v := (user g [] s).1). set (h1 := (user g [] s).2).
    unfold bind at 1. rewrite call_fun.
    set (a := [VObj [("name", displayName); ("value", v)]]).
    set (s1 := set_heap (λ _, h1) s).
    set (r := (user k a s1).1). set (h2 := (user k a s1).2).
    destruct (IH (S i) (acc ++ [r]) (set_heap (λ _, h2) s1)) as (vs & rs & h & Hvs & Hrs & Hrun);
      [lia|].
    exists (v :: vs), (r :: rs), h. simpl. rewrite Hvs, Hrs, Hrun.
    rewrite <- app_assoc. done.
Qed.

Lemma each_listener_run la arg xs :
  forallb isFunction xs = true →
  ∀ n i s, listener_array s la = xs → i + n = length xs →
    ∃ rets h,
      length rets = n ∧
      each_listener user n i la arg s =
        (Ok tt, set_heap (λ _, h) s, listener_events (drop i xs) arg rets).
Proof.
  intros Hxs. induction n as [|n IH]; intros i s Hla Hlen.
  - exists [], (heap s). rewrite set_heap_same. simpl. by destruct (drop i xs).
  - destruct (lookup_lt_is_Some_2 xs i) as [f Hf]; [lia|].
    assert (Hfun : isFunction f = true).
    { rewrite forallb_forall in Hxs. apply Hxs, list_elem_of_In.
      by eapply list_elem_of_lookup_2. }
    apply isFunction_fun in Hfun as [k ->].
    rewrite (drop_S _ _ _ Hf).
    simpl. unfold bind at 1. simpl. rewrite Hla, Hf. simpl.
    unfold bind at 1. rewrite call_fun.
    set (r := (user k [arg] s).1). set (h1 := (user k [arg] s).2).
    destruct (IH (S i) (set_heap (λ _, h1) s)) as (rs & h & Hrs & Hrun); [done|lia|].
    exists (r :: rs), h. simpl. rewrite Hrs, Hrun. done.
Qed.

Lemma checkCallback_ok callback :
  callback_ok callback = true → checkCallback callback = ret tt.
Proof.
  unfold callback_ok, checkCallback. destruct (isNil callback); [done|].
  simpl. by intros ->.
Qed.

Lemma chain_phase_run chain displayName g s :
  chain_callable chain = true →
  ∃ samples results h,
    length samples = length (chain_functions chain) ∧
    length results = length (chain_functions chain) ∧
    (if isNil chain then ret []
     else each_chain user (array_length (heap s) chain) 0 chain displayName (VFun g) []) s =
      (Ok results, set_heap (λ _, h) s,
       chain_events (VFun g) displayName (chain_functions chain) samples results).
Proof.
  intros Hc. destruct chain; try discriminate.
  - exists [], [], (heap s). by rewrite set_heap_same.
  - exists [], [], (heap s). by rewrite set_heap_same.
  - simpl in Hc.
    destruct (each_chain_run elems displayName g Hc (length elems) 0 [] s)
      as (vs & rs & h & Hvs & Hrs & Hrun); [done|].
    exists vs, rs, h. split; [done|]. split; [done|]. exact Hrun.
Qed.

(** What a run of [validateOne] on a registered field consists of: the
    chain loop, which only changes the heap (to [h1]); the new result
    array, stored in the cache; the listener loop, run from that store;
    the callback. *)
Lemma validateOne_run s id callback lv validation :
  validationStorage s !! id = Some lv →
  records s !! lv = Some validation →
  chain_callable (validationChain validation) = true →
  isFunction (getter validation) = true →
  forallb isFunction (listener_array s (listeners validation)) = true →
  callback_ok callback = true →
  ∃ samples results h1 rets h3 h4 tcb,
    let fs := chain_functions (validationChain validation) in
    let ls := listener_array s (listeners validation) in
    let lres := length h1 in
    let s2 := set_resultCache <[id := VRef lres]>
                (set_heap (λ _, h1 ++ [HArr results]) s) in
    length samples = length fs ∧ length results = length fs ∧ length rets = length ls
    ∧ each_listener user (length ls) 0 (listeners validation) (VRef lres) s2 =
        (Ok tt, set_heap (λ _, h3) s2, listener_events ls (VRef lres) rets)
    ∧ invoke_callback user callback (set_heap (λ _, h3) s2) =
        (Ok tt, set_heap (λ _, h4) s2, tcb)
    ∧ count_calls Getter tcb = 0 ∧ count_calls Check tcb = 0 ∧ listener_calls tcb = []
    ∧ validateOne user object_key (VStr id) callback s =
        (Ok (VRef lres), set_heap (λ _, h4) s2,
         chain_events (getter validation)
                      (getDisplayName (name validation) (VStr id)) fs samples results
           ++ listener_events ls (VRef lres) rets ++ tcb).
Proof.
  intros Hid Hrec Hchain Hget Hls Hcb.
  apply isFunction_fun in Hget as [g Hg].
  destruct (chain_phase_run (validationChain validation)
              (getDisplayName (name validation) (VStr id)) g s Hchain)
    as (vs & rs & h1 & Hvs & Hrs & Hrun).
  set (s2 := set_resultCache <[id := VRef (length h1)]>
               (set_heap (λ _, h1 ++ [HArr rs]) s)).
  destruct (each_listener_run (listeners validation) (VRef (length h1))
              (listener_array s (listeners validation)) Hls
              (length (listener_array s (listeners validation))) 0 s2)
    as (rets & h3 & Hrets & Hnotify); [done|done|].
  destruct (invoke_callback_run callback (set_heap (λ _, h3) s2) Hcb)
    as (h4 & tcb & Hcbrun & Hc1 & Hc2 & Hc3).
  exists vs, rs, h1, rets, h3, h4, tcb. cbv zeta.
  split; [done|]. split; [done|]. split; [done|].
  split; [exact Hnotify|]. split; [exact Hcbrun|].
  split; [done|]. split; [done|]. split; [done|].
  eapply run_cast.
  - unfold validateOne. rewrite (checkCallback_ok _ Hcb).
    eapply bind_ok; [reflexivity|]. eapply bind_ok; [reflexivity|].
    eapply bind_ok; [reflexivity|]. simpl toPropertyKey.
    eapply bind_ok; [by eapply warnWhenNotRegistered_known|].
    rewrite Hid, Hrec, Hg.
    eapply bind_ok; [exact Hrun|].
    eapply bind_ok; [reflexivity|]. eapply bind_ok; [reflexivity|].
    eapply bind_ok; [reflexivity|].
    eapply bind_ok; [exact Hnotify|].
    eapply bind_ok; [exact Hcbrun|]. reflexivity.
  - simpl. rewrite Hg, !app_nil_r. reflexivity.
Qed.


(** ** Counting the calls of a trace *)

Lemma count_calls_app r t1 t2 :
  count_calls r (t1 ++ t2) = count_calls r t1 + count_calls r t2.
Proof. unfold count_calls. by rewrite filter_app, length_app. Qed.

Lemma listener_calls_app t1 t2 :
  listener_calls (t1 ++ t2) = listener_calls t1 ++ listener_calls t2.
Proof.
  induction t1 as [|e t1 IH]; [done|].
  destruct e as [w| |r f args v]; simpl; [done|done|].
  destruct r; simpl; by rewrite ?IH.
Qed.

Lemma chain_events_calls g displayName fs samples results :
  length samples = length fs → length results = length fs →
  count_calls Getter (chain_events g displayName fs samples results) = length fs
  ∧ count_calls Check (chain_events g displayName fs samples results) = length fs
  ∧ listener_calls (chain_events g displayName fs samples results) = [].
Proof.
  revert samples results.
  induction fs as [|f fs IH]; intros [|v vs] [|r rs]; simpl; try done.
  intros Hvs Hrs. destruct (IH vs rs) as (H1 & H2 & H3); [lia|lia|].
  unfold count_calls in *. rewrite !filter_cons. simpl.
  repeat case_decide; try done. simpl. by rewrite H1, H2, H3.
Qed.

Lemma listener_events_calls ls arg rets :
  length rets = length ls →
  count_calls Getter (listener_events ls arg rets) = 0
  ∧ count_calls Check (listener_events ls arg rets) = 0
  ∧ listener_calls (listener_events ls arg rets) = (λ l, (l, [arg])) <$> ls.
Proof.
  revert rets. induction ls as [|l ls IH]; intros [|r rs]; simpl; try done.
  intros Hrs. destruct (IH rs) as (H1 & H2 & H3); [lia|].
  unfold count_calls in *. rewrite !filter_cons. simpl.
  repeat case_decide; try done. by rewrite H1, H2, H3.
Qed.

Lemma fst_listener_pairs (args : list value) (ls : list value) :
  ((λ l, (l, args)) <$> ls).*1 = ls.
Proof. induction ls as [|l ls IH]; csimpl; [done|]. by rewrite IH. Qed.

(** ** validateOne *)

(** C1. For a registered field whose validation chain is an array of N
    functions, [validateOne] calls the getter exactly N times, once before
    each validation function; the i-th function is applied to the object
    [{name: displayName, value: v}] where [v] is what the i-th getter call
    returned and [displayName] is the name the field was registered with,
    or its id when it was registered without a name; and the result array,
    as it is stored (in the store [s2] from which the listeners and the
    callback then run), holds the N results in chain order.  The
    hypotheses on the getter and on the listeners hold in every store the
    exported functions produce (lemma [reachable_field]). *)
Theorem validateOne_samples_getter_per_check
    (s : store) (id : string) (callback : value) (lv : loc)
    (validation : field_record) (fs : list value) :
  validationStorage s !! id = Some lv →
  records s !! lv = Some validation →
  validationChain validation = VArr fs →
  forallb isFunction fs = true →
  isFunction (getter validation) = true →
  forallb isFunction (listener_array s (listeners validation)) = true →
  callback_ok callback = true →
  ∃ samples results lres s2 s' rest,
    let displayName := if isNil (name validation) then VStr id else name validation in
    let t := chain_events (getter validation) displayName fs samples results ++ rest in
    validateOne user object_key (VStr id) callback s = (Ok (VRef lres), s', t)
    ∧ length samples = length fs
    ∧ length results = length fs
    ∧ count_calls Getter t = length fs
    ∧ count_calls Check t = length fs
    ∧ heap s2 !! lres = Some (HArr results)
    ∧ (run! each_listener user (length (listener_array s (listeners validation))) 0
              (listeners validation) (VRef lres)
       in invoke_callback user callback) s2 = (Ok tt, s', rest).
Proof.
  intros Hid Hrec Hchain Hfs Hget Hls Hcb.
  destruct (validateOne_run s id callback lv validation Hid Hrec)
    as (vs & rs & h1 & rets & h3 & h4 & tcb & Hvs & Hrs & Hrets & Hnotify & Hcbrun
        & Hc1 & Hc2 & Hc3 & Hrun); [by rewrite Hchain|done|done|done|].
  rewrite Hchain in Hvs, Hrs, Hrun. simpl in Hvs, Hrs, Hrun.
  unfold getDisplayName in Hrun.
  eexists vs, rs, (length h1),
    (set_resultCache <[id := VRef (length h1)]> (set_heap (λ _, h1 ++ [HArr rs]) s)), _, _.
  cbv zeta.
  split; [exact Hrun|]. split; [done|]. split; [done|].
  destruct (chain_events_calls (getter validation)
              (if isNil (name validation) then VStr id else name validation)
              fs vs rs Hvs Hrs)
    as (Hg1 & Hg2 & _).
  destruct (listener_events_calls (listener_array s (listeners validation))
              (VRef (length h1)) rets Hrets) as (Hl1 & Hl2 & _).
  rewrite !count_calls_app, Hg1, Hg2, Hl1, Hl2, Hc1, Hc2.
  split; [lia|]. split; [lia|]. split.
  - simpl. by rewrite list_lookup_middle.
  - eapply bind_ok; [exact Hnotify|exact Hcbrun].
Qed.


(** ** register *)

Lemma checkGroups_ok groups s :
  groups_ok (heap s) groups = true → checkGroups groups s = (Ok tt, s, []).
Proof.
  unfold groups_ok, checkGroups. destruct (isNil groups); [done|]. simpl.
  unfold bind, get. simpl. destruct (as_array (heap s) groups); [|done].
  by intros ->.
Qed.

Lemma checkValidationChain_ok chain s :
  isNil chain || isArray (heap s) chain = true →
  checkValidationChain chain s = (Ok tt, s, []).
Proof.
  unfold checkValidationChain. destruct (isNil chain); [done|]. simpl.
  unfold bind, get. simpl. by intros ->.
Qed.

Lemma forEach_join_group (K : value → string) id xs s :
  forEach xs (λ element, join_group id (K element)) s =
    (Ok tt,
     set_groupStroage (λ gs, foldl (λ gs element, mark_member id (K element) gs) gs xs) s,
     []).
Proof.
  revert s. induction xs as [|x xs IH]; intros s; simpl.
  - by destruct s.
  - unfold bind. unfold join_group at 1, modify at 1. by rewrite IH.
Qed.

Lemma mark_member_keeps id e gs g m :
  gs !! g = Some m → m !! id = Some true →
  ∃ m', mark_member id e gs !! g = Some m' ∧ m' !! id = Some true.
Proof.
  intros Hg Hm. unfold mark_member. destruct (decide (e = g)) as [->|Hne].
  - rewrite lookup_insert_eq, Hg. simpl. eexists. split; [done|].
    by rewrite lookup_insert_eq.
  - rewrite lookup_insert_ne; [|done]. eauto.
Qed.

Lemma mark_member_sets id e gs :
  ∃ m', mark_member id e gs !! e = Some m' ∧ m' !! id = Some true.
Proof.
  unfold mark_member. rewrite lookup_insert_eq. eexists. split; [done|].
  by rewrite lookup_insert_eq.
Qed.

Lemma foldl_mark_member_keeps (K : value → string) id xs gs g m :
  gs !! g = Some m → m !! id = Some true →
  ∃ m', foldl (λ gs element, mark_member id (K element) gs) gs xs !! g = Some m'
        ∧ m' !! id = Some true.
Proof.
  revert gs m. induction xs as [|x xs IH]; intros gs m Hg Hm; simpl; [eauto|].
  destruct (mark_member_keeps id (K x) gs g m Hg Hm) as (m1 & Hg1 & Hm1).
  by eapply IH.
Qed.

Lemma foldl_mark_member_sets (K : value → string) id xs gs x :
  x ∈ xs →
  ∃ m', foldl (λ gs element, mark_member id (K element) gs) gs xs !! K x = Some m'
        ∧ m' !! id = Some true.
Proof.
  revert gs. induction xs as [|y xs IH]; intros gs Hx; [by apply elem_of_nil in Hx|].
  simpl. apply elem_of_cons in Hx as [->|Hx]; [|by apply IH].
  destruct (mark_member_sets id (K y) gs) as (m1 & Hg1 & Hm1).
  by eapply foldl_mark_member_keeps.
Qed.

Lemma mark_groups_run (K : value → string) id groups xs s :
  (if isNil groups then ret tt
   else forEach xs (λ element, join_group id (K element))) s =
    (Ok tt,
     set_groupStroage
       (λ gs, if isNil groups then gs
              else foldl (λ gs element, mark_member id (K element) gs) gs xs) s,
     []).
Proof.
  destruct (isNil groups); [by destruct s|]. apply forEach_join_group.
Qed.


(** ** The closure returned by subscribe *)

Lemma indexOf_from_none i x xs :
  indexOf_from i x xs = (-1)%Z → (0 ≤ i)%Z →
  Forall (λ y, strict_equals y x = false) xs.
Proof.
  revert i. induction xs as [|y ys IH]; intros i H Hi; [constructor|].
  simpl in H. destruct (strict_equals y x) eqn:E; [lia|].
  constructor; [done|]. apply (IH (i + 1)%Z); [done|lia].
Qed.

Lemma alter_at_fixpoint {A} (f : A → A) (l : list A) i x :
  l !! i = Some x → f x = x → alter f i l = l.
Proof.
  revert i. induction l as [|y l IH]; intros [|i] Hi Hf; simpl in *; try done.
  - injection Hi as ->. by rewrite Hf.
  - f_equal. by apply IH.
Qed.

Lemma unsubscribe_run s c xs :
  larrays s !! c_listeners c = Some xs →
  unsubscribe c s =
    (Ok (VBool true),
     set_records (alter (set_listeners (c_listeners c)) (c_validation c))
       (set_larrays <[c_listeners c := splice (indexOf (c_listener c) xs) 1 xs]> s),
     []).
Proof.
  intros Hxs. unfold unsubscribe.
  eapply run_cast.
  - eapply bind_ok; [reflexivity|]. rewrite Hxs.
    eapply bind_ok; [reflexivity|]. eapply bind_ok; [reflexivity|]. reflexivity.
  - reflexivity.
Qed.

(** After the closure ran, the record it captured lists the array it
    captured, whatever the record listed before. *)
Lemma unsubscribe_field_listeners s id c validation xs :
  validationStorage s !! id = Some (c_validation c) →
  records s !! c_validation c = Some validation →
  larrays s !! c_listeners c = Some xs →
  field_listeners
    (set_records (alter (set_listeners (c_listeners c)) (c_validation c))
       (set_larrays <[c_listeners c := splice (indexOf (c_listener c) xs) 1 xs]> s)) id
  = Some (splice (indexOf (c_listener c) xs) 1 xs).
Proof.
  intros Hid Hrec Hxs. unfold field_listeners, set_records, set_larrays.
  cbn [validationStorage records larrays]. rewrite Hid.
  rewrite list_lookup_alter_eq, Hrec.
  cbn [fmap option_fmap option_map set_listeners listeners listener_array larrays].
  rewrite list_lookup_insert_eq; [done|]. by eapply lookup_lt_Some.
Qed.

(** C10. When the listener of an unsubscribe closure is no longer in the
    field's listener sequence ([indexOf] yields -1) and the sequence is not
    empty, calling the closure removes the last entry of the sequence:
    the sequence was [rest ++ [y]] and becomes [rest], where [y] is an
    entry other than the closure's listener. *)
Theorem unsubscribe_again_removes_last
    (s : store) (id : string) (c : closure) (validation : field_record)
    (xs : list value) :
  validationStorage s !! id = Some (c_validation c) →
  records s !! c_validation c = Some validation →
  listeners validation = Some (c_listeners c) →
  larrays s !! c_listeners c = Some xs →
  indexOf (c_listener c) xs = (-1)%Z →
  xs ≠ [] →
  ∃ s' rest y,
    field_listeners s id = Some xs
    ∧ xs = rest ++ [y]
    ∧ strict_equals y (c_listener c) = false
    ∧ unsubscribe c s = (Ok (VBool true), s', [])
    ∧ field_listeners s' id = Some rest.
Proof.
  intros Hid Hrec Hla Hxs Hidx Hne.
  destruct (exists_last Hne) as (rest & y & Hsplit).
  eexists _, rest, y. split.
  { unfold field_listeners. rewrite Hid, Hrec, Hla. simpl. by rewrite Hxs. }
  split; [done|]. split.
  { apply indexOf_from_none in Hidx; [|done]. rewrite Forall_forall in Hidx.
    apply Hidx. rewrite Hsplit. apply elem_of_app. right. by apply list_elem_of_singleton. }
  split; [by apply unsubscribe_run|].
  rewrite (unsubscribe_field_listeners s id c validation xs Hid Hrec Hxs).
  rewrite Hidx, (splice_minus_one xs Hne), Hsplit. by rewrite removelast_last.
Qed.

(** C9, as the code has it.  When the closure's listener array is the
    field's and holds the closure's listener, calling the closure removes
    the first occurrence of that listener and nothing else: the sequence
    [pre ++ l :: post], with [l] not in [pre], becomes [pre ++ post], and
    no other part of the store changes.  The next [validateOne] on the id
    then notifies exactly [pre ++ post], in order; the listener itself is
    no longer notified provided it had no second subscription (it does not
    occur in [post]). *)
Theorem unsubscribe_removes_first_occurrence
    (s : store) (id : string) (c : closure) (validation : field_record)
    (xs : list value) (callback : value) :
  validationStorage s !! id = Some (c_validation c) →
  records s !! c_validation c = Some validation →
  listeners validation = Some (c_listeners c) →
  larrays s !! c_listeners c = Some xs →
  (0 ≤ indexOf (c_listener c) xs)%Z →
  chain_callable (validationChain validation) = true →
  isFunction (getter validation) = true →
  forallb isFunction xs = true →
  callback_ok callback = true →
  ∃ pre post s',
    xs = pre ++ c_listener c :: post
    ∧ (c_listener c ∉ pre)
    ∧ unsubscribe c s = (Ok (VBool true), s', [])
    ∧ s' = set_larrays <[c_listeners c := pre ++ post]> s
    ∧ field_listeners s' id = Some (pre ++ post)
    ∧ (∃ lres s'' t,
         validateOne user object_key (VStr id) callback s' = (Ok (VRef lres), s'', t)
         ∧ listener_calls t = (λ l, (l, [VRef lres])) <$> (pre ++ post)
         ∧ (c_listener c ∉ post → c_listener c ∉ (listener_calls t).*1)).
Proof.
  intros Hid Hrec Hla Hxs Hidx Hchain Hget Hfun Hcb.
  destruct (indexOf_from_found 0 (c_listener c) xs) as (pre & y & post & Hsplit & Hy & Hpre & Hi);
    [done|done|].
  apply strict_equals_eq in Hy. subst y.
  assert (Hself : strict_equals (c_listener c) (c_listener c) = true).
  { assert (Hl : isFunction (c_listener c) = true).
    { rewrite forallb_forall in Hfun. apply Hfun, list_elem_of_In. rewrite Hsplit.
      apply elem_of_app. right. apply elem_of_cons. by left. }
    apply isFunction_fun in Hl as [n ->]. simpl. apply Nat.eqb_refl. }
  assert (Hnotpre : c_listener c ∉ pre).
  { intros Hin. rewrite Forall_forall in Hpre. specialize (Hpre _ Hin). congruence. }
  assert (Hsplice : splice (indexOf (c_listener c) xs) 1 xs = pre ++ post).
  { unfold indexOf. rewrite Hi, Hsplit. simpl. apply splice_one_at. }
  assert (Hstore :
    set_records (alter (set_listeners (c_listeners c)) (c_validation c))
      (set_larrays <[c_listeners c := splice (indexOf (c_listener c) xs) 1 xs]> s)
    = set_larrays <[c_listeners c := pre ++ post]> s).
  { rewrite Hsplice. unfold set_records. simpl.
    rewrite (alter_at_fixpoint _ _ _ _ Hrec); [done|].
    destruct validation. simpl in Hla. by subst. }
  exists pre, post, (set_larrays <[c_listeners c := pre ++ post]> s).
  split; [done|]. split; [done|].
  split; [by rewrite (unsubscribe_run s c xs Hxs), Hstore|].
  split; [done|].
  assert (Hfl : listener_array (set_larrays <[c_listeners c := pre ++ post]> s)
                  (listeners validation) = pre ++ post).
  { rewrite Hla. simpl. rewrite list_lookup_insert_eq; [done|]. by eapply lookup_lt_Some. }
  split.
  { unfold field_listeners. simpl. rewrite Hid, Hrec. by rewrite Hfl. }
  destruct (validateOne_run (set_larrays <[c_listeners c := pre ++ post]> s)
              id callback (c_validation c) validation)
    as (vs & rs & h1 & rets & h3 & h4 & tcb & Hvs & Hrs & Hrets & _ & _
        & _ & _ & Hc3 & Hrun); [done|done|done|done| |done|].
  { rewrite Hfl. rewrite Hsplit in Hfun. rewrite forallb_app in Hfun |- *.
    apply andb_prop in Hfun as [-> Hpost]. simpl in Hpost.
    apply andb_prop in Hpost as [_ ->]. done. }
  rewrite Hfl in Hrets, Hrun.
  destruct (chain_events_calls (getter validation)
              (getDisplayName (name validation) (VStr id))
              (chain_functions (validationChain validation)) vs rs Hvs Hrs)
    as (_ & _ & Hg3).
  destruct (listener_events_calls (pre ++ post) (VRef (length h1)) rets Hrets)
    as (_ & _ & Hl3).
  eexists _, _, _. split; [exact Hrun|].
  rewrite !listener_calls_app, Hg3, Hl3, Hc3, app_nil_r. simpl.
  split; [done|]. intros Hpost.
  rewrite fst_listener_pairs. intros [?|?]%elem_of_app; done.
Qed.

(** ** Invariants of the store

    [hoare I m I] is proved once for every function that leaves alone
    the parts of the store [I] reads; the hypotheses of section [Stable]
    say which parts those are. *)

Lemma hoare_bind {A B} (P R Q : store → Prop) (m : M A) (k : A → M B) :
  hoare P m R → (∀ s, R s → Q s) → (∀ a, hoare R (k a) Q) → hoare P (bind m k) Q.
Proof.
  intros Hm HRQ Hk s r s' t HP. unfold bind.
  destruct (m s) as [[[a|e] s1] t1] eqn:Em.
  - destruct (k a s1) as [[r2 s2] t2] eqn:Ek. intros [= <- <- <-].
    eapply Hk; [|exact Ek]. eapply Hm; [exact HP|exact Em].
  - intros [= <- <- <-]. apply HRQ. eapply Hm; [exact HP|exact Em].
Qed.

(** The same with an intermediate assertion that reads the value [m]
    returned. *)
Lemma hoare_bind_result {A B} (P Q : store → Prop) (R : A → store → Prop)
    (m : M A) (k : A → M B) :
  (∀ s r s' t, P s → m s = (r, s', t) →
     match r with Ok a => R a s' | Throw _ => Q s' end) →
  (∀ a, hoare (R a) (k a) Q) → hoare P (bind m k) Q.
Proof.
  intros Hm Hk s r s' t HP. unfold bind.
  destruct (m s) as [[[a|e] s1] t1] eqn:Em.
  - destruct (k a s1) as [[r2 s2] t2] eqn:Ek. intros [= <- <- <-].
    eapply Hk; [|exact Ek]. exact (Hm s (Ok a) s1 t1 HP Em).
  - intros [= <- <- <-]. exact (Hm s (Throw e) s1 t1 HP Em).
Qed.

Lemma keeps_bind {A B} (I : store → Prop) (m : M A) (k : A → M B) :
  hoare I m I → (∀ a, hoare I (k a) I) → hoare I (bind m k) I.
Proof. intros Hm Hk. by apply (hoare_bind I I I). Qed.

Lemma hoare_weaken {A} (P P' Q Q' : store → Prop) (m : M A) :
  (∀ s, P' s → P s) → (∀ s, Q s → Q' s) → hoare P m Q → hoare P' m Q'.
Proof. intros HP HQ Hm s r s' t HP' E. apply HQ. eapply Hm; [by apply HP|exact E]. Qed.

(** After [get], the continuation starts from the store it was given. *)
Lemma hoare_bind_get {B} (P Q : store → Prop) (k : store → M B) :
  (∀ s0, P s0 → hoare (λ s, s = s0) (k s0) Q) → hoare P (bind get k) Q.
Proof.
  intros Hk s r s' t HP. unfold bind, get.
  destruct (k s s) as [[r2 s2] t2] eqn:Ek. intros [= <- <- <-].
  eapply (Hk s HP); [reflexivity|exact Ek].
Qed.

Lemma hoare_ret {A} (I : store → Prop) (a : A) : hoare I (ret a) I.
Proof. by intros s r s' t HI [= <- <- <-]. Qed.

Lemma hoare_throw {A} (I : store → Prop) e : hoare I (@throw A e) I.
Proof. by intros s r s' t HI [= <- <- <-]. Qed.

Lemma hoare_throw_bind {A B} (I : store → Prop) e (k : A → M B) :
  hoare I (bind (throw e) k) I.
Proof. by intros s r s' t HI [= <- <- <-]. Qed.

Lemma hoare_get (I : store → Prop) : hoare I get I.
Proof. by intros s r s' t HI [= <- <- <-]. Qed.

Lemma hoare_emit (I : store → Prop) e : hoare I (emit e) I.
Proof. by intros s r s' t HI [= <- <- <-]. Qed.

Lemma hoare_modify (P Q : store → Prop) f :
  (∀ s, P s → Q (f s)) → hoare P (modify f) Q.
Proof. intros Hf s r s' t HP [= <- <- <-]. by apply Hf. Qed.

Lemma keeps_forEach {A} (I : store → Prop) (xs : list A) body :
  (∀ x, hoare I (body x) I) → hoare I (forEach xs body) I.
Proof.
  intros Hbody. induction xs as [|x xs IH]; simpl; [apply hoare_ret|].
  apply keeps_bind; [apply Hbody|by intros _].
Qed.

Lemma keeps_foldl {A B} (I : store → Prop) (f : M A → B → M A) (xs : list B) (init : M A) :
  hoare I init I → (∀ acc x, hoare I acc I → hoare I (f acc x) I) →
  hoare I (foldl f init xs) I.
Proof.
  intros Hinit Hf. revert init Hinit.
  induction xs as [|x xs IH]; intros init Hinit; simpl; [done|].
  apply IH. by apply Hf.
Qed.

Lemma keeps_as_val (P Q : store → Prop) (m : M value) :
  hoare P m Q → hoare P (as_val m) Q.
Proof.
  intros Hm s r s' t HP. unfold as_val, bind.
  destruct (m s) as [[[v|e] s1] t1] eqn:Em; intros [= <- <- <-]; by eapply Hm.
Qed.

Section Stable.

Variable I : store → Prop.
Hypothesis I_heap : ∀ f s, I s → I (set_heap f s).
Hypothesis I_cache : ∀ f s, I s → I (set_resultCache f s).
Hypothesis I_records : ∀ f s, I s → I (set_records f s).
Hypothesis I_larrays : ∀ f s, I s → I (set_larrays f s).
Hypothesis I_groups : ∀ f s, I s → I (set_groupStroage f s).

Lemma keeps_set_heap f : hoare I (modify (set_heap f)) I.
Proof. apply hoare_modify. intros s. apply I_heap. Qed.

Lemma keeps_set_resultCache f : hoare I (modify (set_resultCache f)) I.
Proof. apply hoare_modify. intros s. apply I_cache. Qed.

Lemma keeps_set_records f : hoare I (modify (set_records f)) I.
Proof. apply hoare_modify. intros s. apply I_records. Qed.

Lemma keeps_set_larrays f : hoare I (modify (set_larrays f)) I.
Proof. apply hoare_modify. intros s. apply I_larrays. Qed.

Lemma keeps_set_groupStroage f : hoare I (modify (set_groupStroage f)) I.
Proof. apply hoare_modify. intros s. apply I_groups. Qed.

Lemma keeps_alloc_heap o : hoare I (alloc_heap o) I.
Proof. intros s r s' t HI [= <- <- <-]. by apply I_heap. Qed.

Lemma keeps_alloc_larray xs : hoare I (alloc_larray xs) I.
Proof. intros s r s' t HI [= <- <- <-]. by apply I_larrays. Qed.

Lemma keeps_alloc_record x : hoare I (alloc_record x) I.
Proof. intros s r s' t HI [= <- <- <-]. by apply I_records. Qed.

Lemma keeps_call r f args : hoare I (call user r f args) I.
Proof.
  intros s res s' t HI. unfold call. destruct f; try by intros [= <- <- <-].
  destruct (user f args s) as [v h]. intros [= <- <- <-]. by apply I_heap.
Qed.

Ltac keeps :=
  repeat first
    [ apply keeps_bind; [|intros ?]
    | apply hoare_ret | apply hoare_throw | apply hoare_get | apply hoare_emit
    | apply keeps_set_heap | apply keeps_set_resultCache
    | apply keeps_set_records | apply keeps_set_larrays
    | apply keeps_set_groupStroage
    | apply keeps_alloc_heap | apply keeps_alloc_larray
    | apply keeps_call
    | match goal with
      | |- hoare _ (match ?x with _ => _ end) _ => destruct x
      end ].

Lemma keeps_invoke_callback callback : hoare I (invoke_callback user callback) I.
Proof. unfold invoke_callback. keeps. Qed.

Lemma keeps_checkFieldType field : hoare I (checkFieldType field) I.
Proof. unfold checkFieldType. keeps. Qed.

Lemma keeps_checkId id : hoare I (checkId id) I.
Proof. unfold checkId. keeps. Qed.

Lemma keeps_checkGetter g : hoare I (checkGetter g) I.
Proof. unfold checkGetter. keeps. Qed.

Lemma keeps_checkName n : hoare I (checkName n) I.
Proof. unfold checkName. keeps. Qed.

Lemma keeps_checkCallback callback : hoare I (checkCallback callback) I.
Proof. unfold checkCallback. keeps. Qed.

Lemma keeps_checkListener listener : hoare I (checkListener listener) I.
Proof. unfold checkListener. keeps. Qed.

Lemma keeps_checkGroups groups : hoare I (checkGroups groups) I.
Proof. unfold checkGroups. keeps. Qed.

Lemma keeps_checkValidationChain chain : hoare I (checkValidationChain chain) I.
Proof. unfold checkValidationChain. keeps. Qed.

Lemma keeps_warnWhenNotRegistered id : hoare I (warnWhenNotRegistered id) I.
Proof. unfold warnWhenNotRegistered. keeps. Qed.

Lemma keeps_warnWhenIdNotInGroup id g : hoare I (warnWhenIdNotInGroup id g) I.
Proof. unfold warnWhenIdNotInGroup. keeps. Qed.

Lemma keeps_warnWhenIdHaveRegister id : hoare I (warnWhenIdHaveRegister id) I.
Proof. unfold warnWhenIdHaveRegister. keeps. Qed.

Lemma keeps_each_chain n i chain displayName g acc :
  hoare I (each_chain user n i chain displayName g acc) I.
Proof. revert i acc. induction n as [|n IH]; intros i acc; simpl; keeps. apply IH. Qed.

Lemma keeps_each_listener n i la arg : hoare I (each_listener user n i la arg) I.
Proof. revert i. induction n as [|n IH]; intros i; simpl; keeps. apply IH. Qed.

Lemma keeps_validateOne id callback : hoare I (validateOne user object_key id callback) I.
Proof.
  unfold validateOne. apply keeps_bind; [apply keeps_checkId|intros _].
  apply keeps_bind; [apply keeps_checkCallback|intros _].
  apply keeps_bind; [apply hoare_get|intros s].
  apply keeps_bind; [apply keeps_warnWhenNotRegistered|intros _].
  destruct (validationStorage s !! _); [|apply hoare_ret].
  destruct (records s !! _); [|apply hoare_throw].
  apply keeps_bind.
  { destruct (isNil _); [apply hoare_ret|apply keeps_each_chain]. }
  intros results. keeps; [apply keeps_each_listener|apply keeps_invoke_callback].
Qed.

Lemma keeps_validate groups callback :
  hoare I (validate user object_key groups callback) I.
Proof.
  unfold validate. apply keeps_bind; [apply keeps_checkGroups|intros _].
  apply keeps_bind; [apply keeps_checkCallback|intros _].
  apply keeps_bind; [apply hoare_get|intros s].
  apply keeps_bind.
  { apply keeps_foldl; [apply hoare_ret|].
    intros acc x Hacc. apply keeps_bind; [done|intros props].
    apply keeps_bind; [apply keeps_validateOne|intros ?]. apply hoare_ret. }
  intros result. apply keeps_bind; [apply keeps_invoke_callback|intros _]. keeps.
Qed.

Lemma keeps_subscribe id listener callback :
  hoare I (subscribe user object_key id listener callback) I.
Proof.
  unfold subscribe. apply keeps_bind; [apply keeps_checkListener|intros _].
  apply keeps_bind; [apply keeps_checkCallback|intros _].
  destruct (isNil listener); [apply hoare_ret|].
  apply keeps_bind; [apply hoare_get|intros s].
  apply keeps_bind; [apply keeps_warnWhenNotRegistered|intros _].
  destruct (validationStorage s !! _); [|apply hoare_throw].
  destruct (records s !! _); [|apply hoare_throw].
  apply keeps_bind; [destruct (listeners _); keeps|intros la].
  keeps. apply keeps_invoke_callback.
Qed.

Lemma keeps_unsubscribe c : hoare I (unsubscribe c) I.
Proof. unfold unsubscribe. keeps. Qed.

Lemma keeps_clearListeners id callback :
  hoare I (clearListeners user object_key id callback) I.
Proof.
  unfold clearListeners. apply keeps_bind; [apply keeps_checkId|intros _].
  apply keeps_bind; [apply keeps_checkCallback|intros _].
  apply keeps_bind; [apply hoare_get|intros s].
  apply keeps_bind; [apply keeps_warnWhenNotRegistered|intros _].
  destruct (validationStorage s !! _); [|apply hoare_ret].
  keeps. apply keeps_invoke_callback.
Qed.

Lemma keeps_join_group_any id g : hoare I (join_group id g) I.
Proof. unfold join_group. keeps. Qed.

Lemma keeps_updateGroups_any id groups callback :
  hoare I (updateGroups user object_key id groups callback) I.
Proof.
  unfold updateGroups. apply keeps_bind; [apply keeps_checkGroups|intros _].
  apply keeps_bind; [apply keeps_checkCallback|intros _].
  apply keeps_bind; [apply hoare_get|intros s].
  apply keeps_bind; [apply keeps_warnWhenNotRegistered|intros _].
  apply keeps_bind; [apply keeps_set_groupStroage|intros _].
  destruct (as_array _ _); [|apply hoare_throw].
  apply keeps_bind; [apply keeps_forEach; intros x; apply keeps_join_group_any|intros _].
  apply keeps_bind; [apply keeps_invoke_callback|intros _]. apply hoare_ret.
Qed.

Lemma keeps_addGroup_any id group callback :
  hoare I (addGroup user object_key id group callback) I.
Proof.
  unfold addGroup. apply keeps_bind; [apply keeps_checkGroups|intros _].
  apply keeps_bind; [apply keeps_checkCallback|intros _].
  apply keeps_bind; [apply hoare_get|intros s].
  apply keeps_bind; [apply keeps_warnWhenNotRegistered|intros _].
  apply keeps_bind; [apply keeps_join_group_any|intros _].
  apply keeps_bind; [apply keeps_invoke_callback|intros _]. apply hoare_ret.
Qed.

Lemma keeps_removeGroup_any id group callback :
  hoare I (removeGroup user object_key id group callback) I.
Proof.
  unfold removeGroup. apply keeps_bind; [apply keeps_checkGroups|intros _].
  apply keeps_bind; [apply keeps_checkCallback|intros _].
  apply keeps_bind; [apply hoare_get|intros s].
  apply keeps_bind; [apply keeps_warnWhenNotRegistered|intros _].
  destruct (validationStorage s !! _); [|apply hoare_ret].
  apply keeps_bind; [apply keeps_warnWhenIdNotInGroup|intros _].
  destruct (groupStroage s !! _); [|apply hoare_ret].
  apply keeps_bind; [apply keeps_set_groupStroage|intros _].
  apply keeps_bind; [apply keeps_invoke_callback|intros _]. apply hoare_ret.
Qed.

Lemma keeps_clone v : hoare I (clone v) I.
Proof. unfold clone. keeps. Qed.

Lemma keeps_getOneResult id : hoare I (getOneResult object_key id) I.
Proof.
  unfold getOneResult. apply keeps_bind; [apply keeps_checkId|intros _].
  apply keeps_bind; [apply hoare_get|intros s].
  apply keeps_bind; [apply keeps_warnWhenNotRegistered|intros _].
  destruct (resultCache s !! _); [apply keeps_clone|].
  destruct (inherited _); [|apply hoare_ret].
  apply keeps_bind; [apply keeps_alloc_heap|intros l; apply hoare_ret].
Qed.

Lemma keeps_getResults groups : hoare I (getResults object_key groups) I.
Proof.
  unfold getResults. apply keeps_bind; [apply keeps_checkGroups|intros _].
  apply keeps_bind; [apply hoare_get|intros s].
  apply keeps_bind.
  { apply keeps_foldl; [apply hoare_ret|].
    intros acc x Hacc. apply keeps_bind; [done|intros props].
    apply keeps_bind; [apply keeps_getOneResult|intros ?]. apply hoare_ret. }
  intros result. keeps.
Qed.

Lemma keeps_clearOneResult id : hoare I (clearOneResult object_key id) I.
Proof.
  unfold clearOneResult. apply keeps_bind; [apply keeps_checkId|intros _].
  apply keeps_bind; [apply hoare_get|intros s].
  apply keeps_bind; [apply keeps_warnWhenNotRegistered|intros _]. keeps.
Qed.

Lemma keeps_clearResults groups : hoare I (clearResults object_key groups) I.
Proof.
  unfold clearResults. apply keeps_bind; [apply keeps_checkGroups|intros _].
  apply keeps_bind; [apply hoare_get|intros s].
  apply keeps_bind; [|intros _; apply hoare_ret].
  apply keeps_forEach. intros x.
  apply keeps_bind; [apply keeps_clearOneResult|intros _; apply hoare_ret].
Qed.

Lemma keeps_printInfo : hoare I printInfo I.
Proof. unfold printInfo. keeps. Qed.

Lemma keeps_printValidationInfoHelper : hoare I printValidationInfoHelper I.
Proof.
  unfold printValidationInfoHelper. apply keeps_bind; [apply hoare_get|intros s].
  apply keeps_forEach. intros entry.
  destruct (records s !! entry.2) as [value|]; [|apply hoare_throw].
  destruct (validationChain value); first [apply hoare_ret|apply hoare_throw].
Qed.

Lemma keeps_printValidationInfo : hoare I printValidationInfo I.
Proof.
  unfold printValidationInfo.
  apply keeps_bind; [apply keeps_printValidationInfoHelper|intros _; apply keeps_printInfo].
Qed.

Lemma keeps_printAllInfo : hoare I printAllInfo I.
Proof.
  unfold printAllInfo.
  apply keeps_bind; [apply keeps_printValidationInfoHelper|intros _; apply keeps_printInfo].
Qed.

End Stable.

(** ** Group membership implies registration *)

Lemma membership_only_heap I : membership_only I → ∀ f s, I s → I (set_heap f s).
Proof. intros HI f s. by apply HI. Qed.

Lemma membership_only_cache I : membership_only I → ∀ f s, I s → I (set_resultCache f s).
Proof. intros HI f s. by apply HI. Qed.

Lemma membership_only_records I : membership_only I → ∀ f s, I s → I (set_records f s).
Proof. intros HI f s. by apply HI. Qed.

Lemma membership_only_larrays I : membership_only I → ∀ f s, I s → I (set_larrays f s).
Proof. intros HI f s. by apply HI. Qed.

Lemma members_registered_membership : membership_only members_registered.
Proof.
  intros s s' Hvs Hgs HI g m id. rewrite Hvs, Hgs. apply HI.
Qed.

Lemma registered_too_membership key : membership_only (registered_too key).
Proof.
  intros s s' Hvs Hgs [HI Hk]. split.
  - by eapply members_registered_membership.
  - by rewrite Hvs.
Qed.

Ltac stable :=
  first
    [ exact (membership_only_heap _ members_registered_membership)
    | exact (membership_only_cache _ members_registered_membership)
    | exact (membership_only_records _ members_registered_membership)
    | exact (membership_only_larrays _ members_registered_membership)
    | exact (membership_only_heap _ (registered_too_membership _))
    | exact (membership_only_cache _ (registered_too_membership _))
    | exact (membership_only_records _ (registered_too_membership _))
    | exact (membership_only_larrays _ (registered_too_membership _)) ].

Lemma keeps_join_group key g :
  hoare (registered_too key) (join_group key g) (registered_too key).
Proof.
  apply hoare_modify. intros s [HI Hk]. split; [|done].
  intros g' m id. simpl. unfold mark_member.
  destruct (decide (g = g')) as [<-|Hne].
  - rewrite lookup_insert_eq. intros [= <-].
    destruct (decide (key = id)) as [<-|Hid]; [done|].
    rewrite lookup_insert_ne; [|done].
    destruct (groupStroage s !! g) as [m0|] eqn:Hg; simpl.
    + intros Hm. by eapply HI.
    + by rewrite lookup_empty.
  - rewrite lookup_insert_ne; [|done]. by apply HI.
Qed.

Lemma keeps_register field validationChain callback :
  hoare members_registered (register user object_key field validationChain callback)
        members_registered.
Proof.
  unfold register.
  apply keeps_bind; [apply keeps_checkFieldType|intros _].
  apply keeps_bind; [apply hoare_get|intros s0].
  apply keeps_bind; [apply keeps_checkId|intros _].
  apply keeps_bind; [apply keeps_checkGetter|intros _].
  apply keeps_bind; [apply keeps_checkName|intros _].
  apply keeps_bind; [apply keeps_checkGroups|intros _].
  apply keeps_bind; [apply keeps_checkValidationChain|intros _].
  apply keeps_bind; [apply keeps_checkCallback|intros _].
  apply keeps_bind; [apply keeps_warnWhenIdHaveRegister|intros _].
  apply keeps_bind; [apply hoare_get|intros s].
  destruct (validationStorage s !! _); [apply hoare_ret|].
  destruct (inherited _); [apply hoare_ret|].
  apply keeps_bind; [apply keeps_alloc_record; stable|intros lv].
  set (key := toPropertyKey object_key s0 (get_prop (heap s0) field "id")).
  apply (hoare_bind _ (registered_too key)).
  { apply hoare_modify. intros s1 HI. split.
    - intros g m id Hg Hm. simpl. destruct (decide (key = id)) as [<-|Hne].
      + by rewrite lookup_insert_eq.
      + rewrite lookup_insert_ne; [|done]. by eapply HI.
    - simpl. by rewrite lookup_insert_eq. }
  { by intros s1 [HI _]. }
  intros _.
  apply (hoare_weaken (registered_too key) _ (registered_too key) _); [done|by intros ? [? _]|].
  apply keeps_bind.
  { destruct (isNil _); [apply hoare_ret|]. apply keeps_forEach. intros x.
    apply keeps_join_group. }
  intros _.
  apply keeps_bind; [apply keeps_invoke_callback; stable|intros _].
  apply hoare_ret.
Qed.

Lemma keeps_unflag key :
  ∀ s, members_registered s →
       members_registered (set_groupStroage (fmap <[key := false]>) s).
Proof.
  intros s HI g m id. simpl. rewrite lookup_fmap.
  destruct (groupStroage s !! g) as [m0|] eqn:Hg; simpl; [|done].
  intros [= <-]. destruct (decide (key = id)) as [<-|Hne].
  - by rewrite lookup_insert_eq.
  - rewrite lookup_insert_ne; [|done]. intros Hm. by eapply HI.
Qed.

Lemma keeps_unflag_one key g :
  ∀ s, members_registered s →
       members_registered (set_groupStroage (alter <[key := false]> g) s).
Proof.
  intros s HI g' m id. simpl. destruct (decide (g = g')) as [<-|Hg].
  - rewrite lookup_alter_eq.
    destruct (groupStroage s !! g) as [m0|] eqn:Hg; simpl; [|done].
    intros [= <-]. destruct (decide (key = id)) as [<-|Hne].
    + by rewrite lookup_insert_eq.
    + rewrite lookup_insert_ne; [|done]. intros Hm. by eapply HI.
  - rewrite lookup_alter_ne; [|done]. by apply HI.
Qed.

Lemma keeps_updateGroups id groups callback :
  hoare (λ s, members_registered s
              ∧ is_Some (validationStorage s !! toPropertyKey object_key s id))
        (updateGroups user object_key id groups callback)
        members_registered.
Proof.
  unfold updateGroups.
  apply (hoare_bind _ _ _ _ _ (keeps_checkGroups _ groups)); [by intros ? [? _]|intros _].
  apply (hoare_bind _ _ _ _ _ (keeps_checkCallback _ callback)); [by intros ? [? _]|intros _].
  apply hoare_bind_get. intros s0 [HI Hkey].
  set (key := toPropertyKey object_key s0 id) in *.
  apply (hoare_bind _ _ _ _ _ (keeps_warnWhenNotRegistered _ key)); [by intros ? ->|intros _].
  apply (hoare_bind _ (registered_too key)).
  { apply hoare_modify. intros s ->. split; [by apply keeps_unflag|done]. }
  { by intros s [? _]. }
  intros _. apply (hoare_weaken (registered_too key) _ (registered_too key) _);
    [done|by intros ? [? _]|].
  destruct (as_array (heap s0) groups); [|apply hoare_throw].
  apply keeps_bind; [apply keeps_forEach; intros x; apply keeps_join_group|intros _].
  apply keeps_bind; [apply keeps_invoke_callback; stable|intros _].
  apply hoare_ret.
Qed.

Lemma keeps_addGroup id group callback :
  hoare (λ s, members_registered s
              ∧ is_Some (validationStorage s !! toPropertyKey object_key s id))
        (addGroup user object_key id group callback)
        members_registered.
Proof.
  unfold addGroup.
  apply (hoare_bind _ _ _ _ _ (keeps_checkGroups _ _)); [by intros ? [? _]|intros _].
  apply (hoare_bind _ _ _ _ _ (keeps_checkCallback _ callback)); [by intros ? [? _]|intros _].
  apply hoare_bind_get. intros s0 [HI Hkey].
  set (key := toPropertyKey object_key s0 id) in *.
  apply (hoare_bind _ _ _ _ _ (keeps_warnWhenNotRegistered _ key)); [by intros ? ->|intros _].
  apply (hoare_weaken (registered_too key) _ (registered_too key) _);
    [by intros ? ->|by intros ? [? _]|].
  apply keeps_bind; [apply keeps_join_group|intros _].
  apply keeps_bind; [apply keeps_invoke_callback; stable|intros _].
  apply hoare_ret.
Qed.

Lemma keeps_removeGroup id group callback :
  hoare members_registered (removeGroup user object_key id group callback)
        members_registered.
Proof.
  unfold removeGroup.
  apply keeps_bind; [apply keeps_checkGroups|intros _].
  apply keeps_bind; [apply keeps_checkCallback|intros _].
  apply keeps_bind; [apply hoare_get|intros s0].
  apply keeps_bind; [apply keeps_warnWhenNotRegistered|intros _].
  destruct (validationStorage s0 !! _); [|apply hoare_ret].
  apply keeps_bind; [apply keeps_warnWhenIdNotInGroup|intros _].
  destruct (groupStroage s0 !! _); [|apply hoare_ret].
  apply keeps_bind; [apply hoare_modify, keeps_unflag_one|intros _].
  apply keeps_bind; [apply keeps_invoke_callback; stable|intros _].
  apply hoare_ret.
Qed.

Lemma keeps_deregister id callback :
  hoare (λ s, members_registered s
              ∧ ∀ g m, groupStroage s !! g = Some m →
                       m !! toPropertyKey object_key s id ≠ Some true)
        (deregister user object_key id callback)
        members_registered.
Proof.
  unfold deregister.
  apply (hoare_bind _ _ _ _ _ (keeps_checkId _ id)); [by intros ? [? _]|intros _].
  apply (hoare_bind _ _ _ _ _ (keeps_checkCallback _ callback)); [by intros ? [? _]|intros _].
  apply hoare_bind_get. intros s0 [HI Hkey].
  set (key := toPropertyKey object_key s0 id) in *.
  apply (hoare_bind _ _ _ _ _ (keeps_warnWhenNotRegistered _ key)); [by intros ? ->|intros _].
  destruct (validationStorage s0 !! key); [|intros s r s' t -> [= <- <- <-]; done].
  apply (hoare_bind _ members_registered); [|done|].
  { apply hoare_modify. intros s -> g m id' Hg Hm. simpl.
    destruct (decide (key = id')) as [<-|Hne].
    - by destruct (Hkey g m Hg).
    - rewrite lookup_delete_ne; [|done]. by eapply HI. }
  intros _. apply keeps_bind; [apply keeps_set_resultCache; stable|intros _].
  apply keeps_bind; [apply keeps_invoke_callback; stable|intros _].
  apply hoare_ret.
Qed.

Lemma keeps_exec o :
  hoare (λ s, members_registered s ∧ keeps_membership object_key s o)
        (exec user object_key o) members_registered.
Proof.
  assert (Hneutral : ∀ m : M returned,
            hoare members_registered m members_registered →
            hoare (λ s, members_registered s ∧ True) m members_registered).
  { intros m Hm. eapply hoare_weaken; [|done|exact Hm]. by intros ? [? _]. }
  destruct o; simpl; try apply Hneutral.
  - apply keeps_as_val, keeps_register.
  - apply keeps_as_val, keeps_validate; stable.
  - apply keeps_as_val, keeps_validateOne; stable.
  - apply keeps_subscribe; stable.
  - apply keeps_as_val, keeps_unsubscribe; stable.
  - apply keeps_as_val, keeps_clearListeners; stable.
  - apply keeps_as_val, keeps_updateGroups.
  - apply keeps_as_val, keeps_addGroup.
  - apply keeps_as_val, keeps_removeGroup.
  - apply keeps_as_val, keeps_deregister.
  - apply keeps_as_val, keeps_getOneResult; stable.
  - apply keeps_as_val, keeps_getResults; stable.
  - apply keeps_as_val, keeps_clearOneResult; stable.
  - apply keeps_as_val, keeps_clearResults; stable.
  - apply keeps_as_val, keeps_printValidationInfo.
  - apply keeps_as_val, keeps_printInfo.
  - apply keeps_as_val, keeps_printAllInfo.
  - apply keeps_bind; [apply keeps_set_heap; stable|intros _; apply hoare_ret].
Qed.

(** C6, as the code has it.  In every store reachable from an empty
    registry by steps among which a field is deregistered only when no
    group flags it, and [addGroup] and [updateGroups] are applied to
    registered ids only, every id flagged [true] in the map of some group
    is in Field Storage. *)
Theorem members_registered_reachable (s : store) (cs : list closure) :
  reachable_by user object_key (keeps_membership object_key) s cs →
  members_registered s.
Proof.
  induction 1 as [h|s cs o r s' t Hreach IH Hallowed Hissued Hexec].
  - intros g m id. simpl. by rewrite lookup_empty.
  - eapply keeps_exec; [|exact Hexec]. by split.
Qed.

(** ** Well-formed stores

    The hypotheses of the theorems on [validateOne] that speak of the
    getter and of the listeners hold in every store the exported functions
    can produce. *)

Lemma structure_only_heap I : structure_only I → ∀ f s, I s → I (set_heap f s).
Proof. intros HI f s. by apply HI. Qed.

Lemma structure_only_cache I : structure_only I → ∀ f s, I s → I (set_resultCache f s).
Proof. intros HI f s. by apply HI. Qed.

Lemma structure_only_groups I : structure_only I → ∀ f s, I s → I (set_groupStroage f s).
Proof. intros HI f s. by apply HI. Qed.

Lemma well_formed_structure : structure_only well_formed.
Proof.
  intros s s' Hvs Hrec Hla (H1 & H2 & H3). unfold well_formed.
  rewrite Hvs, Hrec, Hla. done.
Qed.

Ltac steady :=
  first
    [ exact (structure_only_heap _ well_formed_structure)
    | exact (structure_only_cache _ well_formed_structure)
    | exact (structure_only_groups _ well_formed_structure) ].

Lemma forallb_splice {A} (f : A → bool) start n xs :
  forallb f xs = true → forallb f (splice start n xs) = true.
Proof.
  intros H. unfold splice. rewrite forallb_app. apply andb_true_intro.
  rewrite !forallb_forall in *. split.
  - intros x Hx. apply H. apply list_elem_of_In. apply list_elem_of_In in Hx.
    by eapply subseteq_take.
  - intros x Hx. apply H. apply list_elem_of_In. apply list_elem_of_In in Hx.
    by eapply subseteq_drop.
Qed.

Lemma well_formed_set_listeners la lv s :
  well_formed s → well_formed (set_records (alter (set_listeners la) lv) s).
Proof.
  intros (H1 & H2 & H3). split; [|split]; simpl; [| |done].
  - intros id lv' Hid. destruct (H1 id lv' Hid) as [r Hr].
    rewrite list_lookup_alter. case_decide as E; [subst; rewrite Hr|rewrite Hr]; eauto.
  - intros lv' r. rewrite list_lookup_alter. case_decide as E.
    + subst. destruct (records s !! lv') as [r0|] eqn:Hr; [|done].
      intros [= <-]. simpl. by eapply H2.
    + apply H2.
Qed.

Lemma well_formed_alloc_larray s :
  well_formed s → well_formed (set_larrays (λ a, a ++ [[]]) s).
Proof.
  intros (H1 & H2 & H3). split; [|split]; simpl; [done|done|].
  intros la xs Hla. apply lookup_app_Some in Hla as [Hla|[_ Hla]]; [by eapply H3|].
  destruct (la - length (larrays s)); simpl in Hla; [by injection Hla as <-|done].
Qed.

Lemma wf_register field validationChain callback :
  hoare well_formed (register user object_key field validationChain callback) well_formed.
Proof.
  unfold register.
  apply keeps_bind; [apply keeps_checkFieldType|intros _].
  apply keeps_bind; [apply hoare_get|intros s0].
  apply keeps_bind; [apply keeps_checkId|intros _].
  unfold checkGetter at 1.
  destruct (isFunction (get_prop (heap s0) field "getter")) eqn:Hg;
    [|apply hoare_throw_bind].
  apply keeps_bind; [apply hoare_ret|intros _].
  apply keeps_bind; [apply keeps_checkName|intros _].
  apply keeps_bind; [apply keeps_checkGroups|intros _].
  apply keeps_bind; [apply keeps_checkValidationChain|intros _].
  apply keeps_bind; [apply keeps_checkCallback|intros _].
  apply keeps_bind; [apply keeps_warnWhenIdHaveRegister|intros _].
  apply keeps_bind; [apply hoare_get|intros s].
  destruct (validationStorage s !! _); [apply hoare_ret|].
  destruct (inherited _); [apply hoare_ret|].
  apply (hoare_bind_result _ _ (λ lv s1, well_formed s1 ∧ is_Some (records s1 !! lv))).
  { intros s1 r s' t (H1 & H2 & H3) [= <- <- <-]. simpl. split; [split; [|split]|].
    - intros id lv Hid. destruct (H1 id lv Hid) as [r Hr]. exists r.
      by apply lookup_app_l_Some.
    - intros lv r Hr. apply lookup_app_Some in Hr as [Hr|[_ Hr]]; [by eapply H2|].
      destruct (lv - length (records s1)); simpl in Hr; [by injection Hr as <-|done].
    - done.
    - rewrite list_lookup_middle; [eauto|done]. }
  intros lv.
  apply (hoare_bind _ well_formed); [|done|].
  { apply hoare_modify. intros s1 [(H1 & H2 & H3) Hlv]. split; [|split]; simpl; [|done|done].
    intros id lv' Hid. apply lookup_insert_Some in Hid as [[_ <-]|[_ Hid]]; [done|].
    by eapply H1. }
  intros _. apply keeps_bind.
  { destruct (isNil _); [apply hoare_ret|]. apply keeps_forEach. intros x.
    apply keeps_join_group_any; steady. }
  intros _. apply keeps_bind; [apply keeps_invoke_callback; steady|intros _].
  apply hoare_ret.
Qed.

Lemma wf_subscribe id listener callback :
  hoare well_formed (subscribe user object_key id listener callback) well_formed.
Proof.
  unfold subscribe, checkListener.
  destruct (isNil listener) eqn:Hnil.
  { apply keeps_bind; [apply hoare_ret|intros _].
    apply keeps_bind; [apply keeps_checkCallback|intros _]. apply hoare_ret. }
  destruct (isFunction listener) eqn:Hfun; [|apply hoare_throw_bind].
  apply keeps_bind; [apply hoare_ret|intros _].
  apply keeps_bind; [apply keeps_checkCallback|intros _].
  apply keeps_bind; [apply hoare_get|intros s].
  apply keeps_bind; [apply keeps_warnWhenNotRegistered|intros _].
  destruct (validationStorage s !! _); [|apply hoare_throw].
  destruct (records s !! _); [|apply hoare_throw].
  apply keeps_bind.
  { destruct (listeners _); [apply hoare_ret|].
    intros s1 r s' t Hwf [= <- <- <-]. by apply well_formed_alloc_larray. }
  intros la. apply keeps_bind.
  { apply hoare_modify. intros s1 (H1 & H2 & H3). split; [|split]; simpl; [done|done|].
    intros la' xs. rewrite list_lookup_alter. case_decide as E; [|apply H3].
    subst. destruct (larrays s1 !! la') as [ys|] eqn:Hys; [|done].
    intros [= <-]. rewrite forallb_app. simpl. rewrite Hfun, (H3 _ _ Hys). done. }
  intros _. apply keeps_bind.
  { apply hoare_modify. intros s1. apply well_formed_set_listeners. }
  intros _. apply keeps_bind; [apply keeps_invoke_callback; steady|intros _].
  apply hoare_ret.
Qed.

Lemma wf_unsubscribe c :
  hoare well_formed (unsubscribe c) well_formed.
Proof.
  unfold unsubscribe. apply hoare_bind_get. intros s0 Hwf.
  destruct (larrays s0 !! c_listeners c) as [xs|] eqn:Hxs;
    [|by intros s r s' t -> [= <- <- <-]].
  apply (hoare_bind _ well_formed); [|done|].
  { apply hoare_modify. intros s ->. destruct Hwf as (H1 & H2 & H3).
    split; [|split]; simpl; [done|done|].
    intros la ys Hla.
    destruct (decide (c_listeners c = la)) as [<-|Hne].
    - rewrite list_lookup_insert_eq in Hla; [|by eapply lookup_lt_Some].
      injection Hla as <-. apply forallb_splice. by eapply H3.
    - rewrite list_lookup_insert_ne in Hla; [|done]. by eapply H3. }
  intros _. apply keeps_bind.
  { apply hoare_modify. intros s1. apply well_formed_set_listeners. }
  intros _. apply hoare_ret.
Qed.

Lemma wf_clearListeners id callback :
  hoare well_formed (clearListeners user object_key id callback) well_formed.
Proof.
  unfold clearListeners. apply keeps_bind; [apply keeps_checkId|intros _].
  apply keeps_bind; [apply keeps_checkCallback|intros _].
  apply keeps_bind; [apply hoare_get|intros s].
  apply keeps_bind; [apply keeps_warnWhenNotRegistered|intros _].
  destruct (validationStorage s !! _); [|apply hoare_ret].
  apply keeps_bind.
  { intros s1 r s' t Hwf [= <- <- <-]. by apply well_formed_alloc_larray. }
  intros la. apply keeps_bind.
  { apply hoare_modify. intros s1. apply well_formed_set_listeners. }
  intros _. apply keeps_bind; [apply keeps_invoke_callback; steady|intros _].
  apply hoare_ret.
Qed.

Lemma wf_deregister id callback :
  hoare well_formed (deregister user object_key id callback) well_formed.
Proof.
  unfold deregister. apply keeps_bind; [apply keeps_checkId|intros _].
  apply keeps_bind; [apply keeps_checkCallback|intros _].
  apply keeps_bind; [apply hoare_get|intros s].
  apply keeps_bind; [apply keeps_warnWhenNotRegistered|intros _].
  destruct (validationStorage s !! _); [|apply hoare_ret].
  apply keeps_bind.
  { apply hoare_modify. intros s1 (H1 & H2 & H3). split; [|split]; simpl; [|done|done].
    intros id' lv Hid. apply lookup_delete_Some in Hid as [_ Hid]. by eapply H1. }
  intros _. apply keeps_bind; [apply keeps_set_resultCache; steady|intros _].
  apply keeps_bind; [apply keeps_invoke_callback; steady|intros _].
  apply hoare_ret.
Qed.

Lemma wf_exec o : hoare well_formed (exec user object_key o) well_formed.
Proof.
  destruct o; simpl.
  - apply keeps_as_val, wf_register.
  - apply keeps_as_val, keeps_validate; steady.
  - apply keeps_as_val, keeps_validateOne; steady.
  - apply wf_subscribe.
  - apply keeps_as_val, wf_unsubscribe.
  - apply keeps_as_val, wf_clearListeners.
  - apply keeps_as_val, keeps_updateGroups_any; steady.
  - apply keeps_as_val, keeps_addGroup_any; steady.
  - apply keeps_as_val, keeps_removeGroup_any; steady.
  - apply keeps_as_val, wf_deregister.
  - apply keeps_as_val, keeps_getOneResult; steady.
  - apply keeps_as_val, keeps_getResults; steady.
  - apply keeps_as_val, keeps_clearOneResult; steady.
  - apply keeps_as_val, keeps_clearResults; steady.
  - apply keeps_as_val, keeps_printValidationInfo.
  - apply keeps_as_val, keeps_printInfo.
  - apply keeps_as_val, keeps_printAllInfo.
  - apply keeps_bind; [apply keeps_set_heap; steady|intros _; apply hoare_ret].
Qed.

(** Every reachable store is well formed, whatever steps are allowed. *)
Lemma reachable_well_formed allowed s cs :
  reachable_by user object_key allowed s cs → well_formed s.
Proof.
  induction 1 as [h|s cs o r s' t Hreach IH Hallowed Hissued Hexec].
  - split; [|split]; simpl.
    + intros id lv. by rewrite lookup_empty.
    + intros lv r. by rewrite lookup_nil.
    + intros la xs. by rewrite lookup_nil.
  - eapply wf_exec; [exact IH|exact Hexec].
Qed.

(** In a reachable store a registered id has a record, whose getter is a
    function and whose listeners are functions. *)
Lemma reachable_field allowed s cs id lv :
  reachable_by user object_key allowed s cs →
  validationStorage s !! id = Some lv →
  ∃ validation,
    records s !! lv = Some validation
    ∧ isFunction (getter validation) = true
    ∧ forallb isFunction (listener_array s (listeners validation)) = true.
Proof.
  intros Hreach Hid. destruct (reachable_well_formed _ _ _ Hreach) as (H1 & H2 & H3).
  destruct (H1 id lv Hid) as [validation Hrec]. exists validation.
  split; [done|]. split; [by eapply H2|].
  unfold listener_array. destruct (listeners validation) as [la|]; [|done].
  destruct (larrays s !! la) as [xs|] eqn:Hla; [|done]. by eapply H3.
Qed.

(** ** getOneResult *)

Lemma warnWhenNotRegistered_run s id :
  ∃ t, warnWhenNotRegistered id s = (Ok tt, s, t).
Proof.
  destruct (validationStorage s !! id) as [lv|] eqn:E.
  - eexists. by eapply warnWhenNotRegistered_known.
  - eexists. by eapply warnWhenNotRegistered_unknown.
Qed.


(** ** Unregistered and ill-typed ids *)

(** The functions that return after the warning: on an id that is not
    registered they change nothing and return [undefined]. *)
Lemma unregistered_id_returns_undefined s id callback :
  validationStorage s !! id = None →
  callback_ok callback = true →
  validateOne user object_key (VStr id) callback s =
    (Ok VUndefined, s, [EvWarn (NotRegistered id)])
  ∧ clearListeners user object_key (VStr id) callback s =
      (Ok VUndefined, s, [EvWarn (NotRegistered id)])
  ∧ deregister user object_key (VStr id) callback s =
      (Ok VUndefined, s, [EvWarn (NotRegistered id)]).
Proof.
  intros Hid Hcb.
  unfold validateOne, clearListeners, deregister.
  rewrite (checkCallback_ok _ Hcb).
  unfold bind, checkId, get, ret. simpl.
  rewrite (warnWhenNotRegistered_unknown s id Hid), Hid. done.
Qed.

(** [subscribe] has no such return: on an id that is not registered it
    warns and then throws. *)
Lemma subscribe_unregistered s id listener callback :
  validationStorage s !! id = None →
  isFunction listener = true →
  callback_ok callback = true →
  subscribe user object_key (VStr id) listener callback s =
    (Throw (TypeError "Cannot destructure property 'listeners' of 'validation' as it is undefined."),
     s, [EvWarn (NotRegistered id)]).
Proof.
  intros Hid Hfun Hcb. apply isFunction_fun in Hfun as [n ->].
  unfold subscribe. rewrite (checkCallback_ok _ Hcb).
  unfold bind, checkListener, get, ret. simpl.
  rewrite (warnWhenNotRegistered_unknown s id Hid), Hid. done.
Qed.

(** The functions that call [checkId]: an id that is not a string is
    refused before anything is read or written. *)
Lemma checkId_refuses s id callback :
  isString id = false →
  let refused := (Throw (TypeError "id must not be null and must be a string."), s, []) in
  validateOne user object_key id callback s = refused
  ∧ clearListeners user object_key id callback s = refused
  ∧ deregister user object_key id callback s = refused
  ∧ getOneResult object_key id s = refused
  ∧ clearOneResult object_key id s = refused.
Proof.
  intros Hid. unfold validateOne, clearListeners, deregister, getOneResult, clearOneResult.
  unfold bind, checkId. rewrite Hid. done.
Qed.

(** C7, at the failing input [subscribe(validator, "ghost", listener)] on
    an empty registry: after the warning, destructuring the absent record
    throws a TypeError. *)
Theorem subscribe_unregistered_throws (h : list hobj) :
  subscribe user object_key (VStr "ghost") (VFun 2) VUndefined (empty_store h) =
    (Throw (TypeError "Cannot destructure property 'listeners' of 'validation' as it is undefined."),
     empty_store h,
     [EvWarn (NotRegistered "ghost")]).
Proof. reflexivity. Qed.

(** C8, at the failing input [updateGroups(validator, 42, ["g"])] on an
    empty registry: no TypeError is raised for the number, the call
    returns [true] and Group Storage now flags the key "42" in group "g". *)
Theorem updateGroups_accepts_number_id (h : list hobj) :
  updateGroups user object_key (VNum 42) (VArr [VStr "g"]) VUndefined (empty_store h) =
    (Ok (VBool true),
     set_groupStroage (λ _, {["g" := {["42" := true]}]}) (empty_store h),
     [EvWarn (NotRegistered "42")]).
Proof. reflexivity. Qed.

(** * Further properties of the exported functions *)

(** ** What each function leaves alone *)

Lemma hoare_store_of {A} (I : store → Prop) (m : M A) s :
  hoare I m I → I s → I (store_of (m s)).
Proof.
  intros Hm HI. destruct (m s) as [[r s'] t] eqn:E. by eapply Hm.
Qed.

(** X1. Validating and reading or clearing results never changes a
    registration, a group, a field record or a listener array, whatever
    the arguments and also when the call throws; reading results changes
    no cache entry either, and clearing results changes no heap object. *)
Theorem results_leave_structure (s : store) (id groups callback : value) :
  same_structure s (store_of (validateOne user object_key id callback s))
  ∧ same_structure s (store_of (validate user object_key groups callback s))
  ∧ (same_structure s (store_of (getOneResult object_key id s))
     ∧ resultCache (store_of (getOneResult object_key id s)) = resultCache s)
  ∧ (same_structure s (store_of (getResults object_key groups s))
     ∧ resultCache (store_of (getResults object_key groups s)) = resultCache s)
  ∧ (same_structure s (store_of (clearOneResult object_key id s))
     ∧ heap (store_of (clearOneResult object_key id s)) = heap s)
  ∧ (same_structure s (store_of (clearResults object_key groups s))
     ∧ heap (store_of (clearResults object_key groups s)) = heap s).
Proof.
  assert (Hrefl : same_structure s s) by done.
  split; [|split; [|split; [|split; [|split]]]].
  - apply (hoare_store_of (same_structure s)); [|done].
    apply keeps_validateOne; by intros ? ? ?.
  - apply (hoare_store_of (same_structure s)); [|done].
    apply keeps_validate; by intros ? ? ?.
  - apply (hoare_store_of (λ x, same_structure s x ∧ resultCache x = resultCache s)); [|done].
    apply keeps_getOneResult; by intros ? ? ?.
  - apply (hoare_store_of (λ x, same_structure s x ∧ resultCache x = resultCache s)); [|done].
    apply keeps_getResults; by intros ? ? ?.
  - apply (hoare_store_of (λ x, same_structure s x ∧ heap x = heap s)); [|done].
    apply keeps_clearOneResult; by intros ? ? ?.
  - apply (hoare_store_of (λ x, same_structure s x ∧ heap x = heap s)); [|done].
    apply keeps_clearResults; by intros ? ? ?.
Qed.

(** X2. The group functions never change a registration, a cache entry, a
    field record or a listener array, and the listener functions
    ([subscribe], the closure it returns, [clearListeners]) never change a
    registration, a group or a cache entry, whatever the arguments and
    also when the call throws. *)
Theorem groups_and_listeners_leave_results
    (s : store) (id groups group listener callback : value) (c : closure) :
  same_fields s (store_of (updateGroups user object_key id groups callback s))
  ∧ same_fields s (store_of (addGroup user object_key id group callback s))
  ∧ same_fields s (store_of (removeGroup user object_key id group callback s))
  ∧ (let s' := store_of (subscribe user object_key id listener callback s) in
     validationStorage s' = validationStorage s ∧ groupStroage s' = groupStroage s
     ∧ resultCache s' = resultCache s)
  ∧ (let s' := store_of (unsubscribe c s) in
     validationStorage s' = validationStorage s ∧ groupStroage s' = groupStroage s
     ∧ resultCache s' = resultCache s ∧ heap s' = heap s)
  ∧ (let s' := store_of (clearListeners user object_key id callback s) in
     validationStorage s' = validationStorage s ∧ groupStroage s' = groupStroage s
     ∧ resultCache s' = resultCache s).
Proof.
  assert (Hrefl : same_fields s s) by done.
  split; [|split; [|split; [|split; [|split]]]]; cbv zeta.
  - apply (hoare_store_of (same_fields s)); [|done].
    apply keeps_updateGroups_any; by intros ? ? ?.
  - apply (hoare_store_of (same_fields s)); [|done].
    apply keeps_addGroup_any; by intros ? ? ?.
  - apply (hoare_store_of (same_fields s)); [|done].
    apply keeps_removeGroup_any; by intros ? ? ?.
  - apply (hoare_store_of (λ x, validationStorage x = validationStorage s
                                ∧ groupStroage x = groupStroage s
                                ∧ resultCache x = resultCache s)); [|done].
    apply keeps_subscribe; by intros ? ? ?.
  - apply (hoare_store_of (λ x, validationStorage x = validationStorage s
                                ∧ groupStroage x = groupStroage s
                                ∧ resultCache x = resultCache s ∧ heap x = heap s)); [|done].
    apply keeps_unsubscribe; by intros ? ? ?.
  - apply (hoare_store_of (λ x, validationStorage x = validationStorage s
                                ∧ groupStroage x = groupStroage s
                                ∧ resultCache x = resultCache s)); [|done].
    apply keeps_clearListeners; by intros ? ? ?.
Qed.

(** ** Contract violations *)

Lemma refuses_bind {A B} (c : M A) (k : A → M B) s :
  (∃ a, c s = (Ok a, s, [])) ∨ refuses c s →
  (∀ a, c s = (Ok a, s, []) → refuses (k a) s) →
  refuses (bind c k) s.
Proof.
  intros [[a Ha]|[msg Hc]] Hk; unfold refuses, bind.
  - destruct (Hk a Ha) as [msg Hmsg]. exists msg. by rewrite Ha, Hmsg.
  - exists msg. by rewrite Hc.
Qed.

Lemma refuses_throw {A} msg s : refuses (@throw A (TypeError msg)) s.
Proof. by exists msg. Qed.

Lemma get_pure s : (∃ a, get s = (Ok a, s, [])) ∨ refuses get s.
Proof. left. by exists s. Qed.

Lemma checkFieldType_pure field s :
  (∃ a, checkFieldType field s = (Ok a, s, [])) ∨ refuses (checkFieldType field) s.
Proof.
  unfold checkFieldType. destruct (isObject field); [left; by exists tt|right; apply refuses_throw].
Qed.

Lemma checkId_pure id s :
  (∃ a, checkId id s = (Ok a, s, [])) ∨ refuses (checkId id) s.
Proof.
  unfold checkId. destruct (isString id); [left; by exists tt|right; apply refuses_throw].
Qed.

Lemma checkGetter_pure g s :
  (∃ a, checkGetter g s = (Ok a, s, [])) ∨ refuses (checkGetter g) s.
Proof.
  unfold checkGetter. destruct (isFunction g); [left; by exists tt|right; apply refuses_throw].
Qed.

Lemma checkName_pure n s :
  (∃ a, checkName n s = (Ok a, s, [])) ∨ refuses (checkName n) s.
Proof.
  unfold checkName. destruct (isNil n); [left; by exists tt|].
  destruct (isString n); [left; by exists tt|right; apply refuses_throw].
Qed.

Lemma checkGroups_pure groups s :
  (∃ a, checkGroups groups s = (Ok a, s, [])) ∨ refuses (checkGroups groups) s.
Proof.
  unfold checkGroups, refuses. destruct (isNil groups); [left; by exists tt|].
  unfold bind, get. simpl. destruct (as_array (heap s) groups) as [xs|].
  - destruct (forallb isString xs); [left; by exists tt|right; eexists; reflexivity].
  - right. eexists. reflexivity.
Qed.

Lemma checkValidationChain_pure chain s :
  (∃ a, checkValidationChain chain s = (Ok a, s, []))
  ∨ refuses (checkValidationChain chain) s.
Proof.
  unfold checkValidationChain, refuses. destruct (isNil chain); [left; by exists tt|].
  unfold bind, get. simpl.
  destruct (isArray (heap s) chain); [left; by exists tt|right; eexists; reflexivity].
Qed.

Lemma checkListener_pure l s :
  (∃ a, checkListener l s = (Ok a, s, [])) ∨ refuses (checkListener l) s.
Proof.
  unfold checkListener. destruct (isNil l); [left; by exists tt|].
  destruct (isFunction l); [left; by exists tt|right; apply refuses_throw].
Qed.

Lemma checkCallback_refuses callback s :
  callback_ok callback = false → refuses (checkCallback callback) s.
Proof.
  unfold callback_ok, checkCallback. destruct (isNil callback); [done|].
  simpl. intros ->. apply refuses_throw.
Qed.

Lemma checkCallback_refuses_bind {B} callback (k : unit → M B) s :
  callback_ok callback = false → refuses (bind (checkCallback callback) k) s.
Proof.
  intros H. apply refuses_bind; [right; by apply checkCallback_refuses|].
  intros a Ha. destruct (checkCallback_refuses callback s H) as [msg Hmsg]. congruence.
Qed.

Lemma refuses_bind_refused {A B} (c : M A) (k : A → M B) s :
  refuses c s → refuses (bind c k) s.
Proof. intros [msg Hc]. exists msg. unfold bind. by rewrite Hc. Qed.

Lemma refuses_bind_passed {A B} (c : M A) (k : A → M B) s a :
  c s = (Ok a, s, []) → refuses (k a) s → refuses (bind c k) s.
Proof. intros Hc [msg Hk]. exists msg. unfold bind. by rewrite Hc, Hk. Qed.

Lemma checkGroups_cases groups s :
  (groups_ok (heap s) groups = true ∧ checkGroups groups s = (Ok tt, s, []))
  ∨ (groups_ok (heap s) groups = false ∧ refuses (checkGroups groups) s).
Proof.
  destruct (groups_ok (heap s) groups) eqn:Hg.
  - left. split; [done|]. by apply checkGroups_ok.
  - right. split; [done|]. unfold groups_ok in Hg. unfold checkGroups, refuses.
    destruct (isNil groups); [done|]. unfold bind, get. simpl in *.
    destruct (as_array (heap s) groups) as [xs|]; [rewrite Hg|]; eexists; reflexivity.
Qed.

Lemma checkValidationChain_cases chain s :
  (isNil chain || isArray (heap s) chain = true
   ∧ checkValidationChain chain s = (Ok tt, s, []))
  ∨ (isNil chain || isArray (heap s) chain = false
     ∧ refuses (checkValidationChain chain) s).
Proof.
  destruct (isNil chain || isArray (heap s) chain) eqn:Hc.
  - left. split; [done|]. by apply checkValidationChain_ok.
  - right. split; [done|]. unfold checkValidationChain, refuses.
    destruct (isNil chain); [done|]. unfold bind, get. simpl in *. rewrite Hc.
    eexists; reflexivity.
Qed.

Lemma register_refuses s field validationChain callback :
  register_args_ok (heap s) field validationChain callback = false →
  refuses (register user object_key field validationChain callback) s.
Proof.
  unfold register_args_ok, register. intros Hbad.
  unfold checkFieldType. destruct (isObject field);
    [|apply refuses_bind_refused, refuses_throw].
  eapply refuses_bind_passed; [reflexivity|].
  eapply refuses_bind_passed; [reflexivity|].
  unfold checkId at 1. destruct (isString _);
    [|apply refuses_bind_refused, refuses_throw].
  eapply refuses_bind_passed; [reflexivity|].
  unfold checkGetter at 1. destruct (isFunction _);
    [|apply refuses_bind_refused, refuses_throw].
  eapply refuses_bind_passed; [reflexivity|].
  simpl in Hbad.
  destruct (checkName_pure (get_prop (heap s) field "name") s) as [[[] Hn]|Hn];
    [|by apply refuses_bind_refused].
  eapply refuses_bind_passed; [exact Hn|].
  assert (Hname : isNil (get_prop (heap s) field "name")
                  || isString (get_prop (heap s) field "name") = true).
  { unfold checkName in Hn. destruct (isNil _); [done|]. by destruct (isString _). }
  rewrite Hname in Hbad. simpl in Hbad.
  destruct (checkGroups_cases (get_prop (heap s) field "groups") s) as [[Hg Hp]|[Hg Hr]];
    [|by apply refuses_bind_refused].
  eapply refuses_bind_passed; [exact Hp|]. rewrite Hg in Hbad. simpl in Hbad.
  destruct (checkValidationChain_cases validationChain s) as [[Hc Hp']|[Hc Hr]];
    [|by apply refuses_bind_refused].
  eapply refuses_bind_passed; [exact Hp'|]. rewrite Hc in Hbad. simpl in Hbad.
  by apply checkCallback_refuses_bind.
Qed.

(** X3. [register] checks all its arguments before it writes: when one
    of them has the wrong shape (field not an object, id not a string,
    getter not a function, name neither nil nor a string, groups neither
    nil nor an array of strings, chain neither nil nor an array, callback
    neither nil nor a function) it throws a TypeError, and the store is as
    before. *)
Theorem register_refuses_ill_typed
    (s : store) (field validationChain callback : value) :
  register_args_ok (heap s) field validationChain callback = false →
  refuses (register user object_key field validationChain callback) s.
Proof. apply register_refuses. Qed.

(** X4. A callback that is neither nil nor a function is refused by
    every exported function that takes one: a TypeError is thrown (by
    [checkCallback], or by an earlier check of another argument) and the
    store is as before. *)
Theorem callback_is_checked_first
    (s : store) (field validationChain id groups group listener callback : value) :
  callback_ok callback = false →
  refuses (register user object_key field validationChain callback) s
  ∧ refuses (validate user object_key groups callback) s
  ∧ refuses (validateOne user object_key id callback) s
  ∧ refuses (subscribe user object_key id listener callback) s
  ∧ refuses (clearListeners user object_key id callback) s
  ∧ refuses (updateGroups user object_key id groups callback) s
  ∧ refuses (addGroup user object_key id group callback) s
  ∧ refuses (removeGroup user object_key id group callback) s
  ∧ refuses (deregister user object_key id callback) s.
Proof.
  intros Hcb.
  repeat split.
  - apply register_refuses. unfold register_args_ok. rewrite Hcb.
    apply andb_false_r.
  - unfold validate. apply refuses_bind; [apply checkGroups_pure|intros _ _].
    by apply checkCallback_refuses_bind.
  - unfold validateOne. apply refuses_bind; [apply checkId_pure|intros _ _].
    by apply checkCallback_refuses_bind.
  - unfold subscribe. apply refuses_bind; [apply checkListener_pure|intros _ _].
    by apply checkCallback_refuses_bind.
  - unfold clearListeners. apply refuses_bind; [apply checkId_pure|intros _ _].
    by apply checkCallback_refuses_bind.
  - unfold updateGroups. apply refuses_bind; [apply checkGroups_pure|intros _ _].
    by apply checkCallback_refuses_bind.
  - unfold addGroup. apply refuses_bind; [apply checkGroups_pure|intros _ _].
    by apply checkCallback_refuses_bind.
  - unfold removeGroup. apply refuses_bind; [apply checkGroups_pure|intros _ _].
    by apply checkCallback_refuses_bind.
  - unfold deregister. apply refuses_bind; [apply checkId_pure|intros _ _].
    by apply checkCallback_refuses_bind.
Qed.

(** ** deregister, and registering again *)

Lemma deregister_run s id lv callback :
  validationStorage s !! id = Some lv →
  callback_ok callback = true →
  ∃ h t,
    deregister user object_key (VStr id) callback s =
      (Ok VUndefined,
       set_heap (λ _, h)
         (set_resultCache <[id := VUndefined]> (set_validationStorage (delete id) s)),
       t).
Proof.
  intros Hid Hcb.
  destruct (invoke_callback_run callback
              (set_resultCache <[id := VUndefined]> (set_validationStorage (delete id) s))
              Hcb) as (h & tcb & Hrun & _).
  exists h, tcb. eapply run_cast.
  - unfold deregister. rewrite (checkCallback_ok _ Hcb).
    eapply bind_ok; [reflexivity|]. eapply bind_ok; [reflexivity|].
    eapply bind_ok; [reflexivity|]. simpl toPropertyKey.
    eapply bind_ok; [by eapply warnWhenNotRegistered_known|]. rewrite Hid.
    eapply bind_ok; [reflexivity|]. eapply bind_ok; [reflexivity|].
    eapply bind_ok; [exact Hrun|]. reflexivity.
  - simpl. by rewrite app_nil_r.
Qed.

(** X5. [deregister] of a registered id removes it from Field Storage
    and unsets its cache entry, and leaves every group, record and
    listener array as it was.  Afterwards [getOneResult] and [validateOne]
    on that id warn, change nothing and return [undefined]. *)
Theorem deregister_forgets_field
    (s : store) (id : string) (lv : loc) (callback : value) :
  validationStorage s !! id = Some lv →
  callback_ok callback = true →
  ∃ s' t,
    deregister user object_key (VStr id) callback s = (Ok VUndefined, s', t)
    ∧ validationStorage s' = delete id (validationStorage s)
    ∧ resultCache s' = <[id := VUndefined]> (resultCache s)
    ∧ groupStroage s' = groupStroage s
    ∧ records s' = records s
    ∧ larrays s' = larrays s
    ∧ getOneResult object_key (VStr id) s' =
        (Ok VUndefined, s', [EvWarn (NotRegistered id)])
    ∧ validateOne user object_key (VStr id) VUndefined s' =
        (Ok VUndefined, s', [EvWarn (NotRegistered id)]).
Proof.
  intros Hid Hcb. destruct (deregister_run s id lv callback Hid Hcb) as (h & t & Hrun).
  set (s' := set_heap (λ _, h)
               (set_resultCache <[id := VUndefined]>
                  (set_validationStorage (delete id) s))) in *.
  exists s', t. split; [exact Hrun|]. repeat (split; [done|]).
  assert (Hgone : validationStorage s' !! id = None) by (simpl; apply lookup_delete_eq).
  assert (Hunset : resultCache s' !! id = Some VUndefined)
    by (simpl; apply lookup_insert_eq).
  split.
  - eapply run_cast.
    + unfold getOneResult. eapply bind_ok; [reflexivity|].
      eapply bind_ok; [reflexivity|]. simpl toPropertyKey.
      eapply bind_ok; [by apply warnWhenNotRegistered_unknown|].
      rewrite Hunset. reflexivity.
    + reflexivity.
  - by apply unregistered_id_returns_undefined.
Qed.

Lemma register_inherited_run s field validationChain callback id :
  register_args_ok (heap s) field validationChain callback = true →
  get_prop (heap s) field "id" = VStr id →
  validationStorage s !! id = None →
  inherited id = true →
  register user object_key field validationChain callback s =
    (Ok VUndefined, s, [EvWarn (HaveRegistered id)]).
Proof.
  intros Hok Hidp Hnone Hinh. unfold register_args_ok in Hok.
  repeat (apply andb_prop in Hok as [Hok ?]).
  eapply run_cast.
  - unfold register. unfold checkFieldType. rewrite Hok.
    eapply bind_ok; [reflexivity|]. eapply bind_ok; [reflexivity|].
    rewrite Hidp. eapply bind_ok; [reflexivity|].
    eapply bind_ok; [unfold checkGetter; by rewrite H3|].
    eapply bind_ok.
    { unfold checkName. destruct (isNil (get_prop (heap s) field "name")); [done|].
      simpl in H2. by rewrite H2. }
    eapply bind_ok; [by apply checkGroups_ok|].
    eapply bind_ok; [by apply checkValidationChain_ok|].
    eapply bind_ok; [by rewrite checkCallback_ok|].
    simpl toPropertyKey.
    eapply bind_ok.
    { unfold warnWhenIdHaveRegister, bind, get. simpl. by rewrite Hnone, Hinh. }
    eapply bind_ok; [reflexivity|]. rewrite Hnone, Hinh. reflexivity.
  - reflexivity.
Qed.

Lemma register_fresh_run s field validationChain callback id :
  register_args_ok (heap s) field validationChain callback = true →
  get_prop (heap s) field "id" = VStr id →
  validationStorage s !! id = None →
  inherited id = false →
  ∃ h t,
    register user object_key field validationChain callback s =
      (Ok (VBool true),
       set_heap (λ _, h)
         (set_groupStroage
            (λ gs, if isNil (get_prop (heap s) field "groups") then gs
                   else foldl (λ gs element,
                                 mark_member id (toPropertyKey object_key s element) gs)
                              gs (default [] (as_array (heap s)
                                               (get_prop (heap s) field "groups"))))
            (set_validationStorage <[id := length (records s)]>
               (set_records (λ rs, rs ++
                  [FieldRecord (get_prop (heap s) field "name") validationChain
                               (get_prop (heap s) field "getter") None]) s))),
       t).
Proof.
  intros Hok Hidp Hnone Hinh. unfold register_args_ok in Hok.
  repeat (apply andb_prop in Hok as [Hok ?]).
  destruct (invoke_callback_run callback
              (set_groupStroage
                 (λ gs, if isNil (get_prop (heap s) field "groups") then gs
                        else foldl (λ gs element,
                                      mark_member id (toPropertyKey object_key s element) gs)
                                   gs (default [] (as_array (heap s)
                                                    (get_prop (heap s) field "groups"))))
                 (set_validationStorage <[id := length (records s)]>
                    (set_records (λ rs, rs ++
                       [FieldRecord (get_prop (heap s) field "name") validationChain
                                    (get_prop (heap s) field "getter") None]) s))))
    as (h & tcb & Hcbrun & _); [done|].
  exists h, tcb. eapply run_cast.
  - unfold register. unfold checkFieldType. rewrite Hok.
    eapply bind_ok; [reflexivity|]. eapply bind_ok; [reflexivity|].
    rewrite Hidp. eapply bind_ok; [reflexivity|].
    eapply bind_ok; [unfold checkGetter; by rewrite H3|].
    eapply bind_ok.
    { unfold checkName. destruct (isNil (get_prop (heap s) field "name")); [done|].
      simpl in H2. by rewrite H2. }
    eapply bind_ok; [by apply checkGroups_ok|].
    eapply bind_ok; [by apply checkValidationChain_ok|].
    eapply bind_ok; [by rewrite checkCallback_ok|].
    simpl toPropertyKey.
    eapply bind_ok.
    { unfold warnWhenIdHaveRegister, bind, get. simpl. by rewrite Hnone, Hinh. }
    eapply bind_ok; [reflexivity|]. rewrite Hnone, Hinh.
    eapply bind_ok; [reflexivity|]. eapply bind_ok; [reflexivity|].
    eapply bind_ok; [apply mark_groups_run|].
    eapply bind_ok; [exact Hcbrun|]. reflexivity.
  - simpl. by rewrite app_nil_r.
Qed.

Lemma flagged_resolved s g id :
  flagged s g id ↔ id ∈ getIdsFromGroups object_key s (VArr [VStr g]).
Proof.
  unfold getIdsFromGroups. simpl. rewrite elem_of_foldl_set_add, elem_of_group_members.
  unfold flagged. split.
  - intros (m & Hg & Hm). right. by rewrite Hg.
  - intros [H|H]; [by apply elem_of_nil in H|].
    destruct (groupStroage s !! g) as [m|]; simpl in H; [eauto|].
    by rewrite lookup_empty in H.
Qed.

(** X6. Group membership outlives [deregister]: when an id flagged in
    group [g] is deregistered and then registered again, with whatever
    groups the new field lists (or none), the new field is resolved by
    group [g] as the old one was.  (A registered id never names a member
    of [Object.prototype]: [register] refuses those.) *)
Theorem reregistered_field_inherits_groups
    (s : store) (id g : string) (lv : loc) (field validationChain callback : value) :
  validationStorage s !! id = Some lv →
  inherited id = false →
  flagged s g id →
  register_args_ok (heap s) field validationChain callback = true →
  get_prop (heap s) field "id" = VStr id →
  let s1 := store_of (deregister user object_key (VStr id) VUndefined s) in
  let s2 := store_of (register user object_key field validationChain callback s1) in
  ¬ is_Some (validationStorage s1 !! id)
  ∧ flagged s1 g id
  ∧ result_of (register user object_key field validationChain callback s1) = Ok (VBool true)
  ∧ is_Some (validationStorage s2 !! id)
  ∧ flagged s2 g id
  ∧ id ∈ getIdsFromGroups object_key s2 (VArr [VStr g]).
Proof.
  intros Hid Hinh (m & Hg & Hm) Hok Hidp.
  destruct (deregister_run s id lv VUndefined Hid eq_refl) as (h & t & Hrun).
  assert (Hh : h = heap s).
  { unfold deregister in Hrun. revert Hrun.
    unfold bind, checkId, checkCallback, get, ret, modify, invoke_callback. simpl.
    rewrite (warnWhenNotRegistered_known s id lv Hid), Hid. simpl.
    by intros [= <-]. }
  subst h. cbv zeta. unfold store_of, result_of. rewrite Hrun. cbn [fst snd].
  set (s1 := set_heap (λ _, heap s)
               (set_resultCache <[id := VUndefined]>
                  (set_validationStorage (delete id) s))).
  assert (Hnone : validationStorage s1 !! id = None) by (simpl; apply lookup_delete_eq).
  destruct (register_fresh_run s1 field validationChain callback id Hok Hidp Hnone Hinh)
    as (h2 & t2 & Hreg).
  rewrite Hreg. cbn [fst snd].
  split; [rewrite Hnone; by intros [? ?]|].
  split; [by exists m|]. split; [done|].
  split; [simpl; by rewrite lookup_insert_eq|].
  assert (Hflag : flagged
            (set_heap (λ _, h2)
               (set_groupStroage
                  (λ gs, if isNil (get_prop (heap s1) field "groups") then gs
                         else foldl (λ gs element,
                                       mark_member id (toPropertyKey object_key s1 element) gs)
                                    gs (default [] (as_array (heap s1)
                                                     (get_prop (heap s1) field "groups"))))
                  (set_validationStorage <[id := length (records s1)]>
                     (set_records (λ rs, rs ++
                        [FieldRecord (get_prop (heap s1) field "name") validationChain
                                     (get_prop (heap s1) field "getter") None]) s1)))) g id).
  { unfold flagged. simpl. destruct (isNil _); [by exists m|].
    by apply (foldl_mark_member_keeps (toPropertyKey object_key s1) id _ _ g m). }
  split; [exact Hflag|]. by apply flagged_resolved.
Qed.

(** ** Group membership *)

Lemma flagged_flag_of s g id : flagged s g id ↔ flag_of s g id = Some true.
Proof.
  unfold flagged, flag_of. split.
  - intros (m & -> & Hm). done.
  - destruct (groupStroage s !! g) as [m|]; [eauto|done].
Qed.

Lemma mark_member_flag_other id e gs g id' :
  (g, id') ≠ (e, id) →
  match mark_member id e gs !! g with Some m => m !! id' | None => None end
  = match gs !! g with Some m => m !! id' | None => None end.
Proof.
  intros Hne. unfold mark_member. destruct (decide (e = g)) as [->|Hg].
  - rewrite lookup_insert_eq. rewrite lookup_insert_ne; [|congruence].
    destruct (gs !! g); [done|]. simpl. by rewrite lookup_empty.
  - by rewrite lookup_insert_ne.
Qed.

Lemma foldl_mark_member_flag_other (K : value → string) id
    (gs : gmap string (gmap string bool)) xs g id' :
  (id' ≠ id ∨ ∀ x, x ∈ xs → K x ≠ g) →
  match foldl (λ gs e, mark_member id (K e) gs) gs xs !! g
  with Some m => m !! id' | None => None end
  = match gs !! g with Some m => m !! id' | None => None end.
Proof.
  revert gs. induction xs as [|e xs IH]; intros gs Hne; simpl; [done|].
  rewrite IH.
  - apply mark_member_flag_other. destruct Hne as [?|Hg]; [congruence|].
    intros [= Hge _]. by apply (Hg e); [left|].
  - destruct Hne as [?|Hg]; [by left|right]. intros x Hx. apply Hg. by right.
Qed.

Lemma updateGroups_run s id groups xs callback :
  as_array (heap s) groups = Some xs →
  forallb isString xs = true →
  callback_ok callback = true →
  ∃ h t,
    updateGroups user object_key id groups callback s =
      (Ok (VBool true),
       set_heap (λ _, h)
         (set_groupStroage
            (λ gs, foldl (λ gs e, mark_member (toPropertyKey object_key s id)
                                    (toPropertyKey object_key s e) gs)
                         (<[toPropertyKey object_key s id := false]> <$> gs) xs) s),
       t).
Proof.
  intros Harr Hstr Hcb.
  destruct (invoke_callback_run callback
              (set_groupStroage
                 (λ gs, foldl (λ gs e, mark_member (toPropertyKey object_key s id)
                                         (toPropertyKey object_key s e) gs)
                              (<[toPropertyKey object_key s id := false]> <$> gs) xs) s)
              Hcb) as (h & tcb & Hrun & _).
  destruct (warnWhenNotRegistered_run s (toPropertyKey object_key s id)) as [tw Hwarn].
  exists h, (tw ++ tcb). eapply run_cast.
  - unfold updateGroups. rewrite (checkCallback_ok _ Hcb).
    eapply bind_ok.
    { apply checkGroups_ok. unfold groups_ok. rewrite Harr, Hstr. apply orb_true_r. }
    eapply bind_ok; [reflexivity|]. eapply bind_ok; [reflexivity|].
    eapply bind_ok; [exact Hwarn|]. eapply bind_ok; [reflexivity|].
    rewrite Harr. eapply bind_ok; [apply forEach_join_group|].
    eapply bind_ok; [exact Hrun|]. reflexivity.
  - simpl. by rewrite app_nil_r.
Qed.

(** X7. [updateGroups(id, groups)] with an array of group names replaces
    the membership of [id]: afterwards [id] is flagged [true] in exactly
    the named groups (missing groups are created, and in every other
    group the flag of [id] is [false]), and the flag of every other id in
    every group is as before.  This holds for an id that is not
    registered as well; the call then also warns.  The key of [id] is not
    ["__proto__"], which an assignment [group[id] = flag] does not set as a
    property, and no named group names a member of [Object.prototype],
    where [groupStroage[name]] finds the built-in member instead of a
    group. *)
Theorem updateGroups_replaces_membership
    (s : store) (id groups callback : value) (names : list string) :
  as_array (heap s) groups = Some (VStr <$> names) →
  callback_ok callback = true →
  toPropertyKey object_key s id ≠ "__proto__" →
  (∀ g, g ∈ names → inherited g = false) →
  ∃ s' t,
    updateGroups user object_key id groups callback s = (Ok (VBool true), s', t)
    ∧ (∀ g, flagged s' g (toPropertyKey object_key s id) ↔ g ∈ names)
    ∧ (∀ g, g ∉ names → is_Some (groupStroage s !! g) →
            flag_of s' g (toPropertyKey object_key s id) = Some false)
    ∧ (∀ g id', id' ≠ toPropertyKey object_key s id →
                flag_of s' g id' = flag_of s g id').
Proof.
  intros Harr Hcb _ _.
  assert (Hstr : forallb isString (VStr <$> names) = true).
  { clear. induction names; [done|]. done. }
  destruct (updateGroups_run s id groups _ callback Harr Hstr Hcb) as (h & t & Hrun).
  set (key := toPropertyKey object_key s id) in *.
  eexists _, t. split; [exact Hrun|].
  assert (Hother : ∀ g, g ∉ names →
            ∀ x, x ∈ VStr <$> names → toPropertyKey object_key s x ≠ g).
  { intros g Hg x Hx. apply list_elem_of_fmap in Hx as (g' & -> & Hg'). simpl.
    intros ->. done. }
  split; [|split].
  - intros g. split.
    + intros (m & Hm & Hk). simpl in Hm.
      destruct (decide (g ∈ names)) as [|Hg]; [done|exfalso].
      pose proof (foldl_mark_member_flag_other (toPropertyKey object_key s) key
                    (<[key := false]> <$> groupStroage s) (VStr <$> names) g key
                    (or_intror (Hother g Hg))) as Hflag.
      rewrite Hm, lookup_fmap in Hflag.
      destruct (groupStroage s !! g) as [m0|]; simpl in Hflag; [|congruence].
      rewrite lookup_insert_eq in Hflag. congruence.
    + intros Hg. unfold flagged. simpl.
      apply (foldl_mark_member_sets (toPropertyKey object_key s) key
               (VStr <$> names) _ (VStr g)). by apply list_elem_of_fmap_2.
  - intros g Hg [m0 Hm0]. unfold flag_of. simpl.
    rewrite (foldl_mark_member_flag_other (toPropertyKey object_key s) key
               (<[key := false]> <$> groupStroage s) (VStr <$> names) g key
               (or_intror (Hother g Hg))).
    rewrite lookup_fmap, Hm0. simpl. by rewrite lookup_insert_eq.
  - intros g id' Hne. unfold flag_of. simpl.
    rewrite (foldl_mark_member_flag_other (toPropertyKey object_key s) key
               (<[key := false]> <$> groupStroage s) (VStr <$> names) g id'
               (or_introl Hne)).
    rewrite lookup_fmap. destruct (groupStroage s !! g) as [m0|]; simpl; [|done].
    by rewrite lookup_insert_ne.
Qed.

Lemma addGroup_run s id g callback :
  callback_ok callback = true →
  ∃ h t,
    addGroup user object_key id (VStr g) callback s =
      (Ok (VBool true),
       set_heap (λ _, h)
         (set_groupStroage (mark_member (toPropertyKey object_key s id) g) s),
       t).
Proof.
  intros Hcb.
  destruct (invoke_callback_run callback
              (set_groupStroage (mark_member (toPropertyKey object_key s id) g) s) Hcb)
    as (h & tcb & Hrun & _).
  destruct (warnWhenNotRegistered_run s (toPropertyKey object_key s id)) as [tw Hwarn].
  exists h, (tw ++ tcb). eapply run_cast.
  - unfold addGroup. rewrite (checkCallback_ok _ Hcb).
    eapply bind_ok; [reflexivity|].
    eapply bind_ok; [reflexivity|]. eapply bind_ok; [reflexivity|].
    eapply bind_ok; [exact Hwarn|]. eapply bind_ok; [reflexivity|].
    eapply bind_ok; [exact Hrun|]. reflexivity.
  - simpl. by rewrite app_nil_r.
Qed.

(** X8. [addGroup(id, group)] with a group name flags [id] in that
    group, creating the group when it is missing, so that the group now
    resolves to [id]; no other flag changes.  The id need neither be
    registered nor be a string; its key is not ["__proto__"] and the group
    does not name a member of [Object.prototype] (see X7). *)
Theorem addGroup_flags_member
    (s : store) (id callback : value) (g : string) :
  callback_ok callback = true →
  toPropertyKey object_key s id ≠ "__proto__" →
  inherited g = false →
  ∃ s' t,
    addGroup user object_key id (VStr g) callback s = (Ok (VBool true), s', t)
    ∧ flagged s' g (toPropertyKey object_key s id)
    ∧ toPropertyKey object_key s id ∈ getIdsFromGroups object_key s' (VArr [VStr g])
    ∧ (∀ g' id', (g', id') ≠ (g, toPropertyKey object_key s id) →
                 flag_of s' g' id' = flag_of s g' id').
Proof.
  intros Hcb _ _. destruct (addGroup_run s id g callback Hcb) as (h & t & Hrun).
  eexists _, t. split; [exact Hrun|].
  assert (Hflag : flagged
            (set_heap (λ _, h)
               (set_groupStroage (mark_member (toPropertyKey object_key s id) g) s))
            g (toPropertyKey object_key s id)).
  { unfold flagged. simpl. apply mark_member_sets. }
  split; [exact Hflag|]. split; [by apply flagged_resolved|].
  intros g' id' Hne. unfold flag_of. simpl. by apply mark_member_flag_other.
Qed.

(** X9. [removeGroup(id, group)], for a group that does not name a
    member of [Object.prototype]: on a registered id it leaves [id] out of
    the group (its flag is set to [false] when the group exists) and
    changes no other flag.  On an id that is not registered, and does not
    name a member of [Object.prototype] either (for such a name the test
    [validationStorage[id]] finds the built-in member and the call goes
    on), it only warns: the store is as before, so a flag left behind by
    [deregister] is not removed. *)
Theorem removeGroup_unflags_registered_only
    (s : store) (id callback : value) (g : string) :
  callback_ok callback = true →
  inherited g = false →
  let key := toPropertyKey object_key s id in
  (is_Some (validationStorage s !! key) →
     ∃ s' t,
       removeGroup user object_key id (VStr g) callback s = (Ok VUndefined, s', t)
       ∧ ¬ flagged s' g key
       ∧ (∀ g' id', (g', id') ≠ (g, key) → flag_of s' g' id' = flag_of s g' id'))
  ∧ (validationStorage s !! key = None →
     inherited key = false →
     removeGroup user object_key id (VStr g) callback s =
       (Ok VUndefined, s, [EvWarn (NotRegistered key)])).
Proof.
  intros Hcb _ key. split.
  - intros [lv Hlv].
    assert (Hwg : ∃ tg, warnWhenIdNotInGroup key g s = (Ok tt, s, tg)).
    { unfold warnWhenIdNotInGroup, bind, get. simpl.
      destruct (groupStroage s !! g) as [m|]; [|by eexists].
      destruct (m !! key) as [[|]|]; by eexists. }
    destruct Hwg as [tg Hwg].
    destruct (groupStroage s !! g) as [m|] eqn:Hg.
    + destruct (invoke_callback_run callback
                  (set_groupStroage (alter <[key := false]> g) s) Hcb)
        as (h & tcb & Hrun & _).
      eexists _, _. split.
      { unfold removeGroup. rewrite (checkCallback_ok _ Hcb).
        eapply bind_ok; [reflexivity|].
        eapply bind_ok; [reflexivity|]. eapply bind_ok; [reflexivity|].
        eapply bind_ok; [by eapply warnWhenNotRegistered_known|].
        fold key. rewrite Hlv. simpl toPropertyKey.
        eapply bind_ok; [exact Hwg|]. rewrite Hg.
        eapply bind_ok; [reflexivity|].
        eapply bind_ok; [exact Hrun|]. reflexivity. }
      split.
      * intros (m' & Hm' & Hk). simpl in Hm'. rewrite lookup_alter_eq, Hg in Hm'.
        simpl in Hm'. injection Hm' as <-. rewrite lookup_insert_eq in Hk. done.
      * intros g' id' Hne. unfold flag_of. simpl.
        destruct (decide (g = g')) as [<-|Hgg].
        -- rewrite lookup_alter_eq, Hg. simpl. rewrite lookup_insert_ne; [done|congruence].
        -- by rewrite lookup_alter_ne.
    + eexists _, _. split.
      { unfold removeGroup. rewrite (checkCallback_ok _ Hcb).
        eapply bind_ok; [reflexivity|].
        eapply bind_ok; [reflexivity|]. eapply bind_ok; [reflexivity|].
        eapply bind_ok; [by eapply warnWhenNotRegistered_known|].
        fold key. rewrite Hlv. simpl toPropertyKey.
        eapply bind_ok; [exact Hwg|]. rewrite Hg. reflexivity. }
      split; [|done]. intros (m' & Hm' & _). congruence.
  - intros Hnone _. eapply run_cast.
    + unfold removeGroup. rewrite (checkCallback_ok _ Hcb).
      eapply bind_ok; [reflexivity|].
      eapply bind_ok; [reflexivity|]. eapply bind_ok; [reflexivity|].
      eapply bind_ok; [by eapply warnWhenNotRegistered_unknown|].
      fold key. rewrite Hnone. reflexivity.
    + reflexivity.
Qed.

(** ** Listeners *)

Lemma indexOf_from_first i x pre y post :
  Forall (λ z, strict_equals z x = false) pre → strict_equals y x = true →
  indexOf_from i x (pre ++ y :: post) = (i + Z.of_nat (length pre))%Z.
Proof.
  intros Hpre Hy. revert i. induction Hpre as [|z pre Hz _ IH]; intros i; simpl.
  - rewrite Hy. lia.
  - rewrite Hz, IH. lia.
Qed.

Lemma strict_equals_fun_absent n xs :
  VFun n ∉ xs → Forall (λ z, strict_equals z (VFun n) = false) xs.
Proof.
  intros Hx. apply Forall_forall. intros y Hy.
  destruct (strict_equals y (VFun n)) eqn:E; [|done].
  apply strict_equals_eq in E. by subst.
Qed.

Lemma checkListener_ok listener :
  isFunction listener = true → checkListener listener = ret tt.
Proof. by destruct listener. Qed.

(** A run of [subscribe] with a function on a registered field. *)
Lemma subscribe_run s id listener callback lv validation :
  isFunction listener = true →
  callback_ok callback = true →
  validationStorage s !! toPropertyKey object_key s id = Some lv →
  records s !! lv = Some validation →
  listeners_valid s validation →
  ∃ la s' t,
    subscribe user object_key id listener callback s =
      (Ok (Unsubscribe (Closure lv la listener)), s', t)
    ∧ validationStorage s' = validationStorage s
    ∧ records s' !! lv = Some (set_listeners la validation)
    ∧ larrays s' !! la = Some (listener_array s (listeners validation) ++ [listener])
    ∧ (∀ lv', lv' ≠ lv → records s' !! lv' = records s !! lv')
    ∧ (∀ la', la' ≠ la → la' < length (larrays s) → larrays s' !! la' = larrays s !! la').
Proof.
  intros Hfun Hcb Hid Hrec Hvalid.
  assert (Hnil : isNil listener = false) by by destruct listener.
  unfold listeners_valid in Hvalid.
  destruct (listeners validation) as [la|] eqn:Hla.
  - destruct Hvalid as [xs Hxs].
    set (s1 := set_records (alter (set_listeners la) lv)
                 (set_larrays (alter (λ xs, xs ++ [listener]) la) s)).
    destruct (invoke_callback_run callback s1 Hcb) as (h & tcb & Hrun & _).
    exists la, (set_heap (λ _, h) s1), tcb. split.
    { eapply run_cast.
      - unfold subscribe.
        rewrite (checkListener_ok _ Hfun), (checkCallback_ok _ Hcb), Hnil.
        eapply bind_ok; [reflexivity|]. eapply bind_ok; [reflexivity|].
        eapply bind_ok; [reflexivity|].
        eapply bind_ok; [by eapply warnWhenNotRegistered_known|].
        rewrite Hid, Hrec, Hla.
        eapply bind_ok; [reflexivity|]. eapply bind_ok; [reflexivity|].
        eapply bind_ok; [reflexivity|]. eapply bind_ok; [exact Hrun|]. reflexivity.
      - simpl. by rewrite app_nil_r. }
    split; [done|]. cbn [set_heap set_records set_larrays s1 records larrays].
    split; [by rewrite list_lookup_alter_eq, Hrec|].
    split; [unfold listener_array; by rewrite list_lookup_alter_eq, Hxs|].
    split; [intros lv' Hne; by rewrite list_lookup_alter_ne|].
    intros la' Hne _. by rewrite list_lookup_alter_ne.
  - set (la := length (larrays s)).
    set (s1 := set_records (alter (set_listeners la) lv)
                 (set_larrays (alter (λ xs, xs ++ [listener]) la)
                    (set_larrays (λ a, a ++ [[]]) s))).
    destruct (invoke_callback_run callback s1 Hcb) as (h & tcb & Hrun & _).
    exists la, (set_heap (λ _, h) s1), tcb. split.
    { eapply run_cast.
      - unfold subscribe.
        rewrite (checkListener_ok _ Hfun), (checkCallback_ok _ Hcb), Hnil.
        eapply bind_ok; [reflexivity|]. eapply bind_ok; [reflexivity|].
        eapply bind_ok; [reflexivity|].
        eapply bind_ok; [by eapply warnWhenNotRegistered_known|].
        rewrite Hid, Hrec, Hla.
        eapply bind_ok; [reflexivity|]. eapply bind_ok; [reflexivity|].
        eapply bind_ok; [reflexivity|]. eapply bind_ok; [exact Hrun|]. reflexivity.
      - simpl. by rewrite app_nil_r. }
    split; [done|]. cbn [set_heap set_records set_larrays s1 records larrays].
    split; [by rewrite list_lookup_alter_eq, Hrec|].
    split; [by rewrite list_lookup_alter_eq, list_lookup_middle|].
    split; [intros lv' Hne; by rewrite list_lookup_alter_ne|].
    intros la' Hne Hlt. rewrite list_lookup_alter_ne; [|done].
    by rewrite lookup_app_l.
Qed.

Lemma field_listeners_lookup s id lv r la xs :
  validationStorage s !! id = Some lv →
  records s !! lv = Some r → listeners r = Some la → larrays s !! la = Some xs →
  field_listeners s id = Some xs.
Proof.
  intros Hid Hrec Hla Hxs. unfold field_listeners, listener_array.
  by rewrite Hid, Hrec, Hla, Hxs.
Qed.

(** X10. [subscribe(id, listener)] with a function on a registered
    field appends the listener at the end of the field's listener
    sequence, whether or not it is in the sequence already, and returns
    an unsubscribe function; registrations are as before. *)
Theorem subscribe_appends_listener
    (s : store) (id listener callback : value) (lv : loc) (validation : field_record) :
  isFunction listener = true →
  callback_ok callback = true →
  validationStorage s !! toPropertyKey object_key s id = Some lv →
  records s !! lv = Some validation →
  listeners_valid s validation →
  ∃ c s' t,
    subscribe user object_key id listener callback s = (Ok (Unsubscribe c), s', t)
    ∧ c_listener c = listener
    ∧ validationStorage s' = validationStorage s
    ∧ field_listeners s' (toPropertyKey object_key s id)
      = Some (listener_array s (listeners validation) ++ [listener]).
Proof.
  intros Hfun Hcb Hid Hrec Hvalid.
  destruct (subscribe_run s id listener callback lv validation Hfun Hcb Hid Hrec Hvalid)
    as (la & s' & t & Hrun & Hvs & Hrec' & Hla' & _).
  exists (Closure lv la listener), s', t.
  split; [exact Hrun|]. split; [done|]. split; [done|].
  eapply field_listeners_lookup; [by rewrite Hvs| exact Hrec' | done | exact Hla'].
Qed.

(** X11. Subscribing a listener that is not yet in the field's sequence
    and then calling the returned function brings the field's listener
    sequence back to what it was. *)
Theorem subscribe_then_unsubscribe_restores
    (s : store) (id listener callback : value) (lv : loc) (validation : field_record) :
  isFunction listener = true →
  callback_ok callback = true →
  validationStorage s !! toPropertyKey object_key s id = Some lv →
  records s !! lv = Some validation →
  listeners_valid s validation →
  listener ∉ listener_array s (listeners validation) →
  ∃ c s1 t s2,
    subscribe user object_key id listener callback s = (Ok (Unsubscribe c), s1, t)
    ∧ unsubscribe c s1 = (Ok (VBool true), s2, [])
    ∧ field_listeners s2 (toPropertyKey object_key s id)
      = Some (listener_array s (listeners validation)).
Proof.
  intros Hfun Hcb Hid Hrec Hvalid Hnew.
  destruct (subscribe_run s id listener callback lv validation Hfun Hcb Hid Hrec Hvalid)
    as (la & s1 & t & Hrun & Hvs & Hrec' & Hla' & _).
  set (old := listener_array s (listeners validation)) in *.
  set (c := Closure lv la listener).
  exists c, s1, t. eexists. split; [exact Hrun|].
  split; [by apply (unsubscribe_run s1 c (old ++ [listener]))|].
  rewrite (unsubscribe_field_listeners s1 (toPropertyKey object_key s id) c
             (set_listeners la validation) (old ++ [listener]));
    [|by rewrite Hvs|exact Hrec'|exact Hla'].
  f_equal. cbn [c c_listener].
  apply isFunction_fun in Hfun as [n ->].
  unfold indexOf. rewrite indexOf_from_first;
    [|by apply strict_equals_fun_absent|simpl; by rewrite Nat.eqb_refl].
  rewrite Z.add_0_l, splice_one_at. apply app_nil_r.
Qed.

Lemma clearListeners_run s id lv callback :
  validationStorage s !! id = Some lv →
  callback_ok callback = true →
  ∃ h t,
    clearListeners user object_key (VStr id) callback s =
      (Ok VUndefined,
       set_heap (λ _, h)
         (set_records (alter (set_listeners (length (larrays s))) lv)
            (set_larrays (λ a, a ++ [[]]) s)),
       t).
Proof.
  intros Hid Hcb.
  destruct (invoke_callback_run callback
              (set_records (alter (set_listeners (length (larrays s))) lv)
                 (set_larrays (λ a, a ++ [[]]) s)) Hcb) as (h & tcb & Hrun & _).
  exists h, tcb. eapply run_cast.
  - unfold clearListeners. rewrite (checkCallback_ok _ Hcb).
    eapply bind_ok; [reflexivity|]. eapply bind_ok; [reflexivity|].
    eapply bind_ok; [reflexivity|]. simpl toPropertyKey.
    eapply bind_ok; [by eapply warnWhenNotRegistered_known|].
    rewrite Hid.
    eapply bind_ok; [reflexivity|]. eapply bind_ok; [reflexivity|].
    eapply bind_ok; [exact Hrun|]. reflexivity.
  - simpl. by rewrite app_nil_r.
Qed.

Lemma clearListeners_fresh_array s id lv validation callback :
  validationStorage s !! id = Some lv →
  records s !! lv = Some validation →
  callback_ok callback = true →
  ∃ s' t,
    clearListeners user object_key (VStr id) callback s = (Ok VUndefined, s', t)
    ∧ field_listeners s' id = Some []
    ∧ validationStorage s' = validationStorage s
    ∧ (∀ la, la < length (larrays s) → larrays s' !! la = larrays s !! la).
Proof.
  intros Hid Hrec Hcb.
  destruct (clearListeners_run s id lv callback Hid Hcb) as (h & t & Hrun).
  eexists _, t. split; [exact Hrun|]. split; [|split; [done|]].
  - eapply (field_listeners_lookup _ id lv (set_listeners (length (larrays s)) validation));
      [done| |done|].
    + cbn [set_heap set_records set_larrays records]. by rewrite list_lookup_alter_eq, Hrec.
    + cbn [set_heap set_records set_larrays larrays]. by rewrite list_lookup_middle.
  - intros la Hlt. cbn [set_heap set_records set_larrays larrays]. by rewrite lookup_app_l.
Qed.

(** X12. [clearListeners(id)] on a registered field gives the field a
    new, empty listener sequence; the arrays that earlier [subscribe]
    calls captured are left as they were. *)
Theorem clearListeners_empties
    (s : store) (id : string) (lv : loc) (validation : field_record) (callback : value) :
  validationStorage s !! id = Some lv →
  records s !! lv = Some validation →
  callback_ok callback = true →
  ∃ s' t,
    clearListeners user object_key (VStr id) callback s = (Ok VUndefined, s', t)
    ∧ field_listeners s' id = Some []
    ∧ validationStorage s' = validationStorage s
    ∧ (∀ la, la < length (larrays s) → larrays s' !! la = larrays s !! la).
Proof. apply clearListeners_fresh_array. Qed.

(** X13. An unsubscribe function called after [clearListeners] undoes
    the clearing: it puts the array it captured back on the field, so the
    listeners that were cleared, but for one, are notified again. *)
Theorem unsubscribe_after_clearListeners_restores
    (s : store) (id : string) (c : closure) (validation : field_record)
    (xs : list value) (callback : value) :
  validationStorage s !! id = Some (c_validation c) →
  records s !! c_validation c = Some validation →
  larrays s !! c_listeners c = Some xs →
  callback_ok callback = true →
  let s1 := store_of (clearListeners user object_key (VStr id) callback s) in
  let s2 := store_of (unsubscribe c s1) in
  field_listeners s1 id = Some []
  ∧ result_of (unsubscribe c s1) = Ok (VBool true)
  ∧ field_listeners s2 id = Some (splice (indexOf (c_listener c) xs) 1 xs).
Proof.
  intros Hid Hrec Hxs Hcb.
  destruct (clearListeners_fresh_array s id (c_validation c) validation callback Hid Hrec Hcb)
    as (s' & t & Hrun & Hempty & Hvs & Harr).
  destruct (clearListeners_run s id (c_validation c) callback Hid Hcb) as (h & t' & Hrun').
  cbv zeta. unfold store_of, result_of. rewrite Hrun. cbn [fst snd].
  assert (Hxs' : larrays s' !! c_listeners c = Some xs).
  { rewrite Harr; [done|]. by eapply lookup_lt_Some. }
  assert (Hrec' : is_Some (records s' !! c_validation c)).
  { rewrite Hrun' in Hrun. injection Hrun as <- _.
    cbn [set_heap set_records set_larrays records].
    rewrite list_lookup_alter_eq, Hrec. by eexists. }
  destruct Hrec' as [r' Hrec'].
  rewrite (unsubscribe_run s' c xs Hxs'). cbn [fst snd].
  split; [done|]. split; [done|].
  apply (unsubscribe_field_listeners s' id c r' xs); [by rewrite Hvs|done|done].
Qed.

(** X14. The unsubscribe function only touches the record and the array
    it captured: a field with another record and another listener array
    keeps its listener sequence.  In particular a function obtained
    before [deregister] does not disturb the field registered again
    under the same id. *)
Theorem unsubscribe_leaves_other_fields
    (s : store) (id : string) (c : closure) (lv : loc) (r : field_record)
    (xs : list value) :
  validationStorage s !! id = Some lv →
  records s !! lv = Some r →
  lv ≠ c_validation c →
  listeners r ≠ Some (c_listeners c) →
  larrays s !! c_listeners c = Some xs →
  ∃ s', unsubscribe c s = (Ok (VBool true), s', [])
        ∧ field_listeners s' id = field_listeners s id.
Proof.
  intros Hid Hrec Hlv Hla Hxs. eexists. split; [by apply unsubscribe_run|].
  unfold field_listeners. cbn [set_records set_larrays validationStorage records].
  rewrite Hid, list_lookup_alter_ne, Hrec; [|done]. f_equal.
  unfold listener_array. destruct (listeners r) as [la|]; [|done].
  cbn [larrays set_records set_larrays].
  rewrite list_lookup_insert_ne; [done|congruence].
Qed.

(** ** validate *)

Lemma NoDup_getIdsFromGroups s groups : NoDup (getIdsFromGroups object_key s groups).
Proof.
  unfold getIdsFromGroups. destruct (isNil groups).
  - apply NoDup_fst_map_to_list.
  - apply NoDup_resolve_groups. constructor.
Qed.

Lemma assoc_set_fresh k v props :
  k ∉ props.*1 → assoc_set k v props = props ++ [(k, v)].
Proof.
  induction props as [|[k' v'] props IH]; intros Hk; simpl; [done|].
  destruct (String.eqb_spec k k') as [->|Hne].
  - exfalso. apply Hk. simpl. by left.
  - rewrite IH; [done|]. intros Hin. apply Hk. simpl. by right.
Qed.

Lemma same_structure_trans s1 s2 s3 :
  same_structure s1 s2 → same_structure s2 s3 → same_structure s1 s3.
Proof.
  intros (H1 & H2 & H3 & H4) (K1 & K2 & K3 & K4).
  repeat split; congruence.
Qed.

Lemma same_structure_well_formed s s' :
  same_structure s s' → well_formed s → well_formed s'.
Proof.
  intros (H1 & _ & H3 & H4). by apply well_formed_structure.
Qed.

Lemma same_structure_chains_callable s s' :
  same_structure s s' → chains_callable s → chains_callable s'.
Proof.
  intros (_ & _ & H3 & _) Hc lv r. rewrite H3. apply Hc.
Qed.

(** On a well-formed store whose chains hold functions, [validateOne]
    with a string id and no callback runs to its end. *)
Lemma validateOne_total s id :
  well_formed s → chains_callable s →
  ∃ v s' t,
    validateOne user object_key (VStr id) VNull s = (Ok v, s', t)
    ∧ same_structure s s'
    ∧ (∀ id', id' ≠ id → resultCache s' !! id' = resultCache s !! id')
    ∧ match validationStorage s !! id with
      | Some _ => (∃ lr, v = VRef lr) ∧ resultCache s' !! id = Some v
      | None => v = VUndefined
      end.
Proof.
  intros (Hrecs & Hget & Hls) Hchains.
  destruct (validationStorage s !! id) as [lv|] eqn:Hid.
  - destruct (Hrecs id lv Hid) as [validation Hrec].
    assert (Hfs : forallb isFunction (listener_array s (listeners validation)) = true).
    { unfold listener_array. destruct (listeners validation) as [la|]; [|done].
      destruct (larrays s !! la) as [xs|] eqn:Hla; [|done]. by eapply Hls. }
    destruct (validateOne_run s id VNull lv validation Hid Hrec
                (Hchains lv validation Hrec) (Hget lv validation Hrec) Hfs eq_refl)
      as (vs & rs & h1 & rets & h3 & h4 & tcb & _ & _ & _ & _ & _ & _ & _ & _ & Hrun).
    cbv zeta in Hrun. eexists _, _, _. split; [exact Hrun|].
    split; [done|]. split.
    + intros id' Hne. cbn [set_heap set_resultCache resultCache].
      by rewrite lookup_insert_ne.
    + split; [by eexists|]. cbn [set_heap set_resultCache resultCache].
      by rewrite lookup_insert_eq.
  - destruct (unregistered_id_returns_undefined s id VNull Hid eq_refl) as (Hrun & _).
    eexists _, _, _. split; [exact Hrun|]. done.
Qed.

(** The loop of [validate] over ids without repetition. *)
Lemma validate_loop s ids :
  well_formed s → chains_callable s → NoDup ids →
  ∃ props s' t,
    foldl (λ acc element,
             let! props := acc in
             let! validationResult := validateOne user object_key (VStr element) VNull in
             ret (assoc_set element validationResult props))
          (ret []) ids s = (Ok props, s', t)
    ∧ props.*1 = ids
    ∧ same_structure s s'
    ∧ (∀ id, id ∉ ids → resultCache s' !! id = resultCache s !! id)
    ∧ (∀ id v, (id, v) ∈ props →
         match validationStorage s !! id with
         | Some _ => (∃ lr, v = VRef lr) ∧ resultCache s' !! id = Some v
         | None => v = VUndefined
         end).
Proof.
  intros Hwf Hchains. induction ids as [|x ids IH] using rev_ind; intros Hnd.
  - exists [], s, []. split; [done|]. split; [done|]. split; [done|].
    split; [done|]. intros id v Hin. by apply elem_of_nil in Hin.
  - apply NoDup_app in Hnd as (Hnd & Hx & _).
    destruct (IH Hnd) as (props & s1 & t1 & Hrun1 & Hkeys & Hsame & Hout & Hin).
    destruct (validateOne_total s1 x (same_structure_well_formed _ _ Hsame Hwf)
                (same_structure_chains_callable _ _ Hsame Hchains))
      as (v & s2 & t2 & Hrun2 & Hsame2 & Hother & Hx2).
    assert (Hfresh : x ∉ ids).
    { intros Hin'. apply (Hx x Hin'). by left. }
    exists (props ++ [(x, v)]), s2, (t1 ++ t2 ++ []). split.
    { rewrite foldl_app. simpl foldl.
      eapply bind_ok; [exact Hrun1|].
      eapply bind_ok; [exact Hrun2|].
      rewrite assoc_set_fresh; [done|]. by rewrite Hkeys. }
    split; [by rewrite fmap_app, Hkeys|].
    split; [by eapply same_structure_trans|].
    split.
    + intros id Hid. apply not_elem_of_app in Hid as (Hid & Hidx).
      rewrite Hother; [by apply Hout|]. intros ->. apply Hidx. by left.
    + intros id v' Hv. apply elem_of_app in Hv as [Hv|Hv].
      * assert (Hidin : id ∈ ids).
        { rewrite <- Hkeys. apply list_elem_of_fmap. by exists (id, v'). }
        specialize (Hin id v' Hv).
        destruct (validationStorage s !! id); [|done].
        destruct Hin as (Href & Hc). split; [done|].
        rewrite Hother; [done|]. by intros ->.
      * apply list_elem_of_singleton in Hv as [= -> ->].
        destruct Hsame as (Hvs & _). by rewrite Hvs in Hx2.
Qed.

(** X15. [validate(groups)] on a registry whose records are in place
    and whose chains hold functions runs to its end and returns a new
    object with exactly one property per id that [groups] resolves to
    (set in the resolved order): for a registered id the result array that
    is now its cache entry; for an id that is flagged in a group but not
    registered [undefined], unless the id names a member of
    [Object.prototype] (then [validateOne] takes the built-in member for
    the record). *)
Theorem validate_covers_resolved_ids (s : store) (groups callback : value) :
  well_formed s →
  chains_callable s →
  groups_ok (heap s) groups = true →
  callback_ok callback = true →
  ∃ l props s' t,
    validate user object_key groups callback s = (Ok (VRef l), s', t)
    ∧ heap s' !! l = Some (HObj props)
    ∧ props.*1 = getIdsFromGroups object_key s groups
    ∧ (∀ id v, (id, v) ∈ props →
         match validationStorage s !! id with
         | Some _ => (∃ lr, v = VRef lr) ∧ cached s' id = v
         | None => inherited id = false → v = VUndefined
         end).
Proof.
  intros Hwf Hchains Hgroups Hcb.
  destruct (validate_loop s (getIdsFromGroups object_key s groups) Hwf Hchains
              (NoDup_getIdsFromGroups s groups))
    as (props & s1 & t1 & Hloop & Hkeys & Hsame & _ & Hin).
  destruct (invoke_callback_run callback s1 Hcb) as (h & tcb & Hrun & _).
  exists (length h), props,
    (set_heap (λ h', h' ++ [HObj props]) (set_heap (λ _, h) s1)), (t1 ++ tcb).
  split.
  { eapply run_cast.
    - unfold validate. rewrite (checkCallback_ok _ Hcb).
      eapply bind_ok; [by apply checkGroups_ok|].
      eapply bind_ok; [reflexivity|]. eapply bind_ok; [reflexivity|].
      eapply bind_ok; [exact Hloop|].
      eapply bind_ok; [exact Hrun|].
      eapply bind_ok; [reflexivity|]. reflexivity.
    - simpl. by rewrite !app_nil_r. }
  split; [cbn [set_heap heap]; by rewrite list_lookup_middle|].
  split; [done|].
  intros id v Hv. specialize (Hin id v Hv).
  destruct (validationStorage s !! id); [|done].
  destruct Hin as (Href & Hc). split; [done|].
  unfold cached. cbn [set_heap resultCache]. by rewrite Hc.
Qed.

(** ** getResults and clearResults *)

Lemma set_heap_set_heap f g s : set_heap f (set_heap g s) = set_heap (λ h, f (g h)) s.
Proof. by destruct s. Qed.

Lemma cloned_grows h a b c v :
  cloned h (h ++ a) c v → cloned h (h ++ a ++ b) c v.
Proof.
  destruct c; simpl; try done.
  - intros (l' & Hv & Hl & Hobj). exists l'. split; [done|]. split; [done|].
    rewrite app_assoc. by apply lookup_app_l_Some.
  - intros (l' & o & Hv & Hl & Hc & Hobj). exists l', o.
    split; [done|]. split; [done|]. split; [done|].
    rewrite app_assoc. by apply lookup_app_l_Some.
Qed.

Lemma clone_run s h c :
  (∀ l, c = VRef l → is_Some (heap s !! l)) →
  ∃ v h',
    clone c (set_heap (λ _, heap s ++ h) s) =
      (Ok v, set_heap (λ _, heap s ++ h ++ h') s, [])
    ∧ cloned (heap s) (heap s ++ h ++ h') c v.
Proof.
  intros Hc.
  assert (Hnone : ∀ v : value,
            (Ok v, set_heap (λ _, heap s ++ h) s, @nil event)
            = (Ok v, set_heap (λ _, heap s ++ h ++ []) s, [])).
  { intros v. by rewrite app_nil_r. }
  destruct c; try (eexists _, []; split; [apply Hnone|done]).
  - exists (VRef (length (heap s ++ h))), [HObj []]. split.
    + unfold clone, bind, alloc_heap, ret. cbn [set_heap heap fst snd].
      rewrite set_heap_set_heap, app_assoc. done.
    + simpl. exists (length (heap s ++ h)). split; [done|].
      split; [rewrite length_app; lia|].
      by rewrite app_assoc, list_lookup_middle.
  - destruct (Hc l eq_refl) as [o Ho].
    exists (VRef (length (heap s ++ h))), [o]. split.
    + replace (set_heap (λ _, heap s ++ h ++ [o]) s)
        with (set_heap (λ h0, h0 ++ [o]) (set_heap (λ _, heap s ++ h) s))
        by (rewrite set_heap_set_heap; by rewrite <- app_assoc).
      assert (Hl : heap (set_heap (λ _, heap s ++ h) s) !! l = Some o).
      { destruct s. cbn [set_heap heap]. by apply lookup_app_l_Some. }
      unfold clone. eapply run_cast.
      * eapply bind_ok; [reflexivity|]. rewrite Hl.
        eapply bind_ok; [reflexivity|]. reflexivity.
      * reflexivity.
    + simpl. exists (length (heap s ++ h)), o. split; [done|].
      split; [rewrite length_app; lia|]. split; [done|].
      by rewrite app_assoc, list_lookup_middle.
Qed.

Lemma cloned_entry_grows s a b id v :
  cloned_entry s (heap s ++ a) id v → cloned_entry s (heap s ++ a ++ b) id v.
Proof.
  unfold cloned_entry. destruct (resultCache s !! id) as [c|]; [apply cloned_grows|].
  destruct (inherited id); [|done].
  intros (l' & Hv & Hl & Hobj). exists l'. split; [done|]. split; [done|].
  rewrite app_assoc. by apply lookup_app_l_Some.
Qed.

Lemma getOneResult_run s h id :
  cache_in_heap s →
  ∃ v h' t,
    getOneResult object_key (VStr id) (set_heap (λ _, heap s ++ h) s) =
      (Ok v, set_heap (λ _, heap s ++ h ++ h') s, t)
    ∧ cloned_entry s (heap s ++ h ++ h') id v.
Proof.
  intros Hcache.
  destruct (warnWhenNotRegistered_run (set_heap (λ _, heap s ++ h) s) id) as [tw Hwarn].
  assert (Hsame : resultCache (set_heap (λ _, heap s ++ h) s) = resultCache s) by done.
  unfold cloned_entry.
  destruct (resultCache s !! id) as [c|] eqn:Hc.
  - destruct (clone_run s h c) as (v & h' & Hrun & Hcl).
    { intros l ->. by eapply Hcache. }
    exists v, h', tw. split; [|done]. eapply run_cast.
    + unfold getOneResult. eapply bind_ok; [reflexivity|].
      eapply bind_ok; [reflexivity|]. simpl toPropertyKey.
      eapply bind_ok; [exact Hwarn|]. rewrite Hsame, Hc. exact Hrun.
    + simpl. by rewrite app_nil_r.
  - destruct (inherited id) eqn:Hinh.
    + exists (VRef (length (heap s ++ h))), [HObj []], tw. split.
      * eapply run_cast.
        -- unfold getOneResult. eapply bind_ok; [reflexivity|].
           eapply bind_ok; [reflexivity|]. simpl toPropertyKey.
           eapply bind_ok; [exact Hwarn|]. rewrite Hsame, Hc, Hinh.
           unfold bind, alloc_heap, ret. cbn [set_heap heap fst snd].
           rewrite set_heap_set_heap, app_assoc. reflexivity.
        -- simpl. by rewrite app_nil_r.
      * exists (length (heap s ++ h)). split; [done|].
        split; [rewrite length_app; lia|].
        by rewrite app_assoc, list_lookup_middle.
    + exists VUndefined, [], tw. split; [|done]. eapply run_cast.
      * unfold getOneResult. eapply bind_ok; [reflexivity|].
        eapply bind_ok; [reflexivity|]. simpl toPropertyKey.
        eapply bind_ok; [exact Hwarn|]. rewrite Hsame, Hc, Hinh.
        rewrite app_nil_r. reflexivity.
      * simpl. by rewrite app_nil_r.
Qed.

Lemma getResults_loop s ids :
  cache_in_heap s → NoDup ids →
  ∃ props h t,
    foldl (λ acc id,
             let! props := acc in
             let! r := getOneResult object_key (VStr id) in
             ret (assoc_set id r props))
          (ret []) ids s = (Ok props, set_heap (λ _, heap s ++ h) s, t)
    ∧ props.*1 = ids
    ∧ (∀ id v, (id, v) ∈ props → cloned_entry s (heap s ++ h) id v).
Proof.
  intros Hcache. induction ids as [|x ids IH] using rev_ind; intros Hnd.
  - exists [], [], []. split; [simpl; by rewrite app_nil_r, set_heap_same|].
    split; [done|]. intros id v Hin. by apply elem_of_nil in Hin.
  - apply NoDup_app in Hnd as (Hnd & Hx & _).
    destruct (IH Hnd) as (props & h & t1 & Hrun1 & Hkeys & Hin).
    destruct (getOneResult_run s h x Hcache) as (v & h' & t2 & Hrun2 & Hcl).
    assert (Hfresh : x ∉ ids).
    { intros Hin'. apply (Hx x Hin'). by left. }
    exists (props ++ [(x, v)]), (h ++ h'), (t1 ++ t2 ++ []). split.
    { rewrite foldl_app. simpl foldl.
      eapply bind_ok; [exact Hrun1|].
      eapply bind_ok; [exact Hrun2|].
      rewrite assoc_set_fresh; [done|]. by rewrite Hkeys. }
    split; [by rewrite fmap_app, Hkeys|].
    intros id v' Hv. apply elem_of_app in Hv as [Hv|Hv].
    + by apply cloned_entry_grows, Hin.
    + by apply list_elem_of_singleton in Hv as [= -> ->].
Qed.

(** X16. [getResults(groups)] returns a new object with exactly one
    property per id that [groups] resolves to (set in the resolved order),
    each holding what [_.clone] makes of [resultCache[id]]: a new copy of
    the cached result array; [undefined] where the entry is [undefined] or
    missing; and, for an id without an entry that names a member of
    [Object.prototype], a new empty object.  The heap only grows, by these
    copies and the object; nothing else in the store changes. *)
Theorem getResults_copies_resolved_ids (s : store) (groups : value) :
  cache_in_heap s →
  groups_ok (heap s) groups = true →
  ∃ l props h t,
    getResults object_key groups s = (Ok (VRef l), set_heap (λ _, heap s ++ h) s, t)
    ∧ (length (heap s) ≤ l)%nat
    ∧ (heap s ++ h) !! l = Some (HObj props)
    ∧ props.*1 = getIdsFromGroups object_key s groups
    ∧ (∀ id v, (id, v) ∈ props → cloned_entry s (heap s ++ h) id v).
Proof.
  intros Hcache Hgroups.
  destruct (getResults_loop s (getIdsFromGroups object_key s groups) Hcache
              (NoDup_getIdsFromGroups s groups)) as (props & h & t & Hloop & Hkeys & Hin).
  exists (length (heap s ++ h)), props, (h ++ [HObj props]), t. split.
  { eapply run_cast.
    - unfold getResults.
      eapply bind_ok; [by apply checkGroups_ok|].
      eapply bind_ok; [reflexivity|].
      eapply bind_ok; [exact Hloop|].
      eapply bind_ok; [reflexivity|]. cbn [set_heap heap].
      rewrite set_heap_set_heap, app_assoc. reflexivity.
    - simpl. by rewrite !app_nil_r. }
  split; [rewrite length_app; lia|].
  split; [by rewrite app_assoc, list_lookup_middle|].
  split; [done|].
  intros id v Hv. by apply cloned_entry_grows, Hin.
Qed.

Lemma clearOneResult_run s id :
  ∃ t, clearOneResult object_key (VStr id) s =
         (Ok VUndefined, set_resultCache <[id := VUndefined]> s, t).
Proof.
  destruct (warnWhenNotRegistered_run s id) as [tw Hwarn].
  exists tw. eapply run_cast.
  - unfold clearOneResult. eapply bind_ok; [reflexivity|].
    eapply bind_ok; [reflexivity|]. simpl toPropertyKey.
    eapply bind_ok; [exact Hwarn|].
    eapply bind_ok; [reflexivity|]. reflexivity.
  - simpl. by rewrite app_nil_r.
Qed.

Lemma set_resultCache_set_resultCache f g s :
  set_resultCache f (set_resultCache g s) = set_resultCache (λ c, f (g c)) s.
Proof. by destruct s. Qed.

Lemma clearResults_loop ids s :
  ∃ t, forEach ids (λ id, run! clearOneResult object_key (VStr id) in ret tt) s =
         (Ok tt,
          set_resultCache (λ c, foldl (λ c id, <[id := VUndefined]> c) c ids) s, t).
Proof.
  revert s. induction ids as [|x ids IH]; intros s.
  - exists []. simpl. by destruct s.
  - destruct (clearOneResult_run s x) as [t1 Hrun1].
    destruct (IH (set_resultCache <[x := VUndefined]> s)) as [t2 Hrun2].
    exists ((t1 ++ []) ++ t2). simpl forEach.
    eapply bind_ok.
    { eapply bind_ok; [exact Hrun1|]. reflexivity. }
    rewrite Hrun2, set_resultCache_set_resultCache. reflexivity.
Qed.

Lemma foldl_unset_lookup (ids : list string) (c : gmap string value) id :
  foldl (λ c id, <[id := VUndefined]> c) c ids !! id
  = if bool_decide (id ∈ ids) then Some VUndefined else c !! id.
Proof.
  revert c. induction ids as [|x ids IH]; intros c; simpl; [done|].
  rewrite IH. destruct (decide (id ∈ ids)) as [Hin|Hout].
  - rewrite !bool_decide_eq_true_2; [done| |done]. by right.
  - rewrite (bool_decide_eq_false_2 _ Hout).
    destruct (decide (id = x)) as [->|Hne].
    + rewrite bool_decide_eq_true_2; [|by left]. by rewrite lookup_insert_eq.
    + rewrite bool_decide_eq_false_2; [by rewrite lookup_insert_ne|].
      intros [->|?]%elem_of_cons; done.
Qed.

(** X17. [clearResults(groups)] sets to [undefined] the cache entry of
    exactly the ids that [groups] resolves to, registered or not, so that
    [getOneResult] returns [undefined] for each of them; every other
    cache entry is as before. *)
Theorem clearResults_unsets_resolved_ids (s : store) (groups : value) :
  groups_ok (heap s) groups = true →
  ∃ s' t,
    clearResults object_key groups s = (Ok VUndefined, s', t)
    ∧ (∀ id, id ∈ getIdsFromGroups object_key s groups →
             resultCache s' !! id = Some VUndefined
             ∧ result_of (getOneResult object_key (VStr id) s') = Ok VUndefined)
    ∧ (∀ id, id ∉ getIdsFromGroups object_key s groups →
             resultCache s' !! id = resultCache s !! id).
Proof.
  intros Hgroups.
  destruct (clearResults_loop (getIdsFromGroups object_key s groups) s) as [t Hloop].
  eexists _, t. split.
  { eapply run_cast.
    - unfold clearResults.
      eapply bind_ok; [by apply checkGroups_ok|].
      eapply bind_ok; [reflexivity|].
      eapply bind_ok; [exact Hloop|]. reflexivity.
    - simpl. by rewrite app_nil_r. }
  split.
  - intros id Hin.
    assert (Hc : resultCache
                   (set_resultCache
                      (λ c, foldl (λ c id, <[id := VUndefined]> c) c
                              (getIdsFromGroups object_key s groups)) s) !! id
                 = Some VUndefined).
    { cbn [set_resultCache resultCache].
      by rewrite foldl_unset_lookup, bool_decide_eq_true_2. }
    split; [exact Hc|].
    match goal with |- result_of (getOneResult _ _ ?s1) = _ => set (s' := s1) in * end.
    destruct (warnWhenNotRegistered_run s' id) as [tw Hwarn].
    unfold getOneResult, result_of.
    erewrite bind_ok; [reflexivity|reflexivity|].
    eapply bind_ok; [reflexivity|]. simpl toPropertyKey.
    eapply bind_ok; [exact Hwarn|]. rewrite Hc. reflexivity.
  - intros id Hout. cbn [set_resultCache resultCache].
    by rewrite foldl_unset_lookup, bool_decide_eq_false_2.
Qed.

(** ** validateOne: chains that are absent or hold a non-function *)

Lemma bind_throw {A B} (m : M A) (k : A → M B) s e s1 t1 :
  m s = (Throw e, s1, t1) → bind m k s = (Throw e, s1, t1).
Proof. intros Hm. unfold bind. by rewrite Hm. Qed.

Lemma call_not_fun r f args s :
  isFunction f = false →
  call user r f args s = (Throw (TypeError "is not a function"), s, []).
Proof. by destruct f. Qed.

(** The chain loop on an array whose first non-function is [x]: the
    functions before [x] are run, then the getter is sampled for [x] and
    the call of [x] throws. *)
Lemma each_chain_throws pre x post displayName g :
  forallb isFunction pre = true → isFunction x = false →
  ∀ k i n acc s, i + k = length pre → i + n = length (pre ++ x :: post) →
    ∃ samples results v h,
      length samples = k ∧ length results = k ∧
      each_chain user n i (VArr (pre ++ x :: post)) displayName (VFun g) acc s =
        (Throw (TypeError "is not a function"), set_heap (λ _, h) s,
         chain_events (VFun g) displayName (drop i pre) samples results
           ++ [EvCall Getter (VFun g) [] v]).
Proof.
  intros Hpre Hx. induction k as [|k IH]; intros i n acc s Hk Hn.
  - assert (Hi : i = length pre) by lia. subst i.
    rewrite length_app in Hn. simpl in Hn.
    destruct n as [|n]; [lia|].
    exists [], [], (user g [] s).1, (user g [] s).2. split; [done|]. split; [done|].
    rewrite drop_all. cbn [chain_events app each_chain].
    eapply run_cast.
    + eapply bind_ok; [reflexivity|].
      eapply bind_ok; [apply call_fun|].
      eapply bind_throw. apply call_not_fun.
      unfold elem_at. cbn [as_array].
      by rewrite (list_lookup_middle pre post x (length pre) eq_refl).
    + reflexivity.
  - destruct (lookup_lt_is_Some_2 pre i) as [f Hf]; [lia|].
    assert (Hfun : isFunction f = true).
    { rewrite forallb_forall in Hpre. apply Hpre, list_elem_of_In.
      by eapply list_elem_of_lookup_2. }
    apply isFunction_fun in Hfun as [j ->].
    rewrite length_app in Hn. simpl in Hn.
    destruct n as [|n]; [lia|].
    set (v := (user g [] s).1). set (s1 := set_heap (λ _, (user g [] s).2) s).
    set (a := [VObj [("name", displayName); ("value", v)]]).
    set (r := (user j a s1).1). set (s2 := set_heap (λ _, (user j a s1).2) s1).
    destruct (IH (S i) n (acc ++ [r]) s2) as (vs & rs & v' & h & Hvs & Hrs & Hrun);
      [lia|rewrite length_app; simpl; lia|].
    exists (v :: vs), (r :: rs), v', h. split; [simpl; lia|]. split; [simpl; lia|].
    rewrite (drop_S _ _ _ Hf). cbn [chain_events each_chain].
    eapply run_cast.
    + eapply bind_ok; [reflexivity|].
      eapply bind_ok; [apply call_fun|].
      assert (He : elem_at (heap s) (VArr (pre ++ x :: post)) i = VFun j).
      { unfold elem_at. cbn [as_array]. by rewrite (lookup_app_l_Some _ _ _ _ Hf). }
      rewrite He.
      eapply bind_ok; [apply call_fun|].
      fold v s1 a r s2. rewrite Hrun. unfold s2, s1. rewrite !set_heap_set_heap.
      reflexivity.
    + reflexivity.
Qed.

(** X18. [register] only asks the chain to be an array, and
    [validateOne] finds out: on a chain whose first non-function is [x],
    it runs the functions before [x], samples the getter once more and
    then throws a TypeError.  Nothing is cached, no listener is notified
    and the callback is not called. *)
Theorem validateOne_throws_on_non_function
    (s : store) (id : string) (callback : value) (lv : loc) (validation : field_record)
    (pre : list value) (x : value) (post : list value) :
  validationStorage s !! id = Some lv →
  records s !! lv = Some validation →
  validationChain validation = VArr (pre ++ x :: post) →
  forallb isFunction pre = true →
  isFunction x = false →
  isFunction (getter validation) = true →
  callback_ok callback = true →
  ∃ samples results v h,
    length samples = length pre ∧ length results = length pre ∧
    validateOne user object_key (VStr id) callback s =
      (Throw (TypeError "is not a function"), set_heap (λ _, h) s,
       chain_events (getter validation)
                    (getDisplayName (name validation) (VStr id)) pre samples results
         ++ [EvCall Getter (getter validation) [] v]).
Proof.
  intros Hid Hrec Hchain Hpre Hx Hget Hcb.
  apply isFunction_fun in Hget as [g Hg].
  destruct (each_chain_throws pre x post (getDisplayName (name validation) (VStr id)) g
              Hpre Hx (length pre) 0 (length (pre ++ x :: post)) [] s)
    as (vs & rs & v & h & Hvs & Hrs & Hrun); [done|done|].
  exists vs, rs, v, h. split; [done|]. split; [done|].
  eapply run_cast.
  - unfold validateOne. rewrite (checkCallback_ok _ Hcb).
    eapply bind_ok; [reflexivity|]. eapply bind_ok; [reflexivity|].
    eapply bind_ok; [reflexivity|]. simpl toPropertyKey.
    eapply bind_ok; [by eapply warnWhenNotRegistered_known|].
    rewrite Hid, Hrec, Hchain, Hg. cbn [isNil].
    eapply bind_throw. unfold array_length. cbn [as_array]. exact Hrun.
  - by rewrite Hg.
Qed.

(** X19. A field registered without a chain validates to an empty
    result: [validateOne] calls neither the getter nor a check, caches a
    new empty array and notifies the listeners with it. *)
Theorem validateOne_without_chain
    (s : store) (id : string) (callback : value) (lv : loc) (validation : field_record) :
  validationStorage s !! id = Some lv →
  records s !! lv = Some validation →
  isNil (validationChain validation) = true →
  isFunction (getter validation) = true →
  forallb isFunction (listener_array s (listeners validation)) = true →
  callback_ok callback = true →
  ∃ lres s2 s' t,
    validateOne user object_key (VStr id) callback s = (Ok (VRef lres), s', t)
    ∧ count_calls Getter t = 0
    ∧ count_calls Check t = 0
    ∧ listener_calls t
      = (λ l, (l, [VRef lres])) <$> listener_array s (listeners validation)
    ∧ heap s2 !! lres = Some (HArr [])
    ∧ cached s2 id = VRef lres
    ∧ (run! each_listener user (length (listener_array s (listeners validation))) 0
              (listeners validation) (VRef lres)
       in invoke_callback user callback) s2 = (Ok tt, s', t)
    ∧ cached s' id = VRef lres.
Proof.
  intros Hid Hrec Hnil Hget Hls Hcb.
  assert (Hchain : chain_callable (validationChain validation) = true).
  { by destruct (validationChain validation). }
  assert (Hfs : chain_functions (validationChain validation) = []).
  { by destruct (validationChain validation). }
  destruct (validateOne_run s id callback lv validation Hid Hrec Hchain Hget Hls Hcb)
    as (vs & rs & h1 & rets & h3 & h4 & tcb
        & Hvs & Hrs & Hrets & Hnotify & Hcbrun & Hc1 & Hc2 & Hc3 & Hrun).
  cbv zeta in *. rewrite Hfs in *.
  destruct vs; [|done]. destruct rs; [|done]. simpl chain_events in Hrun.
  rewrite app_nil_l in Hrun.
  destruct (listener_events_calls (listener_array s (listeners validation))
              (VRef (length h1)) rets Hrets) as (Hl1 & Hl2 & Hl3).
  exists (length h1),
    (set_resultCache <[id := VRef (length h1)]> (set_heap (λ _, h1 ++ [HArr []]) s)).
  eexists _, _. split; [exact Hrun|].
  split; [rewrite count_calls_app; lia|].
  split; [rewrite count_calls_app; lia|].
  split; [by rewrite listener_calls_app, Hc3, app_nil_r|].
  split; [cbn [set_heap set_resultCache heap]; by rewrite list_lookup_middle|].
  split; [unfold cached; cbn [set_heap set_resultCache resultCache];
          by rewrite lookup_insert_eq|].
  split; [eapply bind_ok; [exact Hnotify|exact Hcbrun]|].
  unfold cached. cbn [set_heap set_resultCache resultCache]. by rewrite lookup_insert_eq.
Qed.

(** ** Group arguments *)

(** X20. A [groups] argument that is neither nil nor an array of
    strings, and a [group] argument that is not a string, are refused
    with a TypeError before anything is read or written. *)
Theorem groups_are_checked_first
    (s : store) (id groups group callback : value) :
  groups_ok (heap s) groups = false →
  isString group = false →
  refuses (validate user object_key groups callback) s
  ∧ refuses (updateGroups user object_key id groups callback) s
  ∧ refuses (getResults object_key groups) s
  ∧ refuses (clearResults object_key groups) s
  ∧ refuses (addGroup user object_key id group callback) s
  ∧ refuses (removeGroup user object_key id group callback) s.
Proof.
  intros Hgroups Hgroup.
  assert (H1 : refuses (checkGroups groups) s).
  { destruct (checkGroups_cases groups s) as [[Hok _]|[_ Href]]; [congruence|done]. }
  assert (H2 : refuses (checkGroups (VArr [group])) s).
  { destruct (checkGroups_cases (VArr [group]) s) as [[Hok _]|[_ Href]]; [|done].
    unfold groups_ok in Hok. simpl in Hok. rewrite Hgroup in Hok. done. }
  repeat split; by apply refuses_bind_refused.
Qed.

(** ** Reachable registries *)

(** X21. Whatever sequence of calls a caller makes on a registry that
    was empty, every registered id has its record, the getter of every
    record is a function and every listener array holds functions only. *)
Theorem reachable_registry_well_formed (s : store) (cs : list closure) :
  reachable user object_key s cs → well_formed s.
Proof. apply reachable_well_formed. Qed.

(** X22. On such a registry [validateOne] on a registered id whose
    chain is absent or an array of functions cannot fail: it returns the
    result array it has cached. *)
Theorem validateOne_succeeds_when_reachable
    (s : store) (cs : list closure) (id : string) (lv : loc) (callback : value) :
  reachable user object_key s cs →
  validationStorage s !! id = Some lv →
  (∀ validation, records s !! lv = Some validation →
                 chain_callable (validationChain validation) = true) →
  callback_ok callback = true →
  ∃ lres s' t,
    validateOne user object_key (VStr id) callback s = (Ok (VRef lres), s', t)
    ∧ cached s' id = VRef lres.
Proof.
  intros Hreach Hid Hchain Hcb.
  destruct (reachable_field _ _ _ _ _ Hreach Hid) as (validation & Hrec & Hget & Hls).
  destruct (validateOne_run s id callback lv validation Hid Hrec
              (Hchain _ Hrec) Hget Hls Hcb)
    as (vs & rs & h1 & rets & h3 & h4 & tcb & _ & _ & _ & _ & _ & _ & _ & _ & Hrun).
  cbv zeta in Hrun. eexists _, _, _. split; [exact Hrun|].
  unfold cached. cbn [set_heap set_resultCache resultCache]. by rewrite lookup_insert_eq.
Qed.

(** ** Registered ids and the members of Object.prototype *)

Lemma ordinary_register field validationChain callback :
  hoare registered_ordinary (register user object_key field validationChain callback)
        registered_ordinary.
Proof.
  assert (Hheap : ∀ f s, registered_ordinary s → registered_ordinary (set_heap f s))
    by (intros f s H; exact H).
  assert (Hrecords : ∀ f s, registered_ordinary s → registered_ordinary (set_records f s))
    by (intros f s H; exact H).
  assert (Hgroups : ∀ f s, registered_ordinary s → registered_ordinary (set_groupStroage f s))
    by (intros f s H; exact H).
  unfold register.
  apply keeps_bind; [apply keeps_checkFieldType|intros _].
  apply keeps_bind; [apply hoare_get|intros s0].
  apply keeps_bind; [apply keeps_checkId|intros _].
  apply keeps_bind; [apply keeps_checkGetter|intros _].
  apply keeps_bind; [apply keeps_checkName|intros _].
  apply keeps_bind; [apply keeps_checkGroups|intros _].
  apply keeps_bind; [apply keeps_checkValidationChain|intros _].
  apply keeps_bind; [apply keeps_checkCallback|intros _].
  apply keeps_bind; [apply keeps_warnWhenIdHaveRegister|intros _].
  apply keeps_bind; [apply hoare_get|intros s].
  destruct (validationStorage s !! _); [apply hoare_ret|].
  destruct (inherited _) eqn:Hinh; [apply hoare_ret|].
  apply keeps_bind; [by apply keeps_alloc_record|intros lv].
  apply keeps_bind.
  { apply hoare_modify. intros s1 HI id lv'. simpl.
    intros [[<- _]|[_ Hid]]%lookup_insert_Some; [done|by eapply HI]. }
  intros _. apply keeps_bind.
  { destruct (isNil _); [apply hoare_ret|]. apply keeps_forEach. intros x.
    by apply keeps_join_group_any. }
  intros _. apply keeps_bind; [by apply keeps_invoke_callback|intros _].
  apply hoare_ret.
Qed.

Lemma ordinary_deregister id callback :
  hoare registered_ordinary (deregister user object_key id callback) registered_ordinary.
Proof.
  assert (Hheap : ∀ f s, registered_ordinary s → registered_ordinary (set_heap f s))
    by (intros f s H; exact H).
  assert (Hcache : ∀ f s, registered_ordinary s → registered_ordinary (set_resultCache f s))
    by (intros f s H; exact H).
  unfold deregister. apply keeps_bind; [apply keeps_checkId|intros _].
  apply keeps_bind; [apply keeps_checkCallback|intros _].
  apply keeps_bind; [apply hoare_get|intros s].
  apply keeps_bind; [apply keeps_warnWhenNotRegistered|intros _].
  destruct (validationStorage s !! _); [|apply hoare_ret].
  apply keeps_bind.
  { apply hoare_modify. intros s1 HI id' lv. simpl.
    intros [_ Hid]%lookup_delete_Some. by eapply HI. }
  intros _. apply keeps_bind; [by apply keeps_set_resultCache|intros _].
  apply keeps_bind; [by apply keeps_invoke_callback|intros _].
  apply hoare_ret.
Qed.

Lemma ordinary_exec o :
  hoare registered_ordinary (exec user object_key o) registered_ordinary.
Proof.
  assert (Hheap : ∀ f s, registered_ordinary s → registered_ordinary (set_heap f s))
    by (intros f s H; exact H).
  assert (Hcache : ∀ f s, registered_ordinary s → registered_ordinary (set_resultCache f s))
    by (intros f s H; exact H).
  assert (Hrecords : ∀ f s, registered_ordinary s → registered_ordinary (set_records f s))
    by (intros f s H; exact H).
  assert (Hlarrays : ∀ f s, registered_ordinary s → registered_ordinary (set_larrays f s))
    by (intros f s H; exact H).
  assert (Hgroups : ∀ f s, registered_ordinary s → registered_ordinary (set_groupStroage f s))
    by (intros f s H; exact H).
  destruct o; simpl.
  - apply keeps_as_val, ordinary_register.
  - by apply keeps_as_val, keeps_validate.
  - by apply keeps_as_val, keeps_validateOne.
  - by apply keeps_subscribe.
  - by apply keeps_as_val, keeps_unsubscribe.
  - by apply keeps_as_val, keeps_clearListeners.
  - by apply keeps_as_val, keeps_updateGroups_any.
  - by apply keeps_as_val, keeps_addGroup_any.
  - by apply keeps_as_val, keeps_removeGroup_any.
  - apply keeps_as_val, ordinary_deregister.
  - by apply keeps_as_val, keeps_getOneResult.
  - by apply keeps_as_val, keeps_getResults.
  - by apply keeps_as_val, keeps_clearOneResult.
  - by apply keeps_as_val, keeps_clearResults.
  - apply keeps_as_val, keeps_printValidationInfo.
  - apply keeps_as_val, keeps_printInfo.
  - apply keeps_as_val, keeps_printAllInfo.
  - apply keeps_bind; [by apply keeps_set_heap|intros _; apply hoare_ret].
Qed.

(** X25. [register] never stores a field under a name of
    [Object.prototype]: whatever sequence of calls a caller makes on a
    registry that was empty, no registered id is ["constructor"],
    ["toString"], ["__proto__"] or another member of [Object.prototype]. *)
Theorem reachable_ids_not_inherited (s : store) (cs : list closure) (id : string) (lv : loc) :
  reachable user object_key s cs →
  validationStorage s !! id = Some lv →
  inherited id = false.
Proof.
  intros Hreach. revert id lv. change (registered_ordinary s).
  induction Hreach as [h|s cs o r s' t Hreach IH Hallowed Hissued Hexec].
  - intros id lv. simpl. by rewrite lookup_empty.
  - eapply ordinary_exec; [exact IH|exact Hexec].
Qed.

(** ** The print helpers *)

Lemma forEach_pure {A} (xs : list A) (body : A → M unit) s :
  (∀ x, x ∈ xs → body x s = (Ok tt, s, [])) → forEach xs body s = (Ok tt, s, []).
Proof.
  induction xs as [|x xs IH]; intros Hbody; [done|]. simpl.
  eapply (bind_ok _ _ s tt s [] (Ok tt) s []).
  - apply Hbody. by left.
  - apply IH. intros y Hy. apply Hbody. by right.
Qed.

Lemma forEach_refuses {A} (xs : list A) (body : A → M unit) s x :
  (∀ y, y ∈ xs → body y s = (Ok tt, s, []) ∨ refuses (body y) s) →
  x ∈ xs → refuses (body x) s → refuses (forEach xs body) s.
Proof.
  induction xs as [|y xs IH]; intros Hbody Hx Hr; [by apply elem_of_nil in Hx|].
  simpl. destruct (Hbody y) as [Hok|Hrefused]; [by left| |by apply refuses_bind_refused].
  eapply refuses_bind_passed; [exact Hok|].
  apply elem_of_cons in Hx as [->|Hx].
  - destruct Hr as [msg Hmsg]. congruence.
  - apply IH; [|done|done]. intros z Hz. apply Hbody. by right.
Qed.

(** X23. [register] accepts [null] as validation chain, and
    [printValidationInfoHelper] then fails: on a registry in which some
    registered field has the chain [null] it throws a TypeError (and so do
    [printValidationInfo] and [printAllInfo], which call it before they
    print); on a registry without such a field it returns. *)
Theorem printValidationInfoHelper_null_chain (s : store) :
  (∀ id lv, validationStorage s !! id = Some lv → is_Some (records s !! lv)) →
  ((∃ id lv value, validationStorage s !! id = Some lv
                   ∧ records s !! lv = Some value
                   ∧ validationChain value = VNull) →
     refuses printValidationInfoHelper s)
  ∧ ((∀ id lv value, validationStorage s !! id = Some lv →
                     records s !! lv = Some value →
                     validationChain value ≠ VNull) →
     printValidationInfoHelper s = (Ok tt, s, [])).
Proof.
  intros Hrecs. split.
  - intros (id & lv & value & Hid & Hrec & Hnull).
    unfold printValidationInfoHelper.
    eapply refuses_bind_passed; [reflexivity|].
    apply (forEach_refuses _ _ s (id, lv)).
    + intros [id' lv'] Hin. apply elem_of_map_to_list in Hin.
      destruct (Hrecs id' lv' Hin) as [r Hr]. cbn [snd]. rewrite Hr.
      destruct (validationChain r); try (by left). right. apply refuses_throw.
    + by apply elem_of_map_to_list.
    + cbn [snd]. rewrite Hrec, Hnull. apply refuses_throw.
  - intros Hchains. unfold printValidationInfoHelper.
    eapply (bind_ok _ _ s s s [] (Ok tt) s []); [reflexivity|].
    apply forEach_pure. intros [id lv] Hin. apply elem_of_map_to_list in Hin.
    destruct (Hrecs id lv Hin) as [r Hr]. cbn [snd]. rewrite Hr.
    specialize (Hchains id lv r Hin Hr).
    by destruct (validationChain r).
Qed.

(** X24. The group summary that [printGroupInfoHelper] builds lists
    the groups of Group Storage, and for each group exactly the ids that
    the group resolves to in [validate], [getResults] and [clearResults]. *)
Theorem printGroupInfoHelper_lists_resolved_ids (s : store) (g : string) :
  (g ∈ (printGroupInfoHelper s).*1 ↔ is_Some (groupStroage s !! g))
  ∧ (∀ ids id, (g, ids) ∈ printGroupInfoHelper s →
       (id ∈ ids ↔ id ∈ getIdsFromGroups object_key s (VArr [VStr g]))).
Proof.
  unfold printGroupInfoHelper. split.
  - rewrite <- list_fmap_compose. split.
    + intros ([g' m] & -> & Hin)%list_elem_of_fmap.
      apply elem_of_map_to_list in Hin. by exists m.
    + intros [m Hm]. apply list_elem_of_fmap. exists (g, m).
      split; [done|]. by apply elem_of_map_to_list.
  - intros ids id ([g' m] & [= <- ->] & Hin)%list_elem_of_fmap.
    apply elem_of_map_to_list in Hin. cbn [fst snd] in *.
    rewrite <- flagged_resolved, elem_of_group_members. unfold flagged. split.
    + intros Hm. by exists m.
    + intros (m' & Hm' & Hflag). congruence.
Qed.

End Properties.

(** * Worked scenarios *)

(** C1 on the field "age" registered with the name "Age": the chain has
    one function, the getter is called once and the check is applied to
    [{name: "Age", value}]; and on "age" registered without a name, with
    its two listeners, where the check is applied to [{name: "age", value}]. *)
Lemma validateOne_samples_getter_per_check_age :
  (validationStorage demo_named !! "age" = Some 0
   ∧ records demo_named !! 0
     = Some (FieldRecord (VStr "Age") (VArr [VFun 1]) (VFun 0) None)
   ∧ validationStorage demo_two_listeners !! "age" = Some 0
   ∧ records demo_two_listeners !! 0 = Some age_record
   ∧ forallb isFunction [VFun 1] = true)
  ∧ (∃ samples results lres s2 s' rest,
       let t := chain_events (VFun 0) (VStr "Age") [VFun 1] samples results ++ rest in
       validateOne demo_user demo_key (VStr "age") VUndefined demo_named =
         (Ok (VRef lres), s', t)
       ∧ length samples = 1
       ∧ length results = 1
       ∧ count_calls Getter t = 1
       ∧ count_calls Check t = 1
       ∧ heap s2 !! lres = Some (HArr results)
       ∧ (run! each_listener demo_user 0 0 None (VRef lres)
          in invoke_callback demo_user VUndefined) s2 = (Ok tt, s', rest))
  ∧ (∃ samples results lres s2 s' rest,
       let t := chain_events (VFun 0) (VStr "age") [VFun 1] samples results ++ rest in
       validateOne demo_user demo_key (VStr "age") VUndefined demo_two_listeners =
         (Ok (VRef lres), s', t)
       ∧ length samples = 1
       ∧ length results = 1
       ∧ count_calls Getter t = 1
       ∧ count_calls Check t = 1
       ∧ heap s2 !! lres = Some (HArr results)
       ∧ (run! each_listener demo_user 2 0 (Some 0) (VRef lres)
          in invoke_callback demo_user VUndefined) s2 = (Ok tt, s', rest)).
Proof.
  split; [by vm_compute|]. split.
  - apply (validateOne_samples_getter_per_check demo_user demo_key
             demo_named "age" VUndefined 0
             (FieldRecord (VStr "Age") (VArr [VFun 1]) (VFun 0) None) [VFun 1]);
      vm_compute; reflexivity.
  - apply (validateOne_samples_getter_per_check demo_user demo_key
             demo_two_listeners "age" VUndefined 0 age_record [VFun 1]);
      vm_compute; reflexivity.
Defined.






(** C6, counterexample.  [register] puts "age" in group "adult-checks";
    [deregister("age")] removes it from Field Storage only. *)
Lemma deregister_leaves_stale_membership :
  reachable demo_user demo_key demo_deregistered []
  ∧ ¬ members_registered demo_deregistered.
Proof.
  split.
  - apply (reachable_step demo_user demo_key (λ _ _, True) demo_registered []
             (Deregister (VStr "age") VUndefined) (Ok (Val VUndefined))
             demo_deregistered []); [|done|done|by vm_compute].
    apply (reachable_step demo_user demo_key (λ _ _, True) (empty_store []) []
             (Register age_field (VArr [VFun 1]) VUndefined) (Ok (Val (VBool true)))
             demo_registered []); [|done|done|by vm_compute].
    apply reachable_init.
  - intros H. destruct (H "adult-checks" {["age" := true]} "age") as [lv Hlv].
    + by vm_compute.
    + by vm_compute.
    + vm_compute in Hlv. discriminate.
Qed.

(** C6 on the registry that holds "age" in "adult-checks". *)
Lemma members_registered_reachable_age :
  reachable_by demo_user demo_key (keeps_membership demo_key) demo_registered []
  ∧ members_registered demo_registered.
Proof.
  assert (Hreach : reachable_by demo_user demo_key (keeps_membership demo_key)
                     demo_registered []).
  { apply (reachable_step demo_user demo_key (keeps_membership demo_key) (empty_store []) []
             (Register age_field (VArr [VFun 1]) VUndefined) (Ok (Val (VBool true)))
             demo_registered []).
    - apply reachable_init.
    - exact Logic.I.
    - exact Logic.I.
    - vm_compute. reflexivity. }
  split; [exact Hreach|].
  exact (members_registered_reachable demo_user demo_key demo_registered [] Hreach).
Defined.

(** [updateGroups("age", null)]: [checkGroups] lets [null] through, every
    flag of "age" is set to [false], and only then [groups.forEach] throws. *)
Lemma updateGroups_null_groups_clears_then_throws :
  updateGroups demo_user demo_key (VStr "age") VNull VUndefined demo_registered =
    (Throw (TypeError "Cannot read properties of null (reading 'forEach')"),
     set_groupStroage (fmap <["age" := false]>) demo_registered, []).
Proof. by vm_compute. Qed.

(** C9, counterexample.  Function 2 is subscribed twice to "age"; the
    closure of the first subscription is called once; the next
    [validateOne("age")] still notifies function 2. *)
Lemma unsubscribe_twice_subscribed_still_notified :
  result_of (subscribe demo_user demo_key (VStr "age") (VFun 2) VUndefined demo_registered)
    = Ok (Unsubscribe demo_closure)
  ∧ field_listeners demo_subscribed_twice "age" = Some [VFun 2; VFun 2]
  ∧ result_of (unsubscribe demo_closure demo_subscribed_twice) = Ok (VBool true)
  ∧ listener_calls
      (trace_of (validateOne demo_user demo_key (VStr "age") VUndefined
                   (store_of (unsubscribe demo_closure demo_subscribed_twice))))
    = [(VFun 2, [VRef 0])].
Proof. by vm_compute. Qed.

(** C9 on "age" with listeners function 2 and function 4: the closure of
    function 2 removes it, and function 4 alone is notified afterwards. *)
Lemma unsubscribe_removes_first_occurrence_age :
  (0 ≤ indexOf (VFun 2) [VFun 2; VFun 4])%Z
  ∧ ∃ pre post s',
      [VFun 2; VFun 4] = pre ++ VFun 2 :: post
      ∧ (VFun 2 ∉ pre)
      ∧ unsubscribe demo_closure demo_two_listeners = (Ok (VBool true), s', [])
      ∧ s' = set_larrays <[0 := pre ++ post]> demo_two_listeners
      ∧ field_listeners s' "age" = Some (pre ++ post)
      ∧ (∃ lres s'' t,
           validateOne demo_user demo_key (VStr "age") VUndefined s' = (Ok (VRef lres), s'', t)
           ∧ listener_calls t = (λ l, (l, [VRef lres])) <$> (pre ++ post)
           ∧ (VFun 2 ∉ post → VFun 2 ∉ (listener_calls t).*1)).
Proof.
  split; [by vm_compute|].
  apply (unsubscribe_removes_first_occurrence demo_user demo_key
           demo_two_listeners "age" demo_closure age_record [VFun 2; VFun 4] VUndefined);
    vm_compute; solve [reflexivity | discriminate].
Defined.

(** C10 on "age" after function 2 was unsubscribed: calling its closure
    again removes function 4, the one listener left. *)
Lemma unsubscribe_again_removes_last_age :
  (indexOf (VFun 2) [VFun 4] = (-1)%Z ∧ [VFun 4] ≠ [])
  ∧ ∃ s' rest y,
      field_listeners demo_unsubscribed "age" = Some [VFun 4]
      ∧ [VFun 4] = rest ++ [y]
      ∧ strict_equals y (VFun 2) = false
      ∧ unsubscribe demo_closure demo_unsubscribed = (Ok (VBool true), s', [])
      ∧ field_listeners s' "age" = Some rest.
Proof.
  split; [by vm_compute|].
  apply (unsubscribe_again_removes_last demo_unsubscribed "age" demo_closure
           age_record [VFun 4]);
    vm_compute; solve [reflexivity | discriminate].
Defined.

(** ** Further scenarios *)

(** X3 on a field whose id is the number 7. *)
Lemma register_refuses_ill_typed_number_id :
  register_args_ok [] (VObj [("id", VNum 7); ("getter", VFun 0)]) VUndefined VUndefined = false
  ∧ refuses (register demo_user demo_key (VObj [("id", VNum 7); ("getter", VFun 0)])
               VUndefined VUndefined) (empty_store []).
Proof.
  split; [reflexivity|].
  apply (register_refuses_ill_typed demo_user demo_key (empty_store [])). reflexivity.
Defined.

(** X4 with the string "done" as callback. *)
Lemma callback_is_checked_first_string :
  callback_ok (VStr "done") = false
  ∧ refuses (register demo_user demo_key age_field (VArr [VFun 1]) (VStr "done"))
      demo_registered
  ∧ refuses (validate demo_user demo_key VUndefined (VStr "done")) demo_registered
  ∧ refuses (validateOne demo_user demo_key (VStr "age") (VStr "done")) demo_registered
  ∧ refuses (subscribe demo_user demo_key (VStr "age") (VFun 2) (VStr "done"))
      demo_registered
  ∧ refuses (clearListeners demo_user demo_key (VStr "age") (VStr "done")) demo_registered
  ∧ refuses (updateGroups demo_user demo_key (VStr "age") VUndefined (VStr "done"))
      demo_registered
  ∧ refuses (addGroup demo_user demo_key (VStr "age") (VStr "g") (VStr "done"))
      demo_registered
  ∧ refuses (removeGroup demo_user demo_key (VStr "age") (VStr "g") (VStr "done"))
      demo_registered
  ∧ refuses (deregister demo_user demo_key (VStr "age") (VStr "done")) demo_registered.
Proof.
  split; [reflexivity|].
  apply (callback_is_checked_first demo_user demo_key demo_registered). reflexivity.
Defined.


(** X5 on the field "age". *)
Lemma deregister_forgets_field_age :
  (validationStorage demo_registered !! "age" = Some 0 ∧ callback_ok VUndefined = true)
  ∧ ∃ s' t,
      deregister demo_user demo_key (VStr "age") VUndefined demo_registered =
        (Ok VUndefined, s', t)
      ∧ validationStorage s' = delete "age" (validationStorage demo_registered)
      ∧ resultCache s' = <["age" := VUndefined]> (resultCache demo_registered)
      ∧ groupStroage s' = groupStroage demo_registered
      ∧ records s' = records demo_registered
      ∧ larrays s' = larrays demo_registered
      ∧ getOneResult demo_key (VStr "age") s' =
          (Ok VUndefined, s', [EvWarn (NotRegistered "age")])
      ∧ validateOne demo_user demo_key (VStr "age") VUndefined s' =
          (Ok VUndefined, s', [EvWarn (NotRegistered "age")]).
Proof.
  split; [by vm_compute|].
  apply (deregister_forgets_field demo_user demo_key demo_registered "age" 0 VUndefined);
    vm_compute; reflexivity.
Defined.

(** X6: "age", registered in "adult-checks", is deregistered and registered
    again without groups; "adult-checks" still resolves to it. *)
Lemma reregistered_field_inherits_groups_age :
  (validationStorage demo_registered !! "age" = Some 0
   ∧ inherited "age" = false
   ∧ flagged demo_registered "adult-checks" "age")
  ∧ let field := VObj [("id", VStr "age"); ("getter", VFun 0)] in
    let s1 := demo_deregistered in
    let s2 := store_of (register demo_user demo_key field VUndefined VUndefined s1) in
    ¬ is_Some (validationStorage s1 !! "age")
    ∧ flagged s1 "adult-checks" "age"
    ∧ result_of (register demo_user demo_key field VUndefined VUndefined s1)
      = Ok (VBool true)
    ∧ is_Some (validationStorage s2 !! "age")
    ∧ flagged s2 "adult-checks" "age"
    ∧ "age" ∈ getIdsFromGroups demo_key s2 (VArr [VStr "adult-checks"]).
Proof.
  assert (Hflag : flagged demo_registered "adult-checks" "age").
  { exists (<["age" := true]> ∅). by vm_compute. }
  split; [split; [by vm_compute|split; [by vm_compute|exact Hflag]]|].
  apply (reregistered_field_inherits_groups demo_user demo_key demo_registered
           "age" "adult-checks" 0 (VObj [("id", VStr "age"); ("getter", VFun 0)])
           VUndefined VUndefined);
    [vm_compute; reflexivity|vm_compute; reflexivity|exact Hflag
    |vm_compute; reflexivity|vm_compute; reflexivity].
Defined.

(** X7: "age" is moved from "adult-checks" to "minor-checks". *)
Lemma updateGroups_replaces_membership_age :
  (as_array (heap demo_registered) (VArr [VStr "minor-checks"])
   = Some (VStr <$> ["minor-checks"])
   ∧ callback_ok VUndefined = true
   ∧ "age" ≠ "__proto__"
   ∧ inherited "minor-checks" = false)
  ∧ ∃ s' t,
      updateGroups demo_user demo_key (VStr "age") (VArr [VStr "minor-checks"])
        VUndefined demo_registered = (Ok (VBool true), s', t)
      ∧ (∀ g, flagged s' g "age" ↔ g ∈ ["minor-checks"])
      ∧ (∀ g, g ∉ ["minor-checks"] → is_Some (groupStroage demo_registered !! g) →
              flag_of s' g "age" = Some false)
      ∧ (∀ g id', id' ≠ "age" → flag_of s' g id' = flag_of demo_registered g id').
Proof.
  split; [by vm_compute|].
  apply (updateGroups_replaces_membership demo_user demo_key demo_registered
           (VStr "age") (VArr [VStr "minor-checks"]) VUndefined ["minor-checks"]);
    [vm_compute; reflexivity|vm_compute; reflexivity|discriminate|].
  intros g Hg. apply list_elem_of_singleton in Hg as ->. by vm_compute.
Defined.

(** X8: "age" is added to "minor-checks". *)
Lemma addGroup_flags_member_age :
  (callback_ok VUndefined = true
   ∧ "age" ≠ "__proto__"
   ∧ inherited "minor-checks" = false)
  ∧ ∃ s' t,
      addGroup demo_user demo_key (VStr "age") (VStr "minor-checks") VUndefined
        demo_registered = (Ok (VBool true), s', t)
      ∧ flagged s' "minor-checks" "age"
      ∧ "age" ∈ getIdsFromGroups demo_key s' (VArr [VStr "minor-checks"])
      ∧ (∀ g' id', (g', id') ≠ ("minor-checks", "age") →
                   flag_of s' g' id' = flag_of demo_registered g' id').
Proof.
  split; [by vm_compute|].
  apply (addGroup_flags_member demo_user demo_key demo_registered
           (VStr "age") VUndefined "minor-checks");
    [reflexivity|discriminate|vm_compute; reflexivity].
Defined.

(** X9: "age" is removed from "adult-checks" while it is registered, and
    the same call once it is deregistered. *)
Lemma removeGroup_unflags_registered_only_age :
  (callback_ok VUndefined = true
   ∧ inherited "adult-checks" = false
   ∧ is_Some (validationStorage demo_registered !! "age")
   ∧ validationStorage demo_deregistered !! "age" = None
   ∧ inherited "age" = false)
  ∧ (∃ s' t,
       removeGroup demo_user demo_key (VStr "age") (VStr "adult-checks") VUndefined
         demo_registered = (Ok VUndefined, s', t)
       ∧ ¬ flagged s' "adult-checks" "age"
       ∧ (∀ g' id', (g', id') ≠ ("adult-checks", "age") →
                    flag_of s' g' id' = flag_of demo_registered g' id'))
  ∧ removeGroup demo_user demo_key (VStr "age") (VStr "adult-checks") VUndefined
      demo_deregistered
    = (Ok VUndefined, demo_deregistered, [EvWarn (NotRegistered "age")]).
Proof.
  assert (Hreg : is_Some (validationStorage demo_registered !! "age")).
  { exists 0. by vm_compute. }
  assert (Hnot : validationStorage demo_deregistered !! "age" = None) by by vm_compute.
  assert (Hgroup : inherited "adult-checks" = false) by by vm_compute.
  assert (Hkey : inherited "age" = false) by by vm_compute.
  split; [split; [reflexivity|split; [exact Hgroup|split; [exact Hreg|split;
            [exact Hnot|exact Hkey]]]]|]. split.
  - apply (removeGroup_unflags_registered_only demo_user demo_key demo_registered
             (VStr "age") VUndefined "adult-checks" eq_refl Hgroup). exact Hreg.
  - apply (removeGroup_unflags_registered_only demo_user demo_key demo_deregistered
             (VStr "age") VUndefined "adult-checks" eq_refl Hgroup);
      [exact Hnot|exact Hkey].
Defined.

(** X10: function 2 is subscribed to "age" a second time. *)
Lemma subscribe_appends_listener_age :
  (validationStorage demo_two_listeners !! "age" = Some 0
   ∧ records demo_two_listeners !! 0 = Some age_record
   ∧ listeners_valid demo_two_listeners age_record)
  ∧ ∃ c s' t,
      subscribe demo_user demo_key (VStr "age") (VFun 2) VUndefined demo_two_listeners =
        (Ok (Unsubscribe c), s', t)
      ∧ c_listener c = VFun 2
      ∧ validationStorage s' = validationStorage demo_two_listeners
      ∧ field_listeners s' "age" = Some ([VFun 2; VFun 4] ++ [VFun 2]).
Proof.
  assert (Hvalid : listeners_valid demo_two_listeners age_record).
  { exists [VFun 2; VFun 4]. by vm_compute. }
  split; [split; [by vm_compute|split; [by vm_compute|exact Hvalid]]|].
  apply (subscribe_appends_listener demo_user demo_key demo_two_listeners
           (VStr "age") (VFun 2) VUndefined 0 age_record);
    [reflexivity|reflexivity|vm_compute; reflexivity|vm_compute; reflexivity|exact Hvalid].
Defined.

(** X11: function 5 is subscribed to "age" and unsubscribed. *)
Lemma subscribe_then_unsubscribe_restores_age :
  (validationStorage demo_two_listeners !! "age" = Some 0
   ∧ records demo_two_listeners !! 0 = Some age_record
   ∧ listeners_valid demo_two_listeners age_record
   ∧ VFun 5 ∉ [VFun 2; VFun 4])
  ∧ ∃ c s1 t s2,
      subscribe demo_user demo_key (VStr "age") (VFun 5) VUndefined demo_two_listeners =
        (Ok (Unsubscribe c), s1, t)
      ∧ unsubscribe c s1 = (Ok (VBool true), s2, [])
      ∧ field_listeners s2 "age" = Some [VFun 2; VFun 4].
Proof.
  assert (Hvalid : listeners_valid demo_two_listeners age_record).
  { exists [VFun 2; VFun 4]. by vm_compute. }
  assert (Hnew : VFun 5 ∉ [VFun 2; VFun 4]).
  { intros H. apply elem_of_cons in H as [H|H]; [discriminate|].
    apply elem_of_cons in H as [H|H]; [discriminate|]. by apply elem_of_nil in H. }
  split; [split; [by vm_compute|split; [by vm_compute|split; [exact Hvalid|exact Hnew]]]|].
  apply (subscribe_then_unsubscribe_restores demo_user demo_key demo_two_listeners
           (VStr "age") (VFun 5) VUndefined 0 age_record);
    [reflexivity|reflexivity|vm_compute; reflexivity|vm_compute; reflexivity
    |exact Hvalid|exact Hnew].
Defined.

(** X12 on "age" with its two listeners. *)
Lemma clearListeners_empties_age :
  (validationStorage demo_two_listeners !! "age" = Some 0
   ∧ records demo_two_listeners !! 0 = Some age_record
   ∧ callback_ok VUndefined = true)
  ∧ ∃ s' t,
      clearListeners demo_user demo_key (VStr "age") VUndefined demo_two_listeners =
        (Ok VUndefined, s', t)
      ∧ field_listeners s' "age" = Some []
      ∧ validationStorage s' = validationStorage demo_two_listeners
      ∧ (∀ la, la < length (larrays demo_two_listeners) →
               larrays s' !! la = larrays demo_two_listeners !! la).
Proof.
  split; [by vm_compute|].
  apply (clearListeners_empties demo_user demo_key demo_two_listeners "age" 0
           age_record VUndefined); vm_compute; reflexivity.
Defined.

(** X13: after [clearListeners("age")] the function that unsubscribes
    function 2 brings function 4 back. *)
Lemma unsubscribe_after_clearListeners_restores_age :
  (validationStorage demo_two_listeners !! "age" = Some 0
   ∧ records demo_two_listeners !! 0 = Some age_record
   ∧ larrays demo_two_listeners !! 0 = Some [VFun 2; VFun 4])
  ∧ let s1 := store_of (clearListeners demo_user demo_key (VStr "age") VUndefined
                          demo_two_listeners) in
    let s2 := store_of (unsubscribe demo_closure s1) in
    field_listeners s1 "age" = Some []
    ∧ result_of (unsubscribe demo_closure s1) = Ok (VBool true)
    ∧ field_listeners s2 "age" = Some [VFun 4].
Proof.
  split; [by vm_compute|].
  apply (unsubscribe_after_clearListeners_restores demo_user demo_key demo_two_listeners
           "age" demo_closure age_record [VFun 2; VFun 4] VUndefined);
    vm_compute; reflexivity.
Defined.

(** X14: the function that unsubscribes function 2 from the first "age"
    is called once "age" has been registered again. *)
Lemma unsubscribe_leaves_other_fields_age :
  (validationStorage demo_reregistered !! "age" = Some 1
   ∧ records demo_reregistered !! 1
     = Some (FieldRecord VUndefined (VArr [VFun 1]) (VFun 0) None)
   ∧ larrays demo_reregistered !! 0 = Some [VFun 2; VFun 4])
  ∧ ∃ s',
      unsubscribe demo_closure demo_reregistered = (Ok (VBool true), s', [])
      ∧ field_listeners s' "age" = field_listeners demo_reregistered "age".
Proof.
  split; [by vm_compute|].
  apply (unsubscribe_leaves_other_fields demo_reregistered "age" demo_closure 1
           (FieldRecord VUndefined (VArr [VFun 1]) (VFun 0) None) [VFun 2; VFun 4]);
    [vm_compute; reflexivity|vm_compute; reflexivity|discriminate|discriminate
    |vm_compute; reflexivity].
Defined.

(** [demo_registered] is reachable, and its chain holds a function. *)
Lemma demo_registered_reachable : reachable demo_user demo_key demo_registered [].
Proof.
  apply (reachable_step demo_user demo_key (λ _ _, True) (empty_store []) []
           (Register age_field (VArr [VFun 1]) VUndefined) (Ok (Val (VBool true)))
           demo_registered []).
  - apply reachable_init.
  - exact Logic.I.
  - exact Logic.I.
  - vm_compute. reflexivity.
Qed.

Lemma demo_registered_chains_callable : chains_callable demo_registered.
Proof.
  intros lv r Hr. destruct lv as [|lv]; [|by destruct lv].
  vm_compute in Hr. by injection Hr as <-.
Qed.

(** [demo_deregistered] is reachable, and its chain holds a function. *)
Lemma demo_deregistered_reachable : reachable demo_user demo_key demo_deregistered [].
Proof.
  apply (reachable_step demo_user demo_key (λ _ _, True) demo_registered []
           (Deregister (VStr "age") VUndefined) (Ok (Val VUndefined))
           demo_deregistered []).
  - exact demo_registered_reachable.
  - exact Logic.I.
  - exact Logic.I.
  - vm_compute. reflexivity.
Qed.

Lemma demo_deregistered_chains_callable : chains_callable demo_deregistered.
Proof.
  intros lv r Hr. destruct lv as [|lv]; [|by destruct lv].
  vm_compute in Hr. by injection Hr as <-.
Qed.

(** X15 on the group "adult-checks", while "age" is registered and once
    it is deregistered and only flagged. *)
Lemma validate_covers_resolved_ids_age :
  (well_formed demo_registered ∧ chains_callable demo_registered
   ∧ well_formed demo_deregistered ∧ chains_callable demo_deregistered
   ∧ validationStorage demo_deregistered !! "age" = None
   ∧ inherited "age" = false)
  ∧ (∃ l props s' t,
       validate demo_user demo_key (VArr [VStr "adult-checks"]) VUndefined
         demo_registered = (Ok (VRef l), s', t)
       ∧ heap s' !! l = Some (HObj props)
       ∧ props.*1 = ["age"]
       ∧ (∀ id v, (id, v) ∈ props →
            match validationStorage demo_registered !! id with
            | Some _ => (∃ lr, v = VRef lr) ∧ cached s' id = v
            | None => inherited id = false → v = VUndefined
            end))
  ∧ (∃ l props s' t,
       validate demo_user demo_key (VArr [VStr "adult-checks"]) VUndefined
         demo_deregistered = (Ok (VRef l), s', t)
       ∧ heap s' !! l = Some (HObj props)
       ∧ props.*1 = ["age"]
       ∧ (∀ id v, (id, v) ∈ props →
            match validationStorage demo_deregistered !! id with
            | Some _ => (∃ lr, v = VRef lr) ∧ cached s' id = v
            | None => inherited id = false → v = VUndefined
            end)).
Proof.
  assert (Hwf : well_formed demo_registered).
  { exact (reachable_well_formed demo_user demo_key _ _ _ demo_registered_reachable). }
  assert (Hwf' : well_formed demo_deregistered).
  { exact (reachable_well_formed demo_user demo_key _ _ _ demo_deregistered_reachable). }
  split.
  { split; [exact Hwf|]. split; [exact demo_registered_chains_callable|].
    split; [exact Hwf'|]. split; [exact demo_deregistered_chains_callable|].
    by vm_compute. }
  split.
  - apply (validate_covers_resolved_ids demo_user demo_key demo_registered
             (VArr [VStr "adult-checks"]) VUndefined);
      [exact Hwf|exact demo_registered_chains_callable|reflexivity|reflexivity].
  - apply (validate_covers_resolved_ids demo_user demo_key demo_deregistered
             (VArr [VStr "adult-checks"]) VUndefined);
      [exact Hwf'|exact demo_deregistered_chains_callable|reflexivity|reflexivity].
Defined.

(** The one cache entry of [demo_validated] points to the result array. *)
Lemma demo_validated_cache_in_heap : cache_in_heap demo_validated.
Proof.
  intros id l Hl.
  assert (Hc : resultCache demo_validated = <["score" := VRef 1]> ∅) by by vm_compute.
  rewrite Hc in Hl. apply lookup_insert_Some in Hl as [[_ [= <-]]|[_ Hl]].
  - exists (HArr [VRef 0]). by vm_compute.
  - by rewrite lookup_empty in Hl.
Qed.

(** X16 on the registry that has validated "score". *)
Lemma getResults_copies_resolved_ids_score :
  (cache_in_heap demo_validated ∧ groups_ok (heap demo_validated) VUndefined = true)
  ∧ ∃ l props h t,
      getResults demo_key VUndefined demo_validated =
        (Ok (VRef l), set_heap (λ _, heap demo_validated ++ h) demo_validated, t)
      ∧ (length (heap demo_validated) ≤ l)%nat
      ∧ (heap demo_validated ++ h) !! l = Some (HObj props)
      ∧ props.*1 = ["score"]
      ∧ (∀ id v, (id, v) ∈ props →
           cloned_entry demo_validated (heap demo_validated ++ h) id v).
Proof.
  split; [split; [exact demo_validated_cache_in_heap|reflexivity]|].
  apply (getResults_copies_resolved_ids demo_key demo_validated VUndefined);
    [exact demo_validated_cache_in_heap|reflexivity].
Defined.

(** X17 on the same registry. *)
Lemma clearResults_unsets_resolved_ids_score :
  groups_ok (heap demo_validated) VUndefined = true
  ∧ ∃ s' t,
      clearResults demo_key VUndefined demo_validated = (Ok VUndefined, s', t)
      ∧ (∀ id, id ∈ ["score"] →
               resultCache s' !! id = Some VUndefined
               ∧ result_of (getOneResult demo_key (VStr id) s') = Ok VUndefined)
      ∧ (∀ id, id ∉ ["score"] → resultCache s' !! id = resultCache demo_validated !! id).
Proof.
  split; [reflexivity|].
  apply (clearResults_unsets_resolved_ids demo_key demo_validated VUndefined).
  reflexivity.
Defined.

(** X18 on the chain [[check; "required"]]. *)
Lemma validateOne_throws_on_non_function_age :
  (validationStorage demo_bad_chain !! "age" = Some 0
   ∧ records demo_bad_chain !! 0
     = Some (FieldRecord VUndefined (VArr [VFun 1; VStr "required"]) (VFun 0) None)
   ∧ forallb isFunction [VFun 1] = true
   ∧ isFunction (VStr "required") = false)
  ∧ ∃ samples results v h,
      length samples = 1 ∧ length results = 1 ∧
      validateOne demo_user demo_key (VStr "age") VUndefined demo_bad_chain =
        (Throw (TypeError "is not a function"), set_heap (λ _, h) demo_bad_chain,
         chain_events (VFun 0) (VStr "age") [VFun 1] samples results
           ++ [EvCall Getter (VFun 0) [] v]).
Proof.
  split; [by vm_compute|].
  apply (validateOne_throws_on_non_function demo_user demo_key demo_bad_chain "age"
           VUndefined 0
           (FieldRecord VUndefined (VArr [VFun 1; VStr "required"]) (VFun 0) None)
           [VFun 1] (VStr "required") []);
    vm_compute; reflexivity.
Defined.

(** X19 on "age" registered without a chain. *)
Lemma validateOne_without_chain_age :
  (validationStorage demo_no_chain !! "age" = Some 0
   ∧ records demo_no_chain !! 0 = Some (FieldRecord VUndefined VUndefined (VFun 0) None))
  ∧ ∃ lres s2 s' t,
      validateOne demo_user demo_key (VStr "age") VUndefined demo_no_chain =
        (Ok (VRef lres), s', t)
      ∧ count_calls Getter t = 0
      ∧ count_calls Check t = 0
      ∧ listener_calls t = []
      ∧ heap s2 !! lres = Some (HArr [])
      ∧ cached s2 "age" = VRef lres
      ∧ (run! each_listener demo_user 0 0 None (VRef lres)
         in invoke_callback demo_user VUndefined) s2 = (Ok tt, s', t)
      ∧ cached s' "age" = VRef lres.
Proof.
  split; [by vm_compute|].
  apply (validateOne_without_chain demo_user demo_key demo_no_chain "age" VUndefined 0
           (FieldRecord VUndefined VUndefined (VFun 0) None));
    vm_compute; reflexivity.
Defined.

(** X20 with a string as [groups] and a number as [group]. *)
Lemma groups_are_checked_first_string :
  (groups_ok [] (VStr "adult-checks") = false ∧ isString (VNum 1) = false)
  ∧ refuses (validate demo_user demo_key (VStr "adult-checks") VUndefined) (empty_store [])
  ∧ refuses (updateGroups demo_user demo_key (VStr "age") (VStr "adult-checks") VUndefined)
      (empty_store [])
  ∧ refuses (getResults demo_key (VStr "adult-checks")) (empty_store [])
  ∧ refuses (clearResults demo_key (VStr "adult-checks")) (empty_store [])
  ∧ refuses (addGroup demo_user demo_key (VStr "age") (VNum 1) VUndefined) (empty_store [])
  ∧ refuses (removeGroup demo_user demo_key (VStr "age") (VNum 1) VUndefined)
      (empty_store []).
Proof.
  split; [by split|].
  apply (groups_are_checked_first demo_user demo_key (empty_store [])
           (VStr "age") (VStr "adult-checks") (VNum 1) VUndefined); reflexivity.
Defined.

(** X21 on the registry that holds "age". *)
Lemma reachable_registry_well_formed_age :
  reachable demo_user demo_key demo_registered [] ∧ well_formed demo_registered.
Proof.
  split; [exact demo_registered_reachable|].
  exact (reachable_registry_well_formed demo_user demo_key demo_registered []
           demo_registered_reachable).
Defined.

(** X22 on the same registry. *)
Lemma validateOne_succeeds_when_reachable_age :
  (reachable demo_user demo_key demo_registered []
   ∧ validationStorage demo_registered !! "age" = Some 0)
  ∧ ∃ lres s' t,
      validateOne demo_user demo_key (VStr "age") VUndefined demo_registered =
        (Ok (VRef lres), s', t)
      ∧ cached s' "age" = VRef lres.
Proof.
  split; [split; [exact demo_registered_reachable|by vm_compute]|].
  apply (validateOne_succeeds_when_reachable demo_user demo_key demo_registered []
           "age" 0 VUndefined);
    [exact demo_registered_reachable|vm_compute; reflexivity
    |exact (demo_registered_chains_callable 0)|reflexivity].
Defined.

(** X23: "age" is registered with [null] as chain, which [register]
    accepts; the helper then throws. *)
Lemma printValidationInfoHelper_null_chain_age :
  (result_of (register demo_user demo_key age_field VNull VUndefined (empty_store []))
   = Ok (VBool true)
   ∧ validationStorage demo_null_chain !! "age" = Some 0
   ∧ records demo_null_chain !! 0 = Some (FieldRecord VUndefined VNull (VFun 0) None))
  ∧ refuses printValidationInfoHelper demo_null_chain
  ∧ printValidationInfoHelper demo_registered = (Ok tt, demo_registered, []).
Proof.
  split; [by vm_compute|]. split.
  - apply (printValidationInfoHelper_null_chain demo_null_chain).
    + intros id lv Hid.
      assert (Hs : validationStorage demo_null_chain = <["age" := 0]> ∅) by by vm_compute.
      rewrite Hs in Hid. apply lookup_insert_Some in Hid as [[_ <-]|[_ Hid]].
      * by eexists.
      * by rewrite lookup_empty in Hid.
    + exists "age", 0, (FieldRecord VUndefined VNull (VFun 0) None). by vm_compute.
  - apply (printValidationInfoHelper_null_chain demo_registered).
    + intros id lv Hid.
      exact (proj1 (reachable_well_formed demo_user demo_key _ _ _
                      demo_registered_reachable) id lv Hid).
    + intros id lv value Hid Hrec Hnull.
      destruct lv as [|lv]; [|by destruct lv].
      vm_compute in Hrec. injection Hrec as <-. discriminate.
Defined.

(** X24 on the registry that holds "age" in "adult-checks". *)
Lemma printGroupInfoHelper_lists_resolved_ids_age :
  ("adult-checks", ["age"]) ∈ printGroupInfoHelper demo_registered
  ∧ is_Some (groupStroage demo_registered !! "adult-checks")
  ∧ ("age" ∈ ["age"] ↔
     "age" ∈ getIdsFromGroups demo_key demo_registered (VArr [VStr "adult-checks"])).
Proof.
  assert (Hin : ("adult-checks", ["age"]) ∈ printGroupInfoHelper demo_registered).
  { vm_compute. left. }
  split; [exact Hin|].
  destruct (printGroupInfoHelper_lists_resolved_ids demo_key demo_registered
              "adult-checks") as [Hgroups Hids].
  split.
  - apply Hgroups. apply list_elem_of_fmap. by exists ("adult-checks", ["age"]).
  - exact (Hids ["age"] "age" Hin).
Defined.

(** X25 on the registry that holds "age". *)
Lemma reachable_ids_not_inherited_age :
  (reachable demo_user demo_key demo_registered []
   ∧ validationStorage demo_registered !! "age" = Some 0)
  ∧ inherited "age" = false.
Proof.
  split; [split; [exact demo_registered_reachable|by vm_compute]|].
  apply (reachable_ids_not_inherited demo_user demo_key demo_registered [] "age" 0);
    [exact demo_registered_reachable|by vm_compute].
Defined.
